(** * electric-mpg-app: the EV cost calculator and the Gradle signing patcher

    A shallow embedding of [src/App.tsx] (the calculation memos of the
    SolidJS component) and of [android-create-signed.cjs] (the one-shot
    patcher of [build.gradle.kts]), with the properties of the
    specification stated over them.

    JavaScript strings are sequences of UTF-16 code units; JavaScript
    numbers are IEEE 754 binary64 values, embedded as Rocq's primitive
    floats.  The calculation code is written once, over an interface of
    number operations, and read at two instances: binary64 (what the
    program runs) and exact rational arithmetic extended with the two
    infinities and NaN (the arithmetic the specification reasons in).

    [src/App.tsx] holds two versions of the component: the first, which
    has the two unit systems and applies the charging loss, is [App]; the
    second, in dollars, miles and gallons only, is [AppUS].  What the
    component formats for display is in [AppDisplay]. *)

From Stdlib Require Import ZArith NArith List Bool Lia String Ascii.
From Stdlib Require Import QArith Qcanon Qpower Lqa Floats.
From Stdlib Require Qabs DecimalPos DecimalN.
Import ListNotations.

Close Scope Qc_scope.
Close Scope Q_scope.

Set Warnings "-inexact-float".

(** ** JavaScript strings *)

Module JSString.

(** A UTF-16 code unit. *)
Definition char := N.
Definition t := list char.

Definition DQUOTE : char := 34%N.
Definition LBRACE : char := 123%N.

(** String literals of the sources.  The double quote cannot be written
    inside a Rocq string here, so an apostrophe stands for it: none of
    the literals of the sources contains an apostrophe of its own. *)
Definition unit_of_ascii (a : ascii) : char :=
  if Ascii.eqb a "'"%char then DQUOTE else N_of_ascii a.

Definition lit (s : string) : t := map unit_of_ascii (list_ascii_of_string s).

(** ECMAScript [WhiteSpace] and [LineTerminator] code points: what
    [String.prototype.trim] strips and what [\s] matches. *)
Definition isWhiteSpace (c : char) : bool :=
  existsb (N.eqb c)
    [9; 10; 11; 12; 13; 32; 160; 5760; 8232; 8233; 8239; 8287; 12288; 65279]%N
  || ((8192 <=? c) && (c <=? 8202))%N.

(** Equality of strings, unit by unit. *)
Fixpoint eqb (a b : t) : bool :=
  match a, b with
  | [], [] => true
  | c :: a', d :: b' => N.eqb c d && eqb a' b'
  | _, _ => false
  end.

Fixpoint startsWith (s p : t) {struct p} : bool :=
  match p, s with
  | [], _ => true
  | _ :: _, [] => false
  | c :: p', d :: s' => N.eqb c d && startsWith s' p'
  end.

(** [String.prototype.includes]. *)
Fixpoint includes (s needle : t) : bool :=
  startsWith s needle
  || match s with
     | [] => false
     | _ :: s' => includes s' needle
     end.

Fixpoint trimStart (s : t) : t :=
  match s with
  | c :: s' => if isWhiteSpace c then trimStart s' else s
  | [] => []
  end.

Definition trimEnd (s : t) : t := rev (trimStart (rev s)).

(** [String.prototype.trim]. *)
Definition trim (s : t) : t := trimEnd (trimStart s).

(** The longest run of white space at the head of [s], and the rest. *)
Fixpoint spanWhiteSpace (s : t) : t * t :=
  match s with
  | c :: s' =>
      if isWhiteSpace c
      then let '(ws, rest) := spanWhiteSpace s' in (c :: ws, rest)
      else ([], s)
  | [] => ([], [])
  end.

(** A match of the regular expression [/(word\s*\{)/] at the head of
    [s]: the matched text (which is also capture group 1) and what
    follows it.  [\s*] is greedy, and backing off from it cannot help,
    since a white-space unit is not a brace. *)
Definition matchAnchorAt (word s : t) : option (t * t) :=
  if startsWith s word then
    let '(ws, rest) := spanWhiteSpace (skipn (List.length word) s) in
    match rest with
    | c :: after =>
        if N.eqb c LBRACE then Some (word ++ ws ++ [c], after) else None
    | [] => None
    end
  else None.

(** The leftmost match of [/(word\s*\{)/] in [s], as
    [RegExp.prototype.exec] finds it: text before, match, text after. *)
Fixpoint searchAnchor (word s : t) : option (t * t * t) :=
  match matchAnchorAt word s with
  | Some (m, after) => Some ([], m, after)
  | None =>
      match s with
      | [] => None
      | c :: s' =>
          match searchAnchor word s' with
          | Some (before, m, after) => Some (c :: before, m, after)
          | None => None
          end
      end
  end.

End JSString.

Import JSString.

(** ** android-create-signed.cjs *)

Module Gradle.

Definition IMPORTS_TO_ADD : list JSString.t :=
  [ lit "import java.io.FileInputStream";
    lit "import java.util.Properties" ].

Definition SIGNING_CONFIG_BLOCK : JSString.t := lit "
    signingConfigs {
        create('release') {
            val keystorePropertiesFile = rootProject.file('keystore.properties')
            val keystoreProperties = Properties()
            if (keystorePropertiesFile.exists()) {
                keystoreProperties.load(FileInputStream(keystorePropertiesFile))
            }

            keyAlias = keystoreProperties['keyAlias'] as String
            keyPassword = keystoreProperties['password'] as String
            storeFile = file(keystoreProperties['storeFile'] as String)
            storePassword = keystoreProperties['password'] as String
        }
    }
".

Definition RELEASE_CONFIG_LINE : JSString.t :=
  lit "            signingConfig = signingConfigs.getByName('release')".

Definition NL : JSString.t := [10%N].

(** What the script prints, by console stream. *)
Inductive stream := Log | Warn | Error.

Inductive message :=
| GradleFileNotFound        (* Error: Could not find file at ... *)
| RunTauriAndroidInit       (* Make sure you have run "tauri android init" ... *)
| KeystoreCopied            (* Copied keystore.properties to ... *)
| KeystoreCopyFailed        (* Error copying keystore.properties: ... *)
| KeystoreNotFound          (* Warning: keystore.properties not found in project root. *)
| KeystoreExpectedAt        (* Expected at: ... *)
| KeystoreBuildMayFail      (* The build usually fails if this file is missing ... *)
| ReadingGradle             (* Reading ... *)
| ImportsAdded              (* Added imports. *)
| ImportsPresent            (* Imports already present. *)
| SigningBlockAdded         (* Added signingConfigs block. *)
| BuildTypesNotFound        (* Error: Could not find "buildTypes {" block ... *)
| SigningBlockPresent       (* Signing config block already appears to be present. *)
| ReleaseConfigApplied      (* Applied signing config to release build type. *)
| ReleaseBlockNotFound      (* Error: Could not find "getByName("release") {" block. *)
| ReleaseConfigPresent      (* Release build type already configured. *)
| GradleUpdated             (* build.gradle.kts updated successfully! *)
| GradleUpToDate.           (* build.gradle.kts is already up to date. *)

Definition message_eq_dec (a b : message) : {a = b} + {a <> b}.
Proof. decide equality. Defined.

Definition console := list (stream * message).

(** Step 2.1 (lines 63-77): the imports missing from the file are
    prepended to it. *)
Definition importsString (content : JSString.t) : JSString.t :=
  fold_left
    (fun acc imp => if negb (includes content imp) then acc ++ imp ++ NL else acc)
    IMPORTS_TO_ADD [].

Definition addImports (content : JSString.t) : JSString.t * console :=
  let imports := importsString content in
  if (0 <? List.length imports)%nat
  then (imports ++ content, [(Log, ImportsAdded)])
  else (content, [(Log, ImportsPresent)]).

(** Step 2.2 (lines 79-91): the signing block goes before the first
    [buildTypes {], unless the file already has both
    [create("release")] and [keystore.properties].
    The replacement text is the block, a line break, four spaces and
    [$1]. *)
Definition addSigningConfig (content : JSString.t) : JSString.t * console :=
  if negb (includes content (lit "create('release')"))
     || negb (includes content (lit "keystore.properties"))
  then
    match searchAnchor (lit "buildTypes") content with
    | Some (before, m, after) =>
        (before ++ (SIGNING_CONFIG_BLOCK ++ NL ++ lit "    " ++ m) ++ after,
         [(Log, SigningBlockAdded)])
    | None => (content, [(Error, BuildTypesNotFound)])
    end
  else (content, [(Log, SigningBlockPresent)]).

(** Step 2.3 (lines 93-108): the signing line goes right after the
    first [getByName("release") {], unless the file already has it.  The
    replacement text is [$1], a line break and the line. *)
Definition applyReleaseConfig (content : JSString.t) : JSString.t * console :=
  if negb (includes content (lit "signingConfig = signingConfigs.getByName('release')"))
  then
    match searchAnchor (lit "getByName('release')") content with
    | Some (before, m, after) =>
        (before ++ (m ++ NL ++ RELEASE_CONFIG_LINE) ++ after,
         [(Log, ReleaseConfigApplied)])
    | None => (content, [(Error, ReleaseBlockNotFound)])
    end
  else (content, [(Log, ReleaseConfigPresent)]).

(** Steps 2.1 to 2.3 in sequence, each on the text the previous one
    left. *)
Definition patch (content : JSString.t) : JSString.t * console :=
  let '(c1, m1) := addImports content in
  let '(c2, m2) := addSigningConfig c1 in
  let '(c3, m3) := applyReleaseConfig c2 in
  (c3, m1 ++ m2 ++ m3).

Definition transform (content : JSString.t) : JSString.t := fst (patch content).

(** The three files the script touches, each absent or a regular file
    with its content.  [copyError] is the environment's answer to
    [fs.copyFileSync], which the script calls under [try]: whether it
    throws.  Reading and writing the Gradle file, once it exists, are
    taken to succeed: the script has no handler for their failure. *)
Record FileSystem := {
  gradleFile : option JSString.t;       (* src-tauri/gen/android/app/build.gradle.kts *)
  keystoreSource : option JSString.t;   (* ./keystore.properties *)
  keystoreDest : option JSString.t;     (* src-tauri/gen/android/keystore.properties *)
  copyError : bool
}.

Record Run := {
  exitCode : nat;
  output : console;
  files : FileSystem
}.

(** Step 1 (lines 41-56): copy keystore.properties beside the Android
    project. *)
Definition copyKeystore (fs : FileSystem) : FileSystem * console :=
  match keystoreSource fs with
  | Some k =>
      if copyError fs
      then (fs, [(Error, KeystoreCopyFailed)])
      else ({| gradleFile := gradleFile fs;
               keystoreSource := keystoreSource fs;
               keystoreDest := Some k;
               copyError := copyError fs |},
            [(Log, KeystoreCopied)])
  | None =>
      (fs, [(Warn, KeystoreNotFound); (Warn, KeystoreExpectedAt);
            (Warn, KeystoreBuildMayFail)])
  end.

(** [main] (lines 33-117): exit with status 1 when the Gradle file is
    missing; otherwise copy the keystore, patch the text read, and write
    it back when it changed. *)
Definition main (fs : FileSystem) : Run :=
  match gradleFile fs with
  | None =>
      {| exitCode := 1;
         output := [(Error, GradleFileNotFound); (Error, RunTauriAndroidInit)];
         files := fs |}
  | Some originalContent =>
      let '(fs1, out1) := copyKeystore fs in
      let '(content, out2) := patch originalContent in
      if negb (JSString.eqb content originalContent)
      then {| exitCode := 0;
              output := out1 ++ [(Log, ReadingGradle)] ++ out2 ++ [(Log, GradleUpdated)];
              files := {| gradleFile := Some content;
                          keystoreSource := keystoreSource fs1;
                          keystoreDest := keystoreDest fs1;
                          copyError := copyError fs1 |} |}
      else {| exitCode := 0;
              output := out1 ++ [(Log, ReadingGradle)] ++ out2 ++ [(Log, GradleUpToDate)];
              files := fs1 |}
  end.


(** A Gradle file as [tauri android init] lays it out, reduced to the
    two anchors. *)
Definition sampleGradle : JSString.t := lit "android {
    buildTypes {
        getByName('release') {
            isMinifyEnabled = true
        }
    }
}".

End Gradle.


(** ** JavaScript numbers *)

Module JSNumber.

(** The mathematical value a numeric literal or a numeric string
    denotes, before it is rounded to a Number: not a number at all, an
    infinity, or [(-1)^negative * digits * 10^exponent]. *)
Inductive NumericValue :=
| NotANumber
| Infinite (negative : bool)
| Decimal (negative : bool) (digits : N) (exponent : Z).

(** *** [StringToNumber], the conversion [Number(value)] applies to a string *)

Definition digitValue (radix : N) (c : JSString.char) : option N :=
  let v := if ((48 <=? c) && (c <=? 57))%N then Some (c - 48)%N
           else if ((97 <=? c) && (c <=? 102))%N then Some (c - 87)%N
           else if ((65 <=? c) && (c <=? 70))%N then Some (c - 55)%N
           else None in
  match v with
  | Some d => if (d <? radix)%N then Some d else None
  | None => None
  end.

(** The longest run of digits at the head of [s]: the number read
    (continuing [acc]), how many digits were read, and the rest. *)
Fixpoint digitRun (radix : N) (s : JSString.t) (acc : N) (count : nat)
  : N * nat * JSString.t :=
  match s with
  | c :: s' =>
      match digitValue radix c with
      | Some d => digitRun radix s' (radix * acc + d)%N (S count)
      | None => (acc, count, s)
      end
  | [] => (acc, count, [])
  end.

(** [ExponentPart], optional, up to the end of the text. *)
Definition exponentPart (s : JSString.t) : option Z :=
  match s with
  | [] => Some 0%Z
  | c :: s' =>
      if (N.eqb c 101 || N.eqb c 69)%N then         (* e E *)
        let '(negative, s'') :=
          match s' with
          | 43%N :: r => (false, r)                  (* + *)
          | 45%N :: r => (true, r)                   (* - *)
          | _ => (false, s')
          end in
        match digitRun 10 s'' 0 0 with
        | (v, S _, []) => Some (if negative then (- Z.of_N v)%Z else Z.of_N v)
        | _ => None
        end
      else None
  end.

(** [StrUnsignedDecimalLiteral] without [Infinity]: digits, an optional
    point and more digits, with a digit on at least one side of the
    point, and an optional exponent. *)
Definition unsignedDecimal (s : JSString.t) : option (N * Z) :=
  let '(intPart, intCount, s1) := digitRun 10 s 0 0 in
  let '(mantissa, fracCount, s2) :=
    match s1 with
    | 46%N :: r => digitRun 10 r intPart 0           (* . *)
    | _ => (intPart, 0, s1)
    end in
  if (intCount + fracCount =? 0)%nat then None
  else
    match exponentPart s2 with
    | Some e => Some (mantissa, (e - Z.of_nat fracCount)%Z)
    | None => None
    end.

Definition strDecimalLiteral (s : JSString.t) : NumericValue :=
  let '(negative, body) :=
    match s with
    | 43%N :: r => (false, r)
    | 45%N :: r => (true, r)
    | _ => (false, s)
    end in
  if JSString.eqb body (lit "Infinity") then Infinite negative
  else
    match unsignedDecimal body with
    | Some (m, e) => Decimal negative m e
    | None => NotANumber
    end.

(** [NonDecimalIntegerLiteral]: 0x, 0o and 0b literals, unsigned. *)
Definition nonDecimalLiteral (s : JSString.t) : option NumericValue :=
  match s with
  | 48%N :: p :: r =>
      let radix :=
        if (N.eqb p 120 || N.eqb p 88)%N then Some 16%N        (* x X *)
        else if (N.eqb p 111 || N.eqb p 79)%N then Some 8%N    (* o O *)
        else if (N.eqb p 98 || N.eqb p 66)%N then Some 2%N     (* b B *)
        else None in
      match radix with
      | Some b =>
          match digitRun b r 0 0 with
          | (v, S _, []) => Some (Decimal false v 0)
          | _ => Some NotANumber
          end
      | None => None
      end
  | _ => None
  end.

Definition StringToNumber (s : JSString.t) : NumericValue :=
  match trim s with
  | [] => Decimal false 0 0
  | text =>
      match nonDecimalLiteral text with
      | Some v => v
      | None => strDecimalLiteral text
      end
  end.

(** *** The operations on Numbers that the calculator uses *)

Class Arithmetic (num : Type) := {
  (** the Number for a mathematical value *)
  ofValue : NumericValue -> num;
  mul : num -> num -> num;
  div : num -> num -> num;
  sub : num -> num -> num;
  (** [x <= y] and [x < y] *)
  leb : num -> num -> bool;
  ltb : num -> num -> bool;
  (** the global [isFinite] *)
  isFinite : num -> bool
}.

(** [Number(value)] for a string [value]. *)
Definition Number {num} `{Arithmetic num} (value : JSString.t) : num :=
  ofValue (StringToNumber value).

(** A decimal literal of the source text. *)
Definition literal {num} `{Arithmetic num} (digits : N) (exponent : Z) : num :=
  ofValue (Decimal false digits exponent).

(** *** IEEE 754 binary64: the Numbers of the running program *)

(** [digits * 10^exponent] rounded to the nearest binary64 value, ties
    to even: one rounding of the exact integer or of the exact
    quotient. *)
Definition roundDecimal (digits : positive) (exponent : Z) : spec_float :=
  match exponent with
  | Zneg k =>
      SFdiv prec emax (S754_finite false digits 0)
                      (S754_finite false (Pos.pow 10 k) 0)
  | _ => binary_normalize prec emax (Zpos digits * 10 ^ exponent)%Z 0 false
  end.

Definition binary64_ofValue (v : NumericValue) : float :=
  match v with
  | NotANumber => nan
  | Infinite false => infinity
  | Infinite true => neg_infinity
  | Decimal negative 0%N _ => if negative then neg_zero else zero
  | Decimal negative (Npos m) e =>
      let f := SF2Prim (roundDecimal m e) in
      if negative then PrimFloat.opp f else f
  end.

#[export] Instance Binary64 : Arithmetic float := {
  ofValue := binary64_ofValue;
  mul := PrimFloat.mul;
  div := PrimFloat.div;
  sub := PrimFloat.sub;
  leb := PrimFloat.leb;
  ltb := PrimFloat.ltb;
  isFinite := fun n => negb (PrimFloat.is_nan n || PrimFloat.is_infinity n)
}.

(** *** Exact arithmetic: the Numbers of the specification's algebra

    Rationals with the two infinities and NaN, computed without
    rounding: no overflow, no underflow, no signed zero.  Division by
    zero and the operations on infinities follow IEEE 754. *)
Inductive exact :=
| NaN
| Inf (negative : bool)
| Fin (q : Qc).

Definition isNegative (q : Qc) : bool := negb (Qle_bool 0 q).
Definition isZero (q : Qc) : bool := Qeq_bool q 0.

Definition exact_ofValue (v : NumericValue) : exact :=
  match v with
  | NotANumber => NaN
  | Infinite negative => Inf negative
  | Decimal negative m e =>
      let q := (inject_Z (Z.of_N m) * (10 # 1) ^ e)%Q in
      Fin (Q2Qc (if negative then - q else q)%Q)
  end.

Definition exact_mul (x y : exact) : exact :=
  match x, y with
  | NaN, _ | _, NaN => NaN
  | Inf s, Inf s' => Inf (xorb s s')
  | Inf s, Fin q | Fin q, Inf s =>
      if isZero q then NaN else Inf (xorb s (isNegative q))
  | Fin p, Fin q => Fin (p * q)%Qc
  end.

Definition exact_div (x y : exact) : exact :=
  match x, y with
  | NaN, _ | _, NaN => NaN
  | Inf _, Inf _ => NaN
  | Inf s, Fin q => Inf (xorb s (isNegative q))
  | Fin _, Inf _ => Fin 0%Qc
  | Fin p, Fin q =>
      if isZero q
      then (if isZero p then NaN else Inf (isNegative p))
      else Fin (p / q)%Qc
  end.

Definition exact_sub (x y : exact) : exact :=
  match x, y with
  | NaN, _ | _, NaN => NaN
  | Inf s, Inf s' => if Bool.eqb s s' then NaN else Inf s
  | Inf s, Fin _ => Inf s
  | Fin _, Inf s => Inf (negb s)
  | Fin p, Fin q => Fin (p - q)%Qc
  end.

Definition exact_leb (x y : exact) : bool :=
  match x, y with
  | NaN, _ | _, NaN => false
  | Inf s, Inf s' => s || negb s'
  | Inf s, Fin _ => s
  | Fin _, Inf s => negb s
  | Fin p, Fin q => Qle_bool p q
  end.

Definition exact_ltb (x y : exact) : bool :=
  match x, y with
  | NaN, _ | _, NaN => false
  | Inf s, Inf s' => s && negb s'
  | Inf s, Fin _ => s
  | Fin _, Inf s => negb s
  | Fin p, Fin q => negb (Qle_bool q p)
  end.

#[export] Instance Exact : Arithmetic exact := {
  ofValue := exact_ofValue;
  mul := exact_mul;
  div := exact_div;
  sub := exact_sub;
  leb := exact_leb;
  ltb := exact_ltb;
  isFinite := fun n => match n with Fin _ => true | _ => false end
}.

End JSNumber.

Import JSNumber.

(** ** src/App.tsx: the signals and the calculation memos *)

Module App.

Declare Scope num_scope.
Delimit Scope num_scope with num.
Infix "*" := mul : num_scope.
Infix "/" := div : num_scope.
Infix "-" := sub : num_scope.
Infix "<=?" := leb : num_scope.
Infix "<?" := ltb : num_scope.

Inductive UnitSystem := US | METRIC.

(** The state of the component: the unit system and the four input
    texts, as typed. *)
Record Signals := {
  unitSystem : UnitSystem;
  electricityCost : JSString.t;
  efficiencyInput : JSString.t;
  fuelPrice : JSString.t;
  iceEfficiency : JSString.t
}.

Section Memos.

Context {num : Type} `{Arithmetic num}.

Local Open Scope num_scope.

(** Typical Level 2 AC charging efficiency (90%): the literal [0.90]
    (App.tsx, line 7). *)
Definition CHARGING_EFFICIENCY : num := literal 90 (-2).

(** App.tsx, lines 23-27. *)
Definition parsePositiveNumber (value : JSString.t) : option num :=
  let n := Number value in
  if negb (isFinite n) || (n <=? literal 0 0) then None else Some n.

Definition electricityCostNum (s : Signals) : option num :=
  parsePositiveNumber (electricityCost s).

Definition efficiencyNum (s : Signals) : option num :=
  parsePositiveNumber (efficiencyInput s).

Definition fuelPriceNum (s : Signals) : option num :=
  parsePositiveNumber (fuelPrice s).

(** App.tsx, lines 33-36: an empty text, once trimmed, is falsy. *)
Definition iceEfficiencyNum (s : Signals) : option num :=
  match trim (iceEfficiency s) with
  | [] => None
  | _ => parsePositiveNumber (iceEfficiency s)
  end.

Record Results := {
  electricCostPerDist : num;
  evFuelEquivalent : num;
  rawEfficiency : num;
  effectiveEfficiency : num
}.

(** App.tsx, lines 52-78. *)
Definition results (s : Signals) : option Results :=
  match electricityCostNum s, efficiencyNum s, fuelPriceNum s with
  | Some Ce, Some E_raw, Some Cf =>
      let E_effective := E_raw * CHARGING_EFFICIENCY in
      let electricCostPerDist := Ce / E_effective in
      let evFuelEquivalent := Cf / electricCostPerDist in
      Some {| electricCostPerDist := electricCostPerDist;
              evFuelEquivalent := evFuelEquivalent;
              rawEfficiency := E_raw;
              effectiveEfficiency := E_effective |}
  | _, _, _ => None
  end.

Record Comparison := {
  gasCostPerDist : num;
  efficiencyDisplay : num;
  savingsPerDist : num;
  percentSavings : num;
  efficiencyFactor : num
}.

(** App.tsx, lines 80-118.  A result object is truthy, so [!base] is
    the test for the absent derivation. *)
Definition comparison (s : Signals) : option Comparison :=
  match results s, iceEfficiencyNum s with
  | Some base, Some IceEffInput =>
      match fuelPriceNum s with
      | None => None
      | Some Cf =>
          let gasCostPerDist :=
            match unitSystem s with
            | US => Cf / IceEffInput
            | METRIC => (Cf * IceEffInput) / literal 100 0
            end in
          let efficiencyDisplay := IceEffInput in
          let savingsPerDist := gasCostPerDist - electricCostPerDist base in
          let percentSavings :=
            if literal 0 0 <? gasCostPerDist
            then (savingsPerDist / gasCostPerDist) * literal 100 0
            else literal 0 0 in
          let efficiencyFactor := gasCostPerDist / electricCostPerDist base in
          Some {| gasCostPerDist := gasCostPerDist;
                  efficiencyDisplay := efficiencyDisplay;
                  savingsPerDist := savingsPerDist;
                  percentSavings := percentSavings;
                  efficiencyFactor := efficiencyFactor |}
      end
  | _, _ => None
  end.

End Memos.

Arguments Results : clear implicits.
Arguments Comparison : clear implicits.

(** The inputs of the specification's scenario: 0.12 $/kWh, 3.5 miles
    per kWh and 4.00 $ per gallon, against a 30 MPG car. *)
Definition scenario : Signals :=
  {| unitSystem := US;
     electricityCost := lit "0.12";
     efficiencyInput := lit "3.5";
     fuelPrice := lit "4.00";
     iceEfficiency := lit "30" |}.

(** Inputs at the edge of binary64: an electricity cost of 5e-324, the
    smallest positive Number; and a fuel price of 5e-324 beside it. *)
Definition underflowing : Signals :=
  {| unitSystem := US;
     electricityCost := lit "5e-324";
     efficiencyInput := lit "10";
     fuelPrice := lit "4";
     iceEfficiency := lit "30" |}.

Definition underflowingFuel : Signals :=
  {| unitSystem := US;
     electricityCost := lit "5e-324";
     efficiencyInput := lit "10";
     fuelPrice := lit "5e-324";
     iceEfficiency := lit "30" |}.

(** Everyday inputs on which the rounding shows. *)
Definition rounding : Signals :=
  {| unitSystem := US;
     electricityCost := lit "0.10";
     efficiencyInput := lit "3";
     fuelPrice := lit "3.50";
     iceEfficiency := lit "25" |}.

Definition roundingTrip : Signals :=
  {| unitSystem := US;
     electricityCost := lit "0.12";
     efficiencyInput := lit "3";
     fuelPrice := lit "3.00";
     iceEfficiency := lit "" |}.

End App.
(** ** src/App.tsx: what the component shows of a result *)

Module AppDisplay.
Import App.

(** [ToBoolean] of a Number: false for the two zeros and for NaN. *)
Definition ToBoolean (n : float) : bool :=
  negb (PrimFloat.is_zero n || PrimFloat.is_nan n).

(** [value || 0], for a Number or [null]. *)
Definition orZero (value : option float) : float :=
  match value with
  | Some n => if ToBoolean n then n else 0%float
  | None => 0%float
  end.

(** App.tsx, lines 250-251: the accessors of the results block. *)
Definition cf (s : Signals) : float := orZero (fuelPriceNum s).
Definition ce (s : Signals) : float := orZero (electricityCostNum s).

(** The decimal digits of [n], most significant first; [0] is one
    digit. *)
Fixpoint digitUnits (d : Decimal.uint) : JSString.t :=
  match d with
  | Decimal.Nil => []
  | Decimal.D0 d' => 48%N :: digitUnits d'
  | Decimal.D1 d' => 49%N :: digitUnits d'
  | Decimal.D2 d' => 50%N :: digitUnits d'
  | Decimal.D3 d' => 51%N :: digitUnits d'
  | Decimal.D4 d' => 52%N :: digitUnits d'
  | Decimal.D5 d' => 53%N :: digitUnits d'
  | Decimal.D6 d' => 54%N :: digitUnits d'
  | Decimal.D7 d' => 55%N :: digitUnits d'
  | Decimal.D8 d' => 56%N :: digitUnits d'
  | Decimal.D9 d' => 57%N :: digitUnits d'
  end.

Definition decimalDigits (n : N) : JSString.t := digitUnits (N.to_uint n).

(** Steps 11.b and 11.c of [Number.prototype.toFixed]: the digits of
    [n], padded with zeros to more than [f] digits, with a point before
    the last [f] of them. *)
Definition fixedText (n : N) (f : nat) : JSString.t :=
  let m := decimalDigits n in
  if (f =? 0)%nat then m
  else
    let k := List.length m in
    let m := if (k <=? f)%nat then repeat 48%N (f + 1 - k) ++ m else m in
    let k := if (k <=? f)%nat then (f + 1)%nat else k in
    firstn (k - f) m ++ [46%N] ++ skipn (k - f) m.

(** The magnitude of a finite Number as a fraction [p / q]. *)
Definition magnitude (m : positive) (e : Z) : Z * Z :=
  if (0 <=? e)%Z then (Zpos m * 2 ^ e, 1)%Z else (Zpos m, 2 ^ (- e))%Z.

(** The integer [n] for which [n / 10^f] is nearest to [p / q], the
    larger one of two. *)
Definition nearestFixed (p q : Z) (f : nat) : N :=
  Z.to_N ((2 * p * 10 ^ Z.of_nat f + q) / (2 * q)).

Section ToFixed.

(** [Number::toString] for the finite Numbers of magnitude [1e21] and
    above, which [toFixed] hands over to it: the scientific notation of
    the engine. *)
Variable NumberToString : float -> JSString.t.

(** [Number.prototype.toFixed(fractionDigits)], for a [fractionDigits]
    that is a natural number: [None] is the [RangeError] thrown above
    100. *)
Definition toFixed (x : float) (fractionDigits : N) : option JSString.t :=
  if (100 <? fractionDigits)%N then None
  else
    let f := N.to_nat fractionDigits in
    match Prim2SF x with
    | S754_nan => Some (lit "NaN")
    | S754_infinity s => Some ((if s then lit "-" else []) ++ lit "Infinity")
    | S754_zero _ => Some (fixedText 0 f)
    | S754_finite s m e =>
        let '(p, q) := magnitude m e in
        Some ((if s then lit "-" else [])
              ++ if (10 ^ 21 * q <=? p)%Z
                 then NumberToString (PrimFloat.abs x)
                 else fixedText (nearestFixed p q f) f)
    end.

(** App.tsx, lines 121-123.  An absent [d] is the omitted argument,
    which takes the default. *)
Definition formatCurrency (val : float) (d : option N) : option JSString.t :=
  option_map (fun text => lit "$" ++ text)
             (toFixed val (match d with Some d => d | None => 3%N end)).

Definition formatNumber (val : float) (d : option N) : option JSString.t :=
  toFixed val (match d with Some d => d | None => 1%N end).

Definition formatPercent (val : float) (d : option N) : option JSString.t :=
  option_map (fun text => text ++ lit "%")
             (toFixed val (match d with Some d => d | None => 0%N end)).

End ToFixed.

End AppDisplay.

(** ** src/App.tsx, the second component (lines 355-706): dollars, miles
    and gallons only, and no charging loss *)

Module AppUS.

(** The notations of [App] for the operations on Numbers. *)
Module Notations.
Infix "*" := mul : num_scope.
Infix "/" := div : num_scope.
Infix "-" := sub : num_scope.
Infix "<=?" := leb : num_scope.
Infix "<?" := ltb : num_scope.
End Notations.
Import Notations.

Record Signals := {
  electricityCost : JSString.t;
  milesPerKwh : JSString.t;
  gasPrice : JSString.t;
  gasMpg : JSString.t
}.

Module EvResults.
Record t (num : Type) := {
  evMpgEquivalent : num;
  electricCostPerMile : num
}.
Arguments evMpgEquivalent {num}.
Arguments electricCostPerMile {num}.
End EvResults.

Module ComparisonResults.
Record t (num : Type) := {
  gasCostPerMile : num;
  electricCostPerMile : num;
  savingsPerMile : num;
  percentSavings : num;
  efficiencyFactor : num
}.
Arguments gasCostPerMile {num}.
Arguments electricCostPerMile {num}.
Arguments savingsPerMile {num}.
Arguments percentSavings {num}.
Arguments efficiencyFactor {num}.
End ComparisonResults.

Section Memos.

Context {num : Type} `{Arithmetic num}.

Local Open Scope num_scope.

(** Lines 361-365. *)
Definition parsePositiveNumber (value : JSString.t) : option num :=
  let n := Number value in
  if negb (isFinite n) || (n <=? literal 0 0) then None else Some n.

Definition electricityCostNum (s : Signals) : option num :=
  parsePositiveNumber (electricityCost s).

Definition milesPerKwhNum (s : Signals) : option num :=
  parsePositiveNumber (milesPerKwh s).

Definition gasPriceNum (s : Signals) : option num :=
  parsePositiveNumber (gasPrice s).

(** Lines 370-373. *)
Definition gasMpgNum (s : Signals) : option num :=
  match trim (gasMpg s) with
  | [] => None
  | _ => parsePositiveNumber (gasMpg s)
  end.

(** Lines 377-392. *)
Definition evResults (s : Signals) : option (EvResults.t num) :=
  match electricityCostNum s, milesPerKwhNum s, gasPriceNum s with
  | Some Ce, Some Me, Some Cg =>
      let electricCostPerMile := Ce / Me in
      let electricMilesPerDollar := literal 1 0 / electricCostPerMile in
      let evMpgEquivalent := electricMilesPerDollar * Cg in
      Some {| EvResults.evMpgEquivalent := evMpgEquivalent;
              EvResults.electricCostPerMile := electricCostPerMile |}
  | _, _, _ => None
  end.

(** Lines 394-417. *)
Definition comparisonResults (s : Signals) : option (ComparisonResults.t num) :=
  match evResults s, gasMpgNum s with
  | Some base, Some Mg =>
      match gasPriceNum s with
      | None => None
      | Some Cg =>
          let gasCostPerMile := Cg / Mg in
          let electricCostPerMile := EvResults.electricCostPerMile base in
          let savingsPerMile := gasCostPerMile - electricCostPerMile in
          let percentSavings :=
            if literal 0 0 <? gasCostPerMile
            then (savingsPerMile / gasCostPerMile) * literal 100 0
            else literal 0 0 in
          let efficiencyFactor := EvResults.evMpgEquivalent base / Mg in
          Some {| ComparisonResults.gasCostPerMile := gasCostPerMile;
                  ComparisonResults.electricCostPerMile := electricCostPerMile;
                  ComparisonResults.savingsPerMile := savingsPerMile;
                  ComparisonResults.percentSavings := percentSavings;
                  ComparisonResults.efficiencyFactor := efficiencyFactor |}
      end
  | _, _ => None
  end.

Definition isNull {A : Type} (value : option A) : bool :=
  match value with Some _ => false | None => true end.

(** Lines 424-435: whether the message under a field is shown. *)
Definition showElectricityError (s : Signals) : bool :=
  (0 <? List.length (trim (electricityCost s)))%nat && isNull (electricityCostNum s).

Definition showMilesError (s : Signals) : bool :=
  (0 <? List.length (trim (milesPerKwh s)))%nat && isNull (milesPerKwhNum s).

Definition showGasError (s : Signals) : bool :=
  (0 <? List.length (trim (gasPrice s)))%nat && isNull (gasPriceNum s).

Definition showGasMpgError (s : Signals) : bool :=
  (0 <? List.length (trim (gasMpg s)))%nat && isNull (gasMpgNum s).

(** Lines 437-438. *)
Definition ev (s : Signals) : option (EvResults.t num) := evResults s.
Definition cmp (s : Signals) : option (ComparisonResults.t num) := comparisonResults s.

End Memos.

(** Lines 556-558: the text of the live button. *)
Definition liveMpgText (NumberToString : float -> JSString.t) (s : Signals)
  : option JSString.t :=
  match evResults (num := float) s with
  | Some r =>
      if AppDisplay.ToBoolean (EvResults.evMpgEquivalent r)
      then AppDisplay.formatNumber NumberToString (EvResults.evMpgEquivalent r) (Some 1%N)
      else Some (lit "?")
  | None => Some (lit "?")
  end.

End AppUS.

(** ** Occurrences of a text inside another *)

Section Occurrences.

Variable A : Type.
Implicit Types w s x y a b : list A.

Definition occurs w s : Prop := exists x y, s = x ++ w ++ y.

(** Where an occurrence of [w] lies when the text is cut in two: left of
    the cut, right of it, or across it. *)
Lemma occurrence_cut x w y a b :
  x ++ w ++ y = a ++ b ->
  (exists a', a = x ++ w ++ a' /\ y = a' ++ b)
  \/ (exists b', x = a ++ b' /\ b = b' ++ w ++ y)
  \/ (exists w1 w2, w = w1 ++ w2 /\ w1 <> [] /\ w2 <> []
                    /\ a = x ++ w1 /\ b = w2 ++ y).
Proof.
  intro E. apply app_eq_app in E. destruct E as [l [[E1 E2] | [E1 E2]]].
  - (* the cut falls before the start of [w] *)
    right. left. now exists l.
  - (* the cut falls at or after the start of [w] *)
    apply app_eq_app in E2. destruct E2 as [l' [[E3 E4] | [E3 E4]]].
    + destruct l as [|c l].
      * right. left. exists []. simpl in *. subst.
        now rewrite !app_nil_r.
      * destruct l' as [|c' l'].
        -- left. exists []. rewrite app_nil_r in E3. simpl in E4.
           subst. now rewrite app_nil_r.
        -- right. right. exists (c :: l), (c' :: l').
           repeat split; try discriminate; assumption.
    + (* [l = w ++ l']: [w] ends before the cut *)
      left. exists l'. subst. now split.
Qed.

Lemma occurs_app_l w s x : occurs w s -> occurs w (x ++ s).
Proof.
  intros (u & v & ->). exists (x ++ u), v. now rewrite <- app_assoc.
Qed.

Lemma occurs_app_r w s y : occurs w s -> occurs w (s ++ y).
Proof.
  intros (u & v & ->). exists u, (v ++ y). now rewrite <- !app_assoc.
Qed.

Lemma occurs_middle w a b : occurs w (a ++ w ++ b).
Proof. now exists a, b. Qed.

(** Text inserted right before a unit [c] breaks no occurrence of a [w]
    that does not contain [c]. *)
Lemma occurs_insert_before c w a b ins :
  ~ In c w -> occurs w (a ++ c :: b) -> occurs w (a ++ ins ++ c :: b).
Proof.
  intros Hc (x & y & E). symmetry in E.
  destruct (occurrence_cut _ _ _ _ _ E)
    as [(a' & -> & _) | [(b' & -> & ->) | (w1 & w2 & -> & _ & H2 & _ & E2)]].
  - exists x, (a' ++ ins ++ c :: b). now rewrite <- !app_assoc.
  - exists (a ++ ins ++ b'), y. now rewrite <- !app_assoc.
  - destruct w2 as [|c' w2]; [congruence|].
    injection E2 as -> _. exfalso. apply Hc, in_or_app. right. now left.
Qed.

(** Text inserted right after a unit [c] breaks no occurrence of a [w]
    that does not contain [c]. *)
Lemma occurs_insert_after c w a b ins :
  ~ In c w -> occurs w (a ++ [c] ++ b) -> occurs w (a ++ [c] ++ ins ++ b).
Proof.
  intros Hc (x & y & E). symmetry in E. rewrite (app_assoc a) in E.
  destruct (occurrence_cut _ _ _ _ _ E)
    as [(a' & E1 & _) | [(b' & -> & ->) | (w1 & w2 & -> & H1 & _ & E1 & _)]].
  - exists x, (a' ++ ins ++ b).
    rewrite (app_assoc a), E1. now rewrite <- !app_assoc.
  - exists ((a ++ [c]) ++ ins ++ b'), y. now rewrite <- !app_assoc.
  - exfalso. apply Hc, in_or_app. left.
    destruct (exists_last H1) as (w1' & c' & ->).
    rewrite app_assoc in E1. apply app_inj_tail in E1 as [_ ->].
    apply in_or_app. right. now left.
Qed.

End Occurrences.

Arguments occurs {A} w s.

(** ** The string operations meet their specifications *)

Module JSStringFacts.

Lemma startsWith_iff s p :
  startsWith s p = true <-> exists y, s = p ++ y.
Proof.
  revert s. induction p as [|c p IH]; intros s; simpl.
  - split; [now exists s | reflexivity].
  - destruct s as [|d s]; simpl.
    + split; [discriminate | intros (y & E); discriminate].
    + rewrite andb_true_iff, N.eqb_eq, IH. split.
      * intros (-> & y & ->). now exists y.
      * intros (y & E). injection E as -> ->. split; [reflexivity | now exists y].
Qed.

Lemma includes_iff s w : includes s w = true <-> occurs w s.
Proof.
  induction s as [|d s IH]; simpl; rewrite orb_true_iff, startsWith_iff.
  - split.
    + intros [(y & ->) | H]; [now exists [], y | discriminate].
    + intros (x & y & E). left. destruct x; [now exists y | discriminate].
  - rewrite IH. split.
    + intros [(y & ->) | (x & y & ->)]; [now exists [], y | now exists (d :: x), y].
    + intros (x & y & E). destruct x as [|d' x].
      * left. now exists y.
      * right. injection E as _ ->. now exists x, y.
Qed.

Lemma spanWhiteSpace_app s ws rest :
  spanWhiteSpace s = (ws, rest) ->
  s = ws ++ rest /\ forallb isWhiteSpace ws = true.
Proof.
  revert ws rest. induction s as [|c s IH]; simpl; intros ws rest E.
  - now injection E as <- <-.
  - destruct (isWhiteSpace c) eqn:Hc.
    + destruct (spanWhiteSpace s) as [ws' rest'].
      injection E as <- <-. destruct (IH _ _ eq_refl) as [-> Hws].
      simpl. now rewrite Hc.
    + now injection E as <- <-.
Qed.

Lemma spanWhiteSpace_run ws c after :
  forallb isWhiteSpace ws = true -> isWhiteSpace c = false ->
  spanWhiteSpace (ws ++ c :: after) = (ws, c :: after).
Proof.
  intros Hws Hc. induction ws as [|d ws IH]; simpl in *.
  - now rewrite Hc.
  - apply andb_true_iff in Hws as [-> Hws]. now rewrite IH.
Qed.

(** The texts the regular expression [/(word\s*\{)/] matches. *)
Definition anchor (word m : JSString.t) : Prop :=
  exists ws, forallb isWhiteSpace ws = true /\ m = word ++ ws ++ [LBRACE].

Lemma skipn_prefix (p y : JSString.t) : skipn (List.length p) (p ++ y) = y.
Proof. induction p; simpl; auto. Qed.

Lemma matchAnchorAt_sound word s m after :
  matchAnchorAt word s = Some (m, after) -> s = m ++ after /\ anchor word m.
Proof.
  unfold matchAnchorAt. destruct (startsWith s word) eqn:Hp; [|discriminate].
  apply startsWith_iff in Hp as (y & ->). rewrite skipn_prefix.
  destruct (spanWhiteSpace y) as [ws rest] eqn:Hs.
  apply spanWhiteSpace_app in Hs as [-> Hws].
  destruct rest as [|c rest]; [discriminate|].
  destruct (N.eqb c LBRACE) eqn:Hc; [|discriminate].
  apply N.eqb_eq in Hc as ->. intros E. injection E as <- <-. split.
  - now rewrite <- !app_assoc.
  - now exists ws.
Qed.

Lemma matchAnchorAt_complete word s m after :
  anchor word m -> s = m ++ after -> matchAnchorAt word s = Some (m, after).
Proof.
  intros (ws & Hws & ->) ->. unfold matchAnchorAt.
  rewrite <- !app_assoc.
  replace (startsWith _ word) with true
    by (symmetry; apply startsWith_iff; eauto).
  rewrite skipn_prefix. simpl.
  rewrite spanWhiteSpace_run by (assumption || reflexivity).
  reflexivity.
Qed.

Lemma searchAnchor_sound word s before m after :
  searchAnchor word s = Some (before, m, after) ->
  s = before ++ m ++ after /\ anchor word m.
Proof.
  revert before. induction s as [|c s IH]; intros before; simpl.
  - destruct (matchAnchorAt word []) as [[m' a']|] eqn:Hm; [|discriminate].
    intros E. injection E as <- <- <-. simpl. eapply matchAnchorAt_sound; eassumption.
  - destruct (matchAnchorAt word (c :: s)) as [[m' a']|] eqn:Hm.
    + intros E. injection E as <- <- <-. simpl. eapply matchAnchorAt_sound; eassumption.
    + destruct (searchAnchor word s) as [[[b' m'] a']|]; [|discriminate].
      intros E. injection E as <- <- <-.
      destruct (IH _ eq_refl) as [-> Ha]. now split.
Qed.

Lemma searchAnchor_complete word s :
  searchAnchor word s = None ->
  forall before m after, anchor word m -> s <> before ++ m ++ after.
Proof.
  induction s as [|c s IH]; simpl.
  - destruct (matchAnchorAt word []) as [[m' a']|] eqn:Hm; [discriminate|].
    intros _ before m after Ha E. destruct before as [|d before]; [|discriminate].
    simpl in E. rewrite (matchAnchorAt_complete _ _ _ _ Ha E) in Hm. discriminate.
  - destruct (matchAnchorAt word (c :: s)) as [[m' a']|] eqn:Hm; [discriminate|].
    destruct (searchAnchor word s) as [[[b' m'] a']|]; [discriminate|].
    intros _ before m after Ha E. destruct before as [|d before].
    + simpl in E. rewrite (matchAnchorAt_complete _ _ _ _ Ha E) in Hm. discriminate.
    + injection E as _ E. exact (IH eq_refl _ _ _ Ha E).
Qed.

(** The match found is the leftmost one. *)
Lemma searchAnchor_leftmost word s before m after :
  searchAnchor word s = Some (before, m, after) ->
  forall b' m' a', anchor word m' -> s = b' ++ m' ++ a' ->
    (List.length before <= List.length b')%nat.
Proof.
  revert before. induction s as [|c s IH]; intros before; simpl.
  - destruct (matchAnchorAt word []) as [[m1 a1]|]; [|discriminate].
    intros E. injection E as <- <- <-. simpl. lia.
  - destruct (matchAnchorAt word (c :: s)) as [[m1 a1]|] eqn:Hm.
    + intros E. injection E as <- <- <-. simpl. lia.
    + destruct (searchAnchor word s) as [[[b1 m1] a1]|]; [|discriminate].
      intros E. injection E as <- <- <-. intros b' m' a' Ha E.
      destruct b' as [|d b'].
      * simpl in E. rewrite (matchAnchorAt_complete _ _ _ _ Ha E) in Hm. discriminate.
      * injection E as _ E. simpl. specialize (IH _ eq_refl _ _ _ Ha E). lia.
Qed.

End JSStringFacts.

(** ** The Gradle patch: each step, and what it leaves for the next run *)

Module GradleFacts.
Import JSStringFacts Gradle.

Definition importA := lit "import java.io.FileInputStream".
Definition importB := lit "import java.util.Properties".
Definition createRelease := lit "create('release')".
Definition keystoreProperties := lit "keystore.properties".
Definition signingLine := lit "signingConfig = signingConfigs.getByName('release')".
Definition buildTypes := lit "buildTypes".
Definition getByName := lit "getByName('release')".

Definition step1 (x : JSString.t) := fst (addImports x).
Definition step2 (x : JSString.t) := fst (addSigningConfig x).
Definition step3 (x : JSString.t) := fst (applyReleaseConfig x).

Lemma transform_steps x : transform x = step3 (step2 (step1 x)).
Proof.
  unfold transform, patch, step1, step2, step3.
  destruct (addImports x) as [c1 m1]. simpl.
  destruct (addSigningConfig c1) as [c2 m2]. simpl.
  now destruct (applyReleaseConfig c2) as [c3 m3].
Qed.

Lemma absent_not_In (c : JSString.char) w :
  existsb (N.eqb c) w = false -> ~ In c w.
Proof.
  intros H Hin. assert (existsb (N.eqb c) w = true) as H'
    by (apply existsb_exists; exists c; split; [assumption | apply N.eqb_refl]).
  congruence.
Qed.

(** *** Anchors *)

Lemma anchor_head word m c word' :
  anchor word m -> word = c :: word' -> exists m', m = c :: m'.
Proof. intros (ws & _ & ->) ->. simpl. eauto. Qed.

Lemma anchor_last word m : anchor word m -> exists m', m = m' ++ [LBRACE].
Proof. intros (ws & _ & ->). exists (word ++ ws). now rewrite <- app_assoc. Qed.

Lemma anchor_units word m c :
  anchor word m -> In c m -> In c word \/ isWhiteSpace c = true \/ c = LBRACE.
Proof.
  intros (ws & Hws & ->) Hin.
  apply in_app_or in Hin as [H | H]; [now left|].
  apply in_app_or in H as [H | [<- | []]]; [|now right; right].
  right. left. rewrite forallb_forall in Hws. now apply Hws.
Qed.

Lemma anchor_prefix_head word m c word' w1 w2 :
  anchor word m -> word = c :: word' -> m = w1 ++ w2 -> w1 <> [] -> In c w1.
Proof.
  intros Ha Hw E Hne. destruct (anchor_head _ _ _ _ Ha Hw) as (m' & ->).
  destruct w1 as [|d w1]; [congruence|]. injection E as -> _. now left.
Qed.

Lemma anchor_suffix_last word m w1 w2 :
  anchor word m -> m = w1 ++ w2 -> w2 <> [] -> In LBRACE w2.
Proof.
  intros Ha E Hne. destruct (anchor_last _ _ Ha) as (m' & ->).
  destruct (exists_last Hne) as (w2' & d & ->).
  rewrite app_assoc in E. apply app_inj_tail in E as [_ ->].
  apply in_or_app. right. now left.
Qed.

Definition noAnchor (word s : JSString.t) : Prop :=
  forall before m after, anchor word m -> s <> before ++ m ++ after.

Lemma searchAnchor_None_iff word s :
  searchAnchor word s = None <-> noAnchor word s.
Proof.
  split; [exact (searchAnchor_complete word s)|].
  intros H. destruct (searchAnchor word s) as [[[b m] a]|] eqn:E; [|reflexivity].
  apply searchAnchor_sound in E as [E Ha]. now apply H in E.
Qed.

(** Inserted text creates no new match when it has no brace, does not
    have the first unit of the word, and has some unit that no match
    can contain. *)
Lemma noAnchor_insert word c0 word' cx a b ins :
  word = c0 :: word' ->
  ~ In LBRACE ins -> ~ In c0 ins ->
  In cx ins -> ~ In cx word -> isWhiteSpace cx = false -> cx <> LBRACE ->
  noAnchor word (a ++ b) -> noAnchor word (a ++ ins ++ b).
Proof.
  intros Hw Hbrace Hc0 Hcx Hcxw Hcxs Hcxb Hno b0 m a0 Ha E. symmetry in E.
  destruct (occurrence_cut _ _ _ _ _ _ E)
    as [(a' & -> & _) | [(b' & -> & E') | (w1 & w2 & Em & H1 & H2 & -> & E')]].
  - apply (Hno b0 m (a' ++ b) Ha). now rewrite <- !app_assoc.
  - symmetry in E'.
    destruct (occurrence_cut _ _ _ _ _ _ E')
      as [(i' & -> & _) | [(b'' & -> & ->) | (u & v & Em & H1 & _ & -> & _)]].
    + destruct (anchor_last _ _ Ha) as (m' & ->).
      apply Hbrace. apply in_or_app. right. apply in_or_app. left.
      apply in_or_app. right. now left.
    + apply (Hno (a ++ b'') m a0 Ha). now rewrite <- !app_assoc.
    + apply Hc0. apply in_or_app. right.
      exact (anchor_prefix_head _ _ _ _ _ _ Ha Hw Em H1).
  - symmetry in E'. change (w2 ++ a0) with ([] ++ w2 ++ a0) in E'.
    destruct (occurrence_cut _ _ _ _ _ _ E')
      as [(i' & -> & _) | [(b'' & Ei & _) | (u & v & Ew & _ & _ & Ei & _)]].
    + apply Hbrace. simpl. apply in_or_app. left.
      exact (anchor_suffix_last _ _ _ _ Ha Em H2).
    + symmetry in Ei. apply app_eq_nil in Ei as [-> _]. destruct Hcx.
    + simpl in Ei. subst ins w2 m.
      assert (In cx (w1 ++ u ++ v)) as Hin
        by (apply in_or_app; right; apply in_or_app; now left).
      destruct (anchor_units _ _ _ Ha Hin) as [H | [H | H]];
        [now apply Hcxw | congruence | now apply Hcxb].
Qed.

(** *** Step 2.1 *)

Definition importsPresent (x : JSString.t) : Prop :=
  includes x importA = true /\ includes x importB = true.

Lemma importsString_eq x :
  importsString x =
  (if includes x importA then [] else importA ++ NL)
  ++ (if includes x importB then [] else importB ++ NL).
Proof.
  unfold importsString, IMPORTS_TO_ADD. simpl fold_left.
  fold importA importB.
  destruct (includes x importA), (includes x importB); simpl;
    now rewrite ?app_nil_r.
Qed.

Lemma step1_fixed x : importsPresent x -> step1 x = x.
Proof.
  intros [Ha Hb]. unfold step1, addImports.
  now rewrite importsString_eq, Ha, Hb.
Qed.

Lemma step1_prepends x : step1 x = importsString x ++ x.
Proof.
  unfold step1, addImports.
  destruct (importsString x) as [|c l]; reflexivity.
Qed.

Lemma step1_importsPresent x : importsPresent (step1 x).
Proof.
  rewrite step1_prepends, importsString_eq. unfold importsPresent.
  rewrite !includes_iff. split.
  - destruct (includes x importA) eqn:Ha.
    + apply includes_iff in Ha. now apply occurs_app_l.
    + apply occurs_app_r, occurs_app_r. exists [], NL. reflexivity.
  - destruct (includes x importB) eqn:Hb.
    + apply includes_iff in Hb. now apply occurs_app_l.
    + apply occurs_app_r, occurs_app_l. exists [], NL. reflexivity.
Qed.

(** *** Step 2.2 *)

Definition blockPresent (x : JSString.t) : Prop :=
  includes x createRelease = true /\ includes x keystoreProperties = true.

Definition insertedBlock (m : JSString.t) : JSString.t :=
  SIGNING_CONFIG_BLOCK ++ NL ++ lit "    " ++ m.

Lemma step2_cases x :
  (step2 x = x /\ (blockPresent x \/ noAnchor buildTypes x))
  \/ (exists before m after,
        anchor buildTypes m /\ x = before ++ m ++ after
        /\ ~ blockPresent x
        /\ step2 x = before ++ insertedBlock m ++ after).
Proof.
  unfold step2, addSigningConfig. fold createRelease keystoreProperties buildTypes.
  destruct (negb (includes x createRelease) || negb (includes x keystoreProperties))
    eqn:Hc.
  - destruct (searchAnchor buildTypes x) as [[[b m] a]|] eqn:Hs.
    + right. exists b, m, a. apply searchAnchor_sound in Hs as [-> Ha].
      repeat split; try assumption.
      intros [H1 H2]. rewrite H1, H2 in Hc. discriminate.
    + left. split; [reflexivity|]. right. now apply searchAnchor_None_iff.
  - left. split; [reflexivity|]. left.
    apply orb_false_iff in Hc as [H1 H2].
    apply negb_false_iff in H1, H2. now split.
Qed.

Lemma step2_fixed x : blockPresent x \/ noAnchor buildTypes x -> step2 x = x.
Proof.
  intros H. destruct (step2_cases x) as [[E _] | (b & m & a & Ha & E & Hn & _)];
    [assumption|].
  destruct H as [H | H]; [contradiction | now apply H in E].
Qed.

Lemma block_has_createRelease : occurs createRelease SIGNING_CONFIG_BLOCK.
Proof. apply includes_iff. vm_compute. reflexivity. Qed.

Lemma block_has_keystoreProperties : occurs keystoreProperties SIGNING_CONFIG_BLOCK.
Proof. apply includes_iff. vm_compute. reflexivity. Qed.

Lemma step2_result x : blockPresent (step2 x) \/ noAnchor buildTypes (step2 x).
Proof.
  destruct (step2_cases x) as [[-> H] | (b & m & a & _ & _ & _ & ->)];
    [assumption|].
  left. unfold blockPresent, insertedBlock. rewrite !includes_iff. split.
  - apply occurs_app_l, occurs_app_r, occurs_app_r. exact block_has_createRelease.
  - apply occurs_app_l, occurs_app_r, occurs_app_r. exact block_has_keystoreProperties.
Qed.

(** *** Step 2.3 *)

Definition insertedLine (m : JSString.t) : JSString.t :=
  m ++ NL ++ RELEASE_CONFIG_LINE.

Lemma step3_cases x :
  (step3 x = x
   /\ (includes x signingLine = true \/ noAnchor getByName x))
  \/ (exists before m after,
        anchor getByName m /\ x = before ++ m ++ after
        /\ includes x signingLine = false
        /\ step3 x = before ++ insertedLine m ++ after).
Proof.
  unfold step3, applyReleaseConfig. fold signingLine getByName.
  destruct (includes x signingLine) eqn:Hc; simpl.
  - left. split; [reflexivity | now left].
  - destruct (searchAnchor getByName x) as [[[b m] a]|] eqn:Hs.
    + right. exists b, m, a. apply searchAnchor_sound in Hs as [-> Ha].
      now repeat split.
    + left. split; [reflexivity|]. right. now apply searchAnchor_None_iff.
Qed.

Lemma line_has_signingLine : occurs signingLine RELEASE_CONFIG_LINE.
Proof. apply includes_iff. vm_compute. reflexivity. Qed.

Lemma step3_fixed x :
  includes x signingLine = true \/ noAnchor getByName x -> step3 x = x.
Proof.
  intros H. destruct (step3_cases x) as [[E _] | (b & m & a & Ha & E & Hn & _)];
    [assumption|].
  destruct H as [H | H]; [congruence | now apply H in E].
Qed.

Lemma step3_result x :
  includes (step3 x) signingLine = true \/ noAnchor getByName (step3 x).
Proof.
  destruct (step3_cases x) as [[-> H] | (b & m & a & _ & _ & _ & ->)];
    [assumption|].
  left. apply includes_iff. unfold insertedLine.
  apply occurs_app_l, occurs_app_r, occurs_app_l, occurs_app_l.
  exact line_has_signingLine.
Qed.

(** *** What a later step leaves of an earlier step's result *)

(** In [before ++ m ++ after] with [m] a match of [word\s*\{], the text
    right after the match stands right after a brace. *)
Lemma insert_after_anchor word m before after ins w :
  anchor word m -> ~ In LBRACE w ->
  occurs w (before ++ m ++ after) ->
  occurs w (before ++ (m ++ ins) ++ after).
Proof.
  intros Ha Hw H. destruct (anchor_last _ _ Ha) as (m' & ->).
  rewrite <- !app_assoc in *. rewrite app_assoc in *.
  now apply occurs_insert_after.
Qed.

Lemma insert_before_anchor word c word' m before after ins w :
  anchor word m -> word = c :: word' -> ~ In c w ->
  occurs w (before ++ m ++ after) ->
  occurs w (before ++ (ins ++ m) ++ after).
Proof.
  intros Ha Hword Hw H. destruct (anchor_head _ _ _ _ Ha Hword) as (m' & ->).
  rewrite <- !app_assoc. simpl in *. now apply occurs_insert_before.
Qed.

Lemma step2_keeps_imports x : importsPresent x -> importsPresent (step2 x).
Proof.
  intros [Ha Hb].
  destruct (step2_cases x) as [[-> _] | (b & m & a & Hm & -> & _ & ->)];
    [now split|].
  unfold importsPresent, insertedBlock in *. rewrite !includes_iff in *.
  rewrite !(app_assoc SIGNING_CONFIG_BLOCK), !(app_assoc (SIGNING_CONFIG_BLOCK ++ NL)).
  split; eapply insert_before_anchor; try eassumption; try reflexivity;
    apply absent_not_In; vm_compute; reflexivity.
Qed.

Lemma step3_keeps_imports x : importsPresent x -> importsPresent (step3 x).
Proof.
  intros [Ha Hb].
  destruct (step3_cases x) as [[-> _] | (b & m & a & Hm & -> & _ & ->)];
    [now split|].
  unfold importsPresent, insertedLine in *. rewrite !includes_iff in *.
  split; eapply insert_after_anchor; try eassumption;
    apply absent_not_In; vm_compute; reflexivity.
Qed.

Lemma step3_keeps_step2 x :
  blockPresent x \/ noAnchor buildTypes x ->
  blockPresent (step3 x) \/ noAnchor buildTypes (step3 x).
Proof.
  intros H.
  destruct (step3_cases x) as [[-> _] | (b & m & a & Hm & -> & _ & ->)];
    [assumption|].
  destruct H as [[H1 H2] | H].
  - left. unfold blockPresent, insertedLine in *. rewrite !includes_iff in *.
    split; eapply insert_after_anchor; try eassumption;
      apply absent_not_In; vm_compute; reflexivity.
  - right. unfold insertedLine.
    replace (b ++ (m ++ NL ++ RELEASE_CONFIG_LINE) ++ a)
      with ((b ++ m) ++ (NL ++ RELEASE_CONFIG_LINE) ++ a)
      by now rewrite <- !app_assoc.
    eapply (noAnchor_insert buildTypes _ _ 41%N).
    + reflexivity.
    + apply absent_not_In. vm_compute. reflexivity.
    + apply absent_not_In. vm_compute. reflexivity.
    + vm_compute. tauto.
    + apply absent_not_In. vm_compute. reflexivity.
    + reflexivity.
    + discriminate.
    + now rewrite <- app_assoc.
Qed.

Theorem transform_fixed x :
  importsPresent x ->
  blockPresent x \/ noAnchor buildTypes x ->
  includes x signingLine = true \/ noAnchor getByName x ->
  transform x = x.
Proof.
  intros H1 H2 H3.
  now rewrite transform_steps, step1_fixed, step2_fixed, step3_fixed.
Qed.

End GradleFacts.

(** ** The Gradle patcher: idempotence and failure modes *)

Module GradleTheorems.
Import JSStringFacts Gradle GradleFacts.

Lemma copyKeystore_gradleFile fs :
  gradleFile (fst (copyKeystore fs)) = gradleFile fs.
Proof.
  unfold copyKeystore.
  destruct (keystoreSource fs); [destruct (copyError fs)|]; reflexivity.
Qed.

Lemma eqString_iff a b : JSString.eqb a b = true <-> a = b.
Proof.
  revert b. induction a as [|c a IH]; intros [|d b]; simpl;
    try (split; (reflexivity || discriminate)).
  rewrite andb_true_iff, N.eqb_eq, IH. split; [intros [-> ->] | intros E];
    [reflexivity | now injection E].
Qed.

(** The Gradle file after a run holds the patched text: written when it
    differs from what was read, left alone (and already equal) when not. *)
Lemma main_gradleFile fs :
  gradleFile (files (main fs)) = option_map transform (gradleFile fs).
Proof.
  unfold main, transform.
  destruct (gradleFile fs) as [c|] eqn:Hg; simpl; [|assumption].
  pose proof (copyKeystore_gradleFile fs) as Hk.
  destruct (copyKeystore fs) as [fs1 out1]. simpl in Hk.
  destruct (patch c) as [c' out2]. simpl.
  destruct (JSString.eqb c' c) eqn:He; simpl; [|reflexivity].
  apply eqString_iff in He. congruence.
Qed.

(** One run on [sampleGradle]: both imports, the block before
    [buildTypes {] and the line after [getByName("release") {]. *)
Example transform_sampleGradle :
  transform sampleGradle
  = lit "import java.io.FileInputStream
import java.util.Properties
android {
    " ++ SIGNING_CONFIG_BLOCK ++ lit "
    buildTypes {
        getByName('release') {
" ++ RELEASE_CONFIG_LINE ++ lit "
            isMinifyEnabled = true
        }
    }
}".
Proof. vm_compute. reflexivity. Qed.

Lemma transform_transform content :
  transform (transform content) = transform content.
Proof.
  apply transform_fixed; rewrite transform_steps.
  - apply step3_keeps_imports, step2_keeps_imports, step1_importsPresent.
  - apply step3_keeps_step2, step2_result.
  - apply step3_result.
Qed.

(** C7.  The Gradle-patch transform is idempotent: for every content of
    the Gradle file, patching the patched text changes nothing, so no
    import, block or line is added twice; and for every state of the
    files, the Gradle file after two runs of the script is the Gradle
    file after one. *)
Theorem gradle_patch_idempotent :
  forall (content : JSString.t) (fs : FileSystem),
    transform (transform content) = transform content
    /\ gradleFile (files (main (files (main fs))))
       = gradleFile (files (main fs)).
Proof.
  intros content fs. split; [apply transform_transform|].
  rewrite !main_gradleFile.
  destruct (gradleFile fs); simpl; [|reflexivity].
  now rewrite transform_transform.
Qed.

Lemma patch_console c :
  snd (patch c) =
  snd (addImports c) ++ snd (addSigningConfig (step1 c))
  ++ snd (applyReleaseConfig (step2 (step1 c))).
Proof.
  unfold patch, step1, step2.
  destruct (addImports c) as [c1 m1]. simpl.
  destruct (addSigningConfig c1) as [c2 m2]. simpl.
  now destruct (applyReleaseConfig c2) as [c3 m3].
Qed.

Lemma main_output fs c :
  gradleFile fs = Some c ->
  output (main fs) =
  snd (copyKeystore fs) ++ [(Log, ReadingGradle)] ++ snd (patch c)
  ++ [(Log, if JSString.eqb (transform c) c then GradleUpToDate else GradleUpdated)].
Proof.
  intros Hg. unfold main, transform. rewrite Hg.
  destruct (copyKeystore fs) as [fs1 out1].
  destruct (patch c) as [c' out2]. simpl.
  now destruct (JSString.eqb c' c).
Qed.


Lemma main_keystoreDest fs c :
  gradleFile fs = Some c ->
  keystoreDest (files (main fs)) = keystoreDest (fst (copyKeystore fs)).
Proof.
  intros Hg. unfold main. rewrite Hg.
  destruct (copyKeystore fs) as [fs1 out1].
  destruct (patch c) as [c' out2]. simpl.
  now destruct (negb (JSString.eqb c' c)).
Qed.



Definition patchMessages : console :=
  [ (Log, ImportsAdded); (Log, ImportsPresent); (Log, SigningBlockAdded);
    (Error, BuildTypesNotFound); (Log, SigningBlockPresent);
    (Log, ReleaseConfigApplied); (Error, ReleaseBlockNotFound);
    (Log, ReleaseConfigPresent) ].

Lemma patch_messages c m : In m (snd (patch c)) -> In m patchMessages.
Proof.
  rewrite patch_console. intros H.
  apply in_app_or in H as [H | H]; [|apply in_app_or in H as [H | H]].
  - unfold addImports in H.
    destruct (0 <? List.length (importsString c))%nat;
      destruct H as [<- | []]; simpl; tauto.
  - unfold addSigningConfig in H.
    destruct (_ || _); [destruct (searchAnchor _ _) as [[[? ?] ?]|]|];
      destruct H as [<- | []]; simpl; tauto.
  - unfold applyReleaseConfig in H.
    destruct (negb _); [destruct (searchAnchor _ _) as [[[? ?] ?]|]|];
      destruct H as [<- | []]; simpl; tauto.
Qed.

Lemma not_patch_message c m :
  existsb (fun m' => if message_eq_dec (snd m) (snd m') then true else false)
    patchMessages = false ->
  ~ In m (snd (patch c)).
Proof.
  intros H Hin. apply patch_messages in Hin.
  assert (existsb (fun m' => if message_eq_dec (snd m) (snd m') then true else false)
            patchMessages = true) as H'.
  { apply existsb_exists. exists m. split; [assumption|].
    now destruct (message_eq_dec (snd m) (snd m)). }
  congruence.
Qed.



End GradleTheorems.
(** ** Inserting a text: which occurrences and matches it can create *)

Module Insertion.
Import JSStringFacts Gradle GradleFacts GradleTheorems.

Definition endsWith (s p : JSString.t) : bool := startsWith (rev s) (rev p).

(** [regex.test(s)] for the regular expression [/(word\s*\{)/]. *)
Definition hasMatch (word s : JSString.t) : bool :=
  match searchAnchor word s with Some _ => true | None => false end.

(** A proper end of [w] opens [ins]; a proper start of [w] closes
    [ins]. *)
Definition meetsHead (ins w : JSString.t) : bool :=
  existsb (fun k => startsWith ins (skipn k w)) (seq 1 (List.length w - 1)).

Definition meetsTail (ins w : JSString.t) : bool :=
  existsb (fun k => endsWith ins (firstn k w)) (seq 1 (List.length w - 1)).

(** No occurrence of [w] can touch an inserted [ins]. *)
Definition foreign (ins w : JSString.t) : bool :=
  negb (includes ins w || includes w ins || meetsHead ins w || meetsTail ins w).

(** No match of [/(word\s*\{)/] can touch an inserted [ins], where [cx]
    is a unit of [ins] that no match contains. *)
Definition foreignToAnchor (ins word : JSString.t) (cx : JSString.char) : bool :=
  negb (hasMatch word ins) && negb (includes ins word) && negb (meetsTail ins word)
  && forallb (fun k => match matchAnchorAt (skipn k word) ins with
                       | None => true
                       | Some _ => false
                       end) (seq 0 (S (List.length word)))
  && existsb (N.eqb cx) ins && negb (existsb (N.eqb cx) word)
  && negb (isWhiteSpace cx) && negb (N.eqb cx LBRACE).

Definition hasAnchor (word s : JSString.t) : Prop :=
  exists before m after, anchor word m /\ s = before ++ m ++ after.

Lemma endsWith_iff s p : endsWith s p = true <-> exists x, s = x ++ p.
Proof.
  unfold endsWith. rewrite startsWith_iff. split.
  - intros (y & E). exists (rev y).
    rewrite <- (rev_involutive s), E, rev_app_distr, rev_involutive. reflexivity.
  - intros (x & ->). exists (rev x). apply rev_app_distr.
Qed.

Lemma hasMatch_iff word s : hasMatch word s = true <-> hasAnchor word s.
Proof.
  unfold hasMatch. split.
  - destruct (searchAnchor word s) as [[[b m] a]|] eqn:E; [|discriminate].
    intros _. apply searchAnchor_sound in E as [-> Ha]. now exists b, m, a.
  - intros (b & m & a & Ha & E).
    destruct (searchAnchor word s) as [[[b' m'] a']|] eqn:Hs; [reflexivity|].
    apply searchAnchor_None_iff in Hs. now apply Hs in E.
Qed.

Lemma hasMatch_false_iff word s : hasMatch word s = false <-> noAnchor word s.
Proof.
  rewrite <- searchAnchor_None_iff. unfold hasMatch.
  destruct (searchAnchor word s); split; congruence.
Qed.

Lemma split_length (w w1 w2 : JSString.t) :
  w = w1 ++ w2 -> w1 <> [] -> w2 <> [] ->
  In (List.length w1) (seq 1 (List.length w - 1))
  /\ firstn (List.length w1) w = w1 /\ skipn (List.length w1) w = w2.
Proof.
  intros -> H1 H2. rewrite in_seq, length_app. split.
  - destruct w1; [congruence|]. destruct w2; [congruence|]. simpl. lia.
  - split.
    + rewrite firstn_app, Nat.sub_diag, firstn_all. simpl. apply app_nil_r.
    + rewrite skipn_app, Nat.sub_diag, skipn_all. reflexivity.
Qed.

Lemma meetsHead_intro ins w w1 w2 l :
  w = w1 ++ w2 -> w1 <> [] -> w2 <> [] -> ins = w2 ++ l -> meetsHead ins w = true.
Proof.
  intros Hw H1 H2 ->. destruct (split_length _ _ _ Hw H1 H2) as (Hin & _ & Hs).
  apply existsb_exists. exists (List.length w1). split; [assumption|].
  rewrite Hs. apply startsWith_iff. now exists l.
Qed.

Lemma meetsTail_intro ins w w1 w2 l :
  w = w1 ++ w2 -> w1 <> [] -> w2 <> [] -> ins = l ++ w1 -> meetsTail ins w = true.
Proof.
  intros Hw H1 H2 ->. destruct (split_length _ _ _ Hw H1 H2) as (Hin & Hf & _).
  apply existsb_exists. exists (List.length w1). split; [assumption|].
  rewrite Hf. apply endsWith_iff. now exists l.
Qed.

(** An occurrence of [w] in a text with [ins] inserted was there
    before the insertion. *)
Lemma occurs_insert_inv ins w a b :
  foreign ins w = true -> occurs w (a ++ ins ++ b) -> occurs w (a ++ b).
Proof.
  unfold foreign. rewrite negb_true_iff, !orb_false_iff.
  intros (((Hi & Hc) & Hh) & Ht) (x & y & E). symmetry in E.
  destruct (occurrence_cut _ _ _ _ _ _ E)
    as [(a' & -> & _) | [(b' & -> & E') | (w1 & w2 & Ew & H1 & H2 & -> & E')]].
  - exists x, (a' ++ b). now rewrite <- !app_assoc.
  - symmetry in E'.
    destruct (occurrence_cut _ _ _ _ _ _ E')
      as [(i' & Ei & _) | [(b'' & -> & ->) | (u & v & Eu & Hu & Hv & Ei & _)]].
    + assert (includes ins w = true) as H
        by (apply includes_iff; now exists b', i').
      congruence.
    + exists (a ++ b''), y. now rewrite <- !app_assoc.
    + rewrite (meetsTail_intro _ _ _ _ _ Eu Hu Hv Ei) in Ht. discriminate.
  - apply app_eq_app in E'. destruct E' as [l [[Ei _] | [Ei _]]].
    + rewrite (meetsHead_intro _ _ _ _ _ Ew H1 H2 Ei) in Hh. discriminate.
    + assert (includes w ins = true) as H.
      { apply includes_iff. exists w1, l. now rewrite Ew, Ei. }
      congruence.
Qed.

Lemma includes_insert_inv ins w a b :
  foreign ins w = true ->
  includes (a ++ ins ++ b) w = true -> includes (a ++ b) w = true.
Proof. rewrite !includes_iff. apply occurs_insert_inv. Qed.

(** A match of [/(word\s*\{)/] in a text with [ins] inserted was there
    before the insertion. *)
Lemma hasAnchor_insert_inv ins word cx a b :
  foreignToAnchor ins word cx = true ->
  hasAnchor word (a ++ ins ++ b) -> hasAnchor word (a ++ b).
Proof.
  unfold foreignToAnchor. rewrite !andb_true_iff, !negb_true_iff.
  intros (((((((Hm & Hi) & Ht) & Hh) & Hcx) & Hcxw) & Hcxs) & Hcxb).
  apply existsb_exists in Hcx as (cx' & Hcx & Hq). apply N.eqb_eq in Hq as <-.
  apply absent_not_In in Hcxw. apply N.eqb_neq in Hcxb.
  intros (x & m & y & Ha & E). symmetry in E.
  assert (forall l1 l2, m <> l1 ++ ins ++ l2) as Hcover.
  { intros l1 l2 ->.
    assert (In cx (l1 ++ ins ++ l2)) as Hin
      by (apply in_or_app; right; apply in_or_app; now left).
    destruct (anchor_units _ _ _ Ha Hin) as [H | [H | H]];
      [now apply Hcxw | congruence | now apply Hcxb]. }
  destruct (occurrence_cut _ _ _ _ _ _ E)
    as [(a' & -> & _) | [(b' & -> & E') | (w1 & w2 & Ew & H1 & H2 & -> & E')]].
  - exists x, m, (a' ++ b). split; [assumption | now rewrite <- !app_assoc].
  - symmetry in E'.
    destruct (occurrence_cut _ _ _ _ _ _ E')
      as [(i' & Ei & _) | [(b'' & -> & ->) | (u & v & Eu & Hu & Hv & Ei & _)]].
    + assert (hasMatch word ins = true) as H
        by (apply hasMatch_iff; now exists b', m, i').
      congruence.
    + exists (a ++ b''), m, y. split; [assumption | now rewrite <- !app_assoc].
    + (* the match starts inside [ins] and ends after it *)
      destruct Ha as (ws & Hws & Em). rewrite Em in Eu.
      apply app_eq_app in Eu. destruct Eu as [l [[Eu _] | [Eu _]]].
      * destruct l as [|d l].
        -- rewrite app_nil_r in Eu. subst u.
           assert (includes ins word = true) as H.
           { apply includes_iff. exists b', []. now rewrite Ei, app_nil_r. }
           congruence.
        -- assert (d :: l <> []) as Hl by discriminate.
           rewrite (meetsTail_intro _ _ _ _ _ Eu Hu Hl Ei) in Ht. discriminate.
      * assert (includes ins word = true) as H.
        { apply includes_iff. exists b', l. now rewrite Ei, Eu. }
        congruence.
  - apply app_eq_app in E'. destruct E' as [l [[Ei _] | [Ei _]]].
    + (* the match starts before [ins] and ends inside it *)
      exfalso. destruct Ha as (ws & Hws & Em). rewrite Em in Ew.
      assert (exists k ws', In k (seq 0 (S (List.length word)))
                            /\ forallb isWhiteSpace ws' = true
                            /\ w2 = skipn k word ++ ws' ++ [LBRACE])
        as (k & ws' & Hk & Hws' & E2).
      { apply app_eq_app in Ew. destruct Ew as [l' [[Ew1 Ew2] | [Ew1 Ew2]]].
        - exists (List.length w1), ws. split.
          + apply in_seq. rewrite Ew1, length_app. lia.
          + split; [assumption|].
            rewrite Ew1, skipn_app, Nat.sub_diag, skipn_all. now rewrite Ew2.
        - (* [w1] covers the word *)
          exists (List.length word).
          destruct (exists_last H2) as (w2' & d & ->).
          rewrite app_assoc in Ew2. apply app_inj_tail in Ew2 as [-> ->].
          exists w2'. rewrite skipn_all. split.
          + apply in_seq. lia.
          + split; [|reflexivity].
            rewrite forallb_app in Hws. now apply andb_true_iff in Hws. }
      rewrite forallb_forall in Hh. specialize (Hh k Hk).
      rewrite (matchAnchorAt_complete (skipn k word) ins w2 l) in Hh;
        [discriminate | now exists ws' | assumption].
    + exfalso. apply (Hcover w1 l). now rewrite Ew, Ei.
Qed.

(** A match of [/(word\s*\{)/] is still there after an insertion in
    front of a unit that no match contains. *)
Lemma hasAnchor_insert_before word c a b ins :
  ~ In c word -> isWhiteSpace c = false -> c <> LBRACE ->
  hasAnchor word (a ++ c :: b) -> hasAnchor word (a ++ ins ++ c :: b).
Proof.
  intros Hw Hs Hb (x & m & y & Ha & E).
  assert (~ In c m) as Hm.
  { intros Hin. destruct (anchor_units _ _ _ Ha Hin) as [H | [H | H]];
      [now apply Hw | congruence | now apply Hb]. }
  assert (occurs m (a ++ c :: b)) as Ho by now exists x, y.
  destruct (occurs_insert_before _ _ _ _ _ ins Hm Ho) as (x' & y' & E').
  now exists x', m, y'.
Qed.

Lemma hasAnchor_app_l word x s : hasAnchor word s -> hasAnchor word (x ++ s).
Proof.
  intros (b & m & a & Ha & ->). exists (x ++ b), m, a.
  split; [assumption | now rewrite <- app_assoc].
Qed.

End Insertion.

(** ** The Gradle patcher: what a run adds, keeps and reports *)

Module GradleProperties.
Import JSStringFacts Gradle GradleFacts GradleTheorems Insertion.

(** What the three steps print, read off the text the script read. *)
Definition report (content : JSString.t) : console :=
  [ (Log, if forallb (includes content) IMPORTS_TO_ADD
          then ImportsPresent else ImportsAdded);
    (if includes content (lit "create('release')")
        && includes content (lit "keystore.properties")
     then (Log, SigningBlockPresent)
     else if hasMatch (lit "buildTypes") content
          then (Log, SigningBlockAdded)
          else (Error, BuildTypesNotFound));
    (if includes content (lit "signingConfig = signingConfigs.getByName('release')")
     then (Log, ReleaseConfigPresent)
     else if hasMatch (lit "getByName('release')") content
          then (Log, ReleaseConfigApplied)
          else (Error, ReleaseBlockNotFound)) ].

(** The text needs no patch, or cannot take one. *)
Definition settled (content : JSString.t) : bool :=
  forallb (includes content) IMPORTS_TO_ADD
  && ((includes content (lit "create('release')")
       && includes content (lit "keystore.properties"))
      || negb (hasMatch (lit "buildTypes") content))
  && (includes content (lit "signingConfig = signingConfigs.getByName('release')")
      || negb (hasMatch (lit "getByName('release')") content)).

Definition blockInsert : JSString.t := SIGNING_CONFIG_BLOCK ++ NL ++ lit "    ".
Definition lineInsert : JSString.t := NL ++ RELEASE_CONFIG_LINE.

Lemma step2_shape x :
  (step2 x = x /\ (blockPresent x \/ noAnchor buildTypes x))
  \/ (exists before m after,
        anchor buildTypes m /\ x = before ++ m ++ after
        /\ ~ blockPresent x
        /\ step2 x = before ++ blockInsert ++ m ++ after).
Proof.
  destruct (step2_cases x) as [H | (b & m & a & Ha & E & Hn & E2)]; [now left|].
  right. exists b, m, a. repeat split; try assumption.
Qed.

Lemma step3_shape x :
  (step3 x = x /\ (includes x signingLine = true \/ noAnchor getByName x))
  \/ (exists before m after,
        anchor getByName m /\ x = before ++ m ++ after
        /\ includes x signingLine = false
        /\ step3 x = (before ++ m) ++ lineInsert ++ after).
Proof.
  destruct (step3_cases x) as [H | (b & m & a & Ha & E & Hn & E2)]; [now left|].
  right. exists b, m, a. repeat split; try assumption.
  rewrite E2. unfold insertedLine, lineInsert. now rewrite <- !app_assoc.
Qed.

(** *** What the imports, the block and the line can and cannot touch *)

Ltac by_computation := vm_compute; reflexivity.

Lemma includes_eq a b w :
  (occurs w a <-> occurs w b) -> includes a w = includes b w.
Proof.
  intros H. apply eq_iff_eq_true. now rewrite !includes_iff.
Qed.

Lemma hasMatch_eq word a b :
  (hasAnchor word a <-> hasAnchor word b) -> hasMatch word a = hasMatch word b.
Proof.
  intros H. apply eq_iff_eq_true. now rewrite !hasMatch_iff.
Qed.

Lemma imports_cases x :
  importsString x = [] \/ importsString x = importA ++ NL
  \/ importsString x = importB ++ NL
  \/ importsString x = (importA ++ NL) ++ importB ++ NL.
Proof.
  rewrite importsString_eq.
  destruct (includes x importA), (includes x importB); simpl; rewrite ?app_nil_r; tauto.
Qed.

Lemma step1_includes x w :
  foreign (importA ++ NL) w = true -> foreign (importB ++ NL) w = true ->
  foreign ((importA ++ NL) ++ importB ++ NL) w = true ->
  includes (step1 x) w = includes x w.
Proof.
  intros Ha Hb Hab. apply includes_eq. rewrite step1_prepends. split.
  - destruct (imports_cases x) as [-> | [-> | [-> | ->]]]; [trivial| | |];
      now apply (occurs_insert_inv _ w []).
  - apply occurs_app_l.
Qed.

Lemma step1_hasMatch x word cx :
  foreignToAnchor (importA ++ NL) word cx = true ->
  foreignToAnchor (importB ++ NL) word cx = true ->
  foreignToAnchor ((importA ++ NL) ++ importB ++ NL) word cx = true ->
  hasMatch word (step1 x) = hasMatch word x.
Proof.
  intros Ha Hb Hab. apply hasMatch_eq. rewrite step1_prepends. split.
  - destruct (imports_cases x) as [-> | [-> | [-> | ->]]]; [trivial| | |];
      now apply (hasAnchor_insert_inv _ word cx []).
  - apply hasAnchor_app_l.
Qed.

Lemma step1_createRelease x :
  includes (step1 x) createRelease = includes x createRelease.
Proof. apply step1_includes; by_computation. Qed.

Lemma step1_keystoreProperties x :
  includes (step1 x) keystoreProperties = includes x keystoreProperties.
Proof. apply step1_includes; by_computation. Qed.

Lemma step1_signingLine x :
  includes (step1 x) signingLine = includes x signingLine.
Proof. apply step1_includes; by_computation. Qed.

Lemma step1_buildTypes x : hasMatch buildTypes (step1 x) = hasMatch buildTypes x.
Proof. apply (step1_hasMatch x buildTypes 46%N); by_computation. Qed.

Lemma step1_getByName x : hasMatch getByName (step1 x) = hasMatch getByName x.
Proof. apply (step1_hasMatch x getByName 46%N); by_computation. Qed.

Lemma step2_signingLine x :
  includes (step2 x) signingLine = includes x signingLine.
Proof.
  destruct (step2_shape x) as [[-> _] | (b & m & a & Hm & -> & _ & ->)];
    [reflexivity|].
  apply includes_eq. split.
  - apply occurs_insert_inv. by_computation.
  - intros H. rewrite (app_assoc blockInsert).
    eapply insert_before_anchor; try eassumption; try reflexivity.
    apply absent_not_In. by_computation.
Qed.

Lemma step2_getByName x : hasMatch getByName (step2 x) = hasMatch getByName x.
Proof.
  destruct (step2_shape x) as [[-> _] | (b & m & a & Hm & -> & _ & ->)];
    [reflexivity|].
  apply hasMatch_eq. split.
  - apply (hasAnchor_insert_inv _ _ 107%N). by_computation.
  - destruct (anchor_head _ _ _ _ Hm eq_refl) as (m' & ->).
    refine (hasAnchor_insert_before getByName _ b (m' ++ a) blockInsert _ _ _);
      [apply absent_not_In; by_computation | reflexivity | discriminate].
Qed.

(** *** The console of the three steps *)

Lemma addImports_console x :
  snd (addImports x)
  = [(Log, if forallb (includes x) IMPORTS_TO_ADD
           then ImportsPresent else ImportsAdded)].
Proof.
  unfold addImports. rewrite importsString_eq. unfold IMPORTS_TO_ADD.
  fold importA importB. simpl forallb.
  destruct (includes x importA), (includes x importB); reflexivity.
Qed.

Lemma addSigningConfig_console x :
  snd (addSigningConfig x)
  = [if includes x createRelease && includes x keystoreProperties
     then (Log, SigningBlockPresent)
     else if hasMatch buildTypes x then (Log, SigningBlockAdded)
          else (Error, BuildTypesNotFound)].
Proof.
  unfold addSigningConfig, hasMatch. fold createRelease keystoreProperties buildTypes.
  destruct (includes x createRelease), (includes x keystoreProperties); simpl;
    try reflexivity; now destruct (searchAnchor buildTypes x) as [[[? ?] ?]|].
Qed.

Lemma applyReleaseConfig_console x :
  snd (applyReleaseConfig x)
  = [if includes x signingLine then (Log, ReleaseConfigPresent)
     else if hasMatch getByName x then (Log, ReleaseConfigApplied)
          else (Error, ReleaseBlockNotFound)].
Proof.
  unfold applyReleaseConfig, hasMatch. fold signingLine getByName.
  destruct (includes x signingLine); simpl; [reflexivity|].
  now destruct (searchAnchor getByName x) as [[[? ?] ?]|].
Qed.

Lemma patch_console_report content : snd (patch content) = report content.
Proof.
  rewrite patch_console, addImports_console, addSigningConfig_console,
    applyReleaseConfig_console.
  rewrite step2_signingLine, step2_getByName, step1_signingLine, step1_getByName,
    step1_createRelease, step1_keystoreProperties, step1_buildTypes.
  reflexivity.
Qed.

(** [s] is [t] with some units left out. *)
Inductive subsequence {A : Type} : list A -> list A -> Prop :=
| subsequence_nil : subsequence [] []
| subsequence_keep x s t : subsequence s t -> subsequence (x :: s) (x :: t)
| subsequence_skip x s t : subsequence s t -> subsequence s (x :: t).

Lemma subsequence_refl {A} (s : list A) : subsequence s s.
Proof. induction s; now constructor. Qed.

Lemma subsequence_trans {A} (s t u : list A) :
  subsequence s t -> subsequence t u -> subsequence s u.
Proof.
  intros Hst Htu. revert s Hst.
  induction Htu as [|x t u Htu IH|x t u Htu IH]; intros s Hst.
  - assumption.
  - inversion Hst; subst.
    + constructor. now apply IH.
    + apply subsequence_skip. now apply IH.
  - apply subsequence_skip. now apply IH.
Qed.

Lemma subsequence_insert {A} (a ins b : list A) :
  subsequence (a ++ b) (a ++ ins ++ b).
Proof.
  induction a as [|x a IH]; simpl.
  - induction ins as [|y ins IH]; simpl.
    + apply subsequence_refl.
    + now apply subsequence_skip.
  - now constructor.
Qed.

(** A step of the patch leaves the text as it is or inserts into it. *)
Definition inserts (bound : nat) (s t : JSString.t) : Prop :=
  exists a ins b, s = a ++ b /\ t = a ++ ins ++ b /\ (List.length ins <= bound)%nat.

Lemma inserts_subsequence n s t :
  inserts n s t ->
  subsequence s t /\ (List.length s <= List.length t <= List.length s + n)%nat.
Proof.
  intros (a & ins & b & -> & -> & Hn). split; [apply subsequence_insert|].
  rewrite !length_app. lia.
Qed.

Lemma inserts_nothing n s : inserts n s s.
Proof. exists [], [], s. repeat split. simpl. lia. Qed.

Lemma step1_inserts x : inserts 59 x (step1 x).
Proof.
  rewrite step1_prepends, importsString_eq.
  exists [], ((if includes x importA then [] else importA ++ NL)
              ++ (if includes x importB then [] else importB ++ NL)), x.
  split; [reflexivity|]. split; [reflexivity|].
  destruct (includes x importA), (includes x importB); vm_compute; lia.
Qed.

Lemma anchor_length word m ws :
  m = word ++ ws ++ [LBRACE] -> (0 < List.length m)%nat.
Proof. intros ->. rewrite !length_app. simpl. lia. Qed.

Lemma step2_inserts x : inserts 621 x (step2 x).
Proof.
  destruct (step2_cases x) as [[-> _] | (b & m & a & _ & -> & _ & ->)];
    [apply inserts_nothing|].
  exists b, (SIGNING_CONFIG_BLOCK ++ NL ++ lit "    "), (m ++ a).
  split; [reflexivity|]. split.
  - unfold insertedBlock. now rewrite <- !app_assoc.
  - vm_compute. lia.
Qed.

Lemma step3_inserts x : inserts 64 x (step3 x).
Proof.
  destruct (step3_cases x) as [[-> _] | (b & m & a & _ & -> & _ & ->)];
    [apply inserts_nothing|].
  exists (b ++ m), (NL ++ RELEASE_CONFIG_LINE), a.
  split; [now rewrite <- !app_assoc|]. split.
  - unfold insertedLine. now rewrite <- !app_assoc.
  - vm_compute. lia.
Qed.


Lemma step1_keeps_anchor word x : hasAnchor word x -> hasAnchor word (step1 x).
Proof. rewrite step1_prepends. apply hasAnchor_app_l. Qed.

Lemma step2_configures x : hasAnchor buildTypes x -> blockPresent (step2 x).
Proof.
  intros Hx. destruct (step2_result x) as [H | H]; [assumption|].
  exfalso. destruct (step2_shape x) as [[E [Hb | Hn]] | (b & m & a & Hm & _ & _ & E)].
  - rewrite E in H. destruct Hx as (b & m & a & Hm & Ex). now apply H in Ex.
  - destruct Hx as (b & m & a & Hm & Ex). now apply Hn in Ex.
  - apply (H (b ++ blockInsert) m a Hm). rewrite E. now rewrite <- !app_assoc.
Qed.

Lemma step3_configures x :
  hasAnchor getByName x -> includes (step3 x) signingLine = true.
Proof.
  intros Hx. destruct (step3_result x) as [H | H]; [assumption|].
  exfalso. destruct (step3_shape x) as [[E [Hb | Hn]] | (b & m & a & Hm & _ & _ & E)].
  - rewrite E in H. destruct Hx as (b & m & a & Hm & Ex). now apply H in Ex.
  - destruct Hx as (b & m & a & Hm & Ex). now apply Hn in Ex.
  - apply (H b m (lineInsert ++ a) Hm). rewrite E. now rewrite <- !app_assoc.
Qed.

Lemma step3_keeps_block x : blockPresent x -> blockPresent (step3 x).
Proof.
  intros [H1 H2].
  destruct (step3_cases x) as [[-> _] | (b & m & a & Hm & -> & _ & ->)];
    [now split|].
  unfold blockPresent, insertedLine in *. rewrite !includes_iff in *.
  split; eapply insert_after_anchor; try eassumption;
    apply absent_not_In; vm_compute; reflexivity.
Qed.

Lemma transform_configures c :
  hasAnchor buildTypes c -> hasAnchor getByName c ->
  importsPresent (transform c) /\ blockPresent (transform c)
  /\ includes (transform c) signingLine = true.
Proof.
  intros Hb Hg. rewrite transform_steps.
  split; [apply step3_keeps_imports, step2_keeps_imports, step1_importsPresent|].
  split.
  - apply step3_keeps_block, step2_configures, step1_keeps_anchor, Hb.
  - apply step3_configures, hasMatch_iff.
    rewrite step2_getByName, step1_getByName. now apply hasMatch_iff.
Qed.

(** *** When the patch changes nothing *)

Lemma transform_fixed_inv c :
  transform c = c ->
  importsPresent c
  /\ (blockPresent c \/ noAnchor buildTypes c)
  /\ (includes c signingLine = true \/ noAnchor getByName c).
Proof.
  rewrite transform_steps. intros E.
  pose proof (proj2 (inserts_subsequence _ _ _ (step1_inserts c))) as L1.
  pose proof (proj2 (inserts_subsequence _ _ _ (step2_inserts (step1 c)))) as L2.
  pose proof (proj2 (inserts_subsequence _ _ _ (step3_inserts (step2 (step1 c))))) as L3.
  rewrite E in L3.
  assert (step1 c = c) as E1.
  { rewrite step1_prepends in *. rewrite !length_app in *.
    destruct (importsString c) as [|d l]; [reflexivity|]. exfalso. simpl in *. lia. }
  rewrite E1 in *.
  assert (step2 c = c) as E2.
  { destruct (step2_shape c) as [[E2 _] | (b & m & a & _ & Ec & _ & E2)]; [assumption|].
    exfalso. apply (f_equal (@List.length _)) in Ec, E2.
    rewrite !length_app in Ec, E2.
    assert (List.length blockInsert = 621%nat) as Hl by reflexivity.
    pose proof (length_app m a). lia. }
  rewrite E2 in *.
  split; [|split].
  - pose proof (step1_importsPresent c) as H. now rewrite E1 in H.
  - pose proof (step2_result c) as H. now rewrite E2 in H.
  - pose proof (step3_result c) as H. now rewrite E in H.
Qed.

Lemma settled_iff c :
  settled c = true
  <-> importsPresent c
      /\ (blockPresent c \/ noAnchor buildTypes c)
      /\ (includes c signingLine = true \/ noAnchor getByName c).
Proof.
  unfold settled, importsPresent, blockPresent, IMPORTS_TO_ADD.
  fold importA importB createRelease keystoreProperties signingLine buildTypes getByName.
  simpl forallb.
  rewrite !andb_true_iff, !orb_true_iff, !andb_true_iff, !negb_true_iff,
    !hasMatch_false_iff.
  tauto.
Qed.

Lemma transform_settled c : transform c = c <-> settled c = true.
Proof.
  rewrite settled_iff. split; [apply transform_fixed_inv|].
  intros (H1 & H2 & H3). now apply transform_fixed.
Qed.

Lemma transform_is_settled c : settled (transform c) = true.
Proof. apply transform_settled, transform_transform. Qed.

(** *** The second run *)


Lemma main_files fs c :
  gradleFile fs = Some c ->
  files (main fs)
  = {| gradleFile := Some (transform c);
       keystoreSource := keystoreSource (fst (copyKeystore fs));
       keystoreDest := keystoreDest (fst (copyKeystore fs));
       copyError := copyError (fst (copyKeystore fs)) |}.
Proof.
  intros Hg. unfold main, transform. rewrite Hg.
  pose proof (copyKeystore_gradleFile fs) as Hc.
  destruct (copyKeystore fs) as [fs1 out1], (patch c) as [c' out2]. simpl in *.
  destruct (JSString.eqb c' c) eqn:He; simpl; [|reflexivity].
  apply eqString_iff in He. subst c'. destruct fs1; simpl in *. congruence.
Qed.



(** X1.  After the patch, each import of [IMPORTS_TO_ADD] is in the
    text, whatever the text was. *)
Theorem patch_adds_imports :
  forall content : JSString.t,
    forallb (includes (transform content)) IMPORTS_TO_ADD = true.
Proof.
  intros c. rewrite transform_steps.
  destruct (step3_keeps_imports _ (step2_keeps_imports _ (step1_importsPresent c)))
    as [Ha Hb].
  unfold IMPORTS_TO_ADD. fold importA importB. simpl. now rewrite Ha, Hb.
Qed.

(** X2.  The patch only inserts: the text read is what is left of the
    patched text when the inserted units are taken out, in the same
    order; and the patched text is longer by 744 units at most (the two
    imports, the block and the line with their line breaks and
    indentation). *)
Theorem patch_only_inserts :
  forall content : JSString.t,
    subsequence content (transform content)
    /\ (List.length content <= List.length (transform content)
        <= List.length content + 744)%nat.
Proof.
  intros c. rewrite transform_steps.
  destruct (inserts_subsequence _ _ _ (step1_inserts c)) as [S1 L1].
  destruct (inserts_subsequence _ _ _ (step2_inserts (step1 c))) as [S2 L2].
  destruct (inserts_subsequence _ _ _ (step3_inserts (step2 (step1 c)))) as [S3 L3].
  split; [|lia].
  eapply subsequence_trans; [|exact S3].
  eapply subsequence_trans; [exact S1 | exact S2].
Qed.

(** X3.  When the text read has a [buildTypes {] and a
    [getByName("release") {], the patched text has [create("release")],
    [keystore.properties] and the signing line, and the three steps
    print no error. *)
Theorem patch_configures :
  forall content : JSString.t,
    hasMatch (lit "buildTypes") content = true ->
    hasMatch (lit "getByName('release')") content = true ->
    includes (transform content) (lit "create('release')") = true
    /\ includes (transform content) (lit "keystore.properties") = true
    /\ includes (transform content)
                (lit "signingConfig = signingConfigs.getByName('release')") = true
    /\ forall m, In m (snd (patch content)) -> fst m = Log.
Proof.
  intros c Hb Hg.
  destruct (transform_configures c (proj1 (hasMatch_iff _ _) Hb)
              (proj1 (hasMatch_iff _ _) Hg)) as (_ & [H1 H2] & H3).
  split; [exact H1|]. split; [exact H2|]. split; [exact H3|].
  rewrite patch_console_report. unfold report. rewrite Hb, Hg.
  intros m [<- | [<- | [<- | []]]].
  - reflexivity.
  - now destruct (_ && _).
  - now destruct (includes c _).
Qed.

Lemma patch_configures_witness :
  hasMatch (lit "buildTypes") sampleGradle = true
  /\ includes (transform sampleGradle)
              (lit "signingConfig = signingConfigs.getByName('release')") = true
  /\ snd (patch sampleGradle)
     = [(Log, ImportsAdded); (Log, SigningBlockAdded); (Log, ReleaseConfigApplied)].
Proof.
  split; [reflexivity|].
  split; [|reflexivity].
  exact (proj1 (proj2 (proj2 (patch_configures sampleGradle eq_refl eq_refl)))).
Defined.

(** X4.  What the three steps print is read off the text the script
    read, not off what the earlier steps inserted: the imports were
    there or are added; the block is reported present when the text has
    [create("release")] and [keystore.properties], added when it has a
    [buildTypes {], missing its anchor otherwise; the line is reported
    present when the text has it, applied when the text has a
    [getByName("release") {], missing its anchor otherwise.  Each step
    prints what it would print if it ran alone on the text read. *)
Theorem patch_report :
  forall content : JSString.t,
    snd (patch content) = report content
    /\ snd (patch content)
       = snd (addImports content) ++ snd (addSigningConfig content)
         ++ snd (applyReleaseConfig content).
Proof.
  intros content. split; [apply patch_console_report|].
  rewrite patch_console_report, addImports_console, addSigningConfig_console,
    applyReleaseConfig_console.
  reflexivity.
Qed.

(** X5.  The patch leaves a text as it is exactly when the text is
    settled: both imports are there, the block is there or has no
    [buildTypes {] to go before, and the line is there or has no
    [getByName("release") {] to go after.  A patched text is settled. *)
Theorem up_to_date_iff_settled :
  forall content : JSString.t,
    (transform content = content <-> settled content = true)
    /\ settled (transform content) = true.
Proof.
  intros c. split; [apply transform_settled | apply transform_is_settled].
Qed.


Lemma main_keystoreSource fs : keystoreSource (files (main fs)) = keystoreSource fs.
Proof.
  destruct (gradleFile fs) as [c|] eqn:Hg.
  - rewrite (main_files _ _ Hg). cbn [keystoreSource].
    destruct fs as [g [k|] kd [|]]; reflexivity.
  - unfold main. now rewrite Hg.
Qed.

(** X7.  The script never changes [keystore.properties] at the project
    root.  The copy beside the Android project is the root file when the
    Gradle file exists, the root file exists and the copy does not throw;
    otherwise it is left as it was: the script exits before the copy when
    the Gradle file is missing.  [Copied keystore.properties] is printed
    in exactly that case. *)
Theorem keystore_copy :
  forall fs : FileSystem,
    keystoreSource (files (main fs)) = keystoreSource fs
    /\ keystoreDest (files (main fs))
       = match gradleFile fs, keystoreSource fs with
         | Some _, Some k => if copyError fs then keystoreDest fs else Some k
         | _, _ => keystoreDest fs
         end
    /\ (In (Log, KeystoreCopied) (output (main fs))
        <-> gradleFile fs <> None /\ keystoreSource fs <> None
            /\ copyError fs = false).
Proof.
  intros fs. split; [apply main_keystoreSource|].
  destruct (gradleFile fs) as [c|] eqn:Hg.
  - split.
    + rewrite (main_keystoreDest _ _ Hg).
      destruct fs as [g [k|] kd [|]]; reflexivity.
    + rewrite (main_output _ _ Hg).
      assert (~ In (Log, KeystoreCopied)
                ([(Log, ReadingGradle)] ++ snd (patch c)
                 ++ [(Log, if JSString.eqb (transform c) c
                           then GradleUpToDate else GradleUpdated)])) as Hrest.
      { intros H. apply in_app_or in H as [[H | []] | H]; [discriminate|].
        apply in_app_or in H as [H | [H | []]].
        - revert H. now apply not_patch_message.
        - destruct (JSString.eqb _ _); discriminate. }
      rewrite in_app_iff. unfold copyKeystore.
      destruct (keystoreSource fs) as [k|]; [destruct (copyError fs)|]; simpl.
      * split; [intros [[H | []] | H]; [discriminate | contradiction]
               | intros (_ & _ & H); discriminate].
      * split; [intros _; repeat split; discriminate | intros _; left; now left].
      * split; [intros [[H | [H | [H | []]]] | H]; try discriminate; contradiction
               | intros (_ & H & _); congruence].
  - split.
    + unfold main. now rewrite Hg.
    + unfold main. rewrite Hg. simpl. split.
      * intros [H | [H | []]]; discriminate.
      * intros (H & _). congruence.
Qed.

(** X8.  When step 2.2 changes the text, the block with its line break
    and four spaces stands right before a match of [buildTypes\s*\{],
    and no match starts further left; when step 2.3 changes the text,
    the line break and the line stand right after a match of
    [getByName\("release"\)\s*\{], and no match starts further left. *)
Theorem insertion_points :
  forall x : JSString.t,
    (fst (addSigningConfig x) = x
     \/ exists before m after,
          x = before ++ m ++ after /\ anchor (lit "buildTypes") m
          /\ fst (addSigningConfig x)
             = before ++ SIGNING_CONFIG_BLOCK ++ NL ++ lit "    " ++ m ++ after
          /\ forall b' m' a',
               anchor (lit "buildTypes") m' -> x = b' ++ m' ++ a' ->
               (List.length before <= List.length b')%nat)
    /\ (fst (applyReleaseConfig x) = x
        \/ exists before m after,
             x = before ++ m ++ after /\ anchor (lit "getByName('release')") m
             /\ fst (applyReleaseConfig x)
                = before ++ m ++ NL ++ RELEASE_CONFIG_LINE ++ after
             /\ forall b' m' a',
                  anchor (lit "getByName('release')") m' -> x = b' ++ m' ++ a' ->
                  (List.length before <= List.length b')%nat).
Proof.
  intros x. split.
  - unfold addSigningConfig.
    destruct (_ || _); [|now left].
    destruct (searchAnchor (lit "buildTypes") x) as [[[b m] a]|] eqn:Hs; [|now left].
    right. exists b, m, a.
    destruct (searchAnchor_sound _ _ _ _ _ Hs) as [E Ha].
    split; [assumption|]. split; [assumption|]. split.
    + cbn [fst]. now rewrite <- !app_assoc.
    + exact (searchAnchor_leftmost _ _ _ _ _ Hs).
  - unfold applyReleaseConfig.
    destruct (negb _); [|now left].
    destruct (searchAnchor (lit "getByName('release')") x) as [[[b m] a]|] eqn:Hs;
      [|now left].
    right. exists b, m, a.
    destruct (searchAnchor_sound _ _ _ _ _ Hs) as [E Ha].
    split; [assumption|]. split; [assumption|]. split.
    + cbn [fst]. now rewrite <- !app_assoc.
    + exact (searchAnchor_leftmost _ _ _ _ _ Hs).
Qed.

End GradleProperties.


(** ** Numbers: what the calculator relies on *)

Module JSNumberFacts.

(** For a finite Number, [0 < x] is the negation of [x <= 0]; and
    [0 <= 0]. *)
Class Ordered (num : Type) `{Arithmetic num} := {
  leb_zero_zero : leb (literal 0 0) (literal 0 0) = true;
  ltb_zero_finite :
    forall x : num,
      isFinite x = true -> ltb (literal 0 0) x = negb (leb x (literal 0 0))
}.

Lemma Prim2SF_not_nan (x : float) :
  PrimFloat.is_nan x = false -> Prim2SF x <> S754_nan.
Proof.
  intros Hn. unfold Prim2SF. rewrite Hn.
  destruct (PrimFloat.is_zero x); [discriminate|].
  destruct (PrimFloat.is_infinity x); [discriminate|].
  destruct (Z.frexp x) as [r e].
  destruct (shr_fexp _ _ _ _ _) as [shr e'].
  destruct (shr_m shr); discriminate.
Qed.

#[export] Instance Binary64_Ordered : Ordered float.
Proof.
  split.
  - reflexivity.
  - intros x Hx. cbn in *.
    apply negb_true_iff, orb_false_iff in Hx as [Hn _].
    apply Prim2SF_not_nan in Hn.
    change (binary64_ofValue (Decimal false 0 0)) with PrimFloat.zero.
    rewrite ltb_spec, leb_spec.
    change (Prim2SF PrimFloat.zero) with (S754_zero false).
    destruct (Prim2SF x) as [s | s | | s m e]; try congruence;
      destruct s; reflexivity.
Qed.

#[export] Instance Exact_Ordered : Ordered exact.
Proof.
  split.
  - reflexivity.
  - intros [| s | q] Hx; try discriminate. reflexivity.
Qed.

(** White space only, or nothing: [StringToNumber] reads zero. *)
Lemma trimStart_blank s : forallb isWhiteSpace s = true -> trimStart s = [].
Proof.
  induction s as [|c s IH]; simpl; [reflexivity|].
  intros H. apply andb_true_iff in H as [-> H]. auto.
Qed.

Lemma trim_blank s : forallb isWhiteSpace s = true -> trim s = [].
Proof.
  intros H. unfold trim, trimEnd. now rewrite (trimStart_blank _ H).
Qed.

Lemma StringToNumber_blank s :
  forallb isWhiteSpace s = true -> StringToNumber s = Decimal false 0 0.
Proof. intros H. unfold StringToNumber. now rewrite (trim_blank _ H). Qed.

(** [Number] on some texts, in binary64. *)
Example Number_reads :
  map (fun text => Number (num := float) (lit text))
      ["0.12"; "3.5"; "4.00"; " 12 "; "1e3"; ".5"; "5."; "0x1F"; "-2.5e-1";
       "5e-324"; "1e-400"; "1e400"; "-Infinity"]%string
  = [0.12; 3.5; 4; 12; 1000; 0.5; 5; 31; -0.25;
     0x1p-1074; 0; infinity; neg_infinity]%float.
Proof. vm_compute. reflexivity. Qed.

Example Number_rejects :
  map (fun text => PrimFloat.is_nan (Number (num := float) (lit text)))
      ["abc"; "1 2"; "."; "1e"; "0x"; "1_000"; "12px"; "infinity"]%string
  = [true; true; true; true; true; true; true; true].
Proof. vm_compute. reflexivity. Qed.

End JSNumberFacts.

(** ** The calculator *)

Module AppFacts.
Import JSNumberFacts App.

Section AnyArithmetic.

Context {num : Type} `{Ordered num}.

Local Open Scope num_scope.

Definition zero : num := literal 0 0.

Lemma parsePositiveNumber_eq value :
  parsePositiveNumber value =
  if isFinite (Number value) && (zero <? Number value)
  then Some (Number value) else None.
Proof.
  unfold parsePositiveNumber, zero.
  destruct (isFinite (Number value)) eqn:Hf; simpl; [|reflexivity].
  rewrite (ltb_zero_finite _ Hf).
  now destruct (Number value <=? literal 0 0).
Qed.

Lemma parsePositiveNumber_Some value n :
  parsePositiveNumber value = Some n <->
  n = Number value /\ isFinite n = true /\ (n <=? zero) = false.
Proof.
  unfold parsePositiveNumber, zero. split.
  - destruct (isFinite (Number value)) eqn:Hf; simpl; [|discriminate].
    destruct (Number value <=? literal 0 0) eqn:Hl; [discriminate|].
    intros E. injection E as <-. auto.
  - intros (-> & Hf & Hl). now rewrite Hf, Hl.
Qed.

Lemma parsePositiveNumber_blank value :
  forallb isWhiteSpace value = true -> parsePositiveNumber value = None.
Proof.
  intros Hb. unfold parsePositiveNumber, Number.
  rewrite (StringToNumber_blank _ Hb).
  change (ofValue (Decimal false 0 0)) with (literal 0 0).
  rewrite leb_zero_zero. now rewrite orb_true_r.
Qed.

Lemma iceEfficiencyNum_blank s :
  forallb isWhiteSpace (iceEfficiency s) = true -> iceEfficiencyNum s = None.
Proof.
  intros Hb. unfold iceEfficiencyNum. now rewrite (trim_blank _ Hb).
Qed.

Lemma iceEfficiencyNum_Some s n :
  iceEfficiencyNum s = Some n -> parsePositiveNumber (iceEfficiency s) = Some n.
Proof.
  unfold iceEfficiencyNum. now destruct (trim (iceEfficiency s)).
Qed.

Lemma results_Some s Ce E_raw Cf :
  electricityCostNum s = Some Ce -> efficiencyNum s = Some E_raw ->
  fuelPriceNum s = Some Cf ->
  results s =
  Some {| electricCostPerDist := Ce / (E_raw * CHARGING_EFFICIENCY);
          evFuelEquivalent := Cf / (Ce / (E_raw * CHARGING_EFFICIENCY));
          rawEfficiency := E_raw;
          effectiveEfficiency := E_raw * CHARGING_EFFICIENCY |}.
Proof. intros H1 H2 H3. unfold results. now rewrite H1, H2, H3. Qed.

Lemma results_None s :
  results s = None <->
  electricityCostNum s = None \/ efficiencyNum s = None \/ fuelPriceNum s = None.
Proof.
  unfold results.
  destruct (electricityCostNum s), (efficiencyNum s), (fuelPriceNum s);
    split; intros; try discriminate; intuition discriminate.
Qed.

Lemma results_inv s r :
  results s = Some r ->
  exists Ce E_raw Cf,
    electricityCostNum s = Some Ce /\ efficiencyNum s = Some E_raw
    /\ fuelPriceNum s = Some Cf
    /\ r = {| electricCostPerDist := Ce / (E_raw * CHARGING_EFFICIENCY);
              evFuelEquivalent := Cf / (Ce / (E_raw * CHARGING_EFFICIENCY));
              rawEfficiency := E_raw;
              effectiveEfficiency := E_raw * CHARGING_EFFICIENCY |}.
Proof.
  unfold results.
  destruct (electricityCostNum s) as [Ce|]; [|discriminate].
  destruct (efficiencyNum s) as [E|]; [|discriminate].
  destruct (fuelPriceNum s) as [Cf|]; [|discriminate].
  intros E0. injection E0 as <-. now exists Ce, E, Cf.
Qed.

Definition gasCost (u : UnitSystem) (Cf IceEffInput : num) : num :=
  match u with
  | US => Cf / IceEffInput
  | METRIC => (Cf * IceEffInput) / literal 100 0
  end.

Lemma comparison_Some s base IceEffInput Cf :
  results s = Some base -> iceEfficiencyNum s = Some IceEffInput ->
  fuelPriceNum s = Some Cf ->
  let gas := gasCost (unitSystem s) Cf IceEffInput in
  comparison s =
  Some {| gasCostPerDist := gas;
          efficiencyDisplay := IceEffInput;
          savingsPerDist := gas - electricCostPerDist base;
          percentSavings :=
            if zero <? gas
            then ((gas - electricCostPerDist base) / gas) * literal 100 0
            else zero;
          efficiencyFactor := gas / electricCostPerDist base |}.
Proof.
  intros H1 H2 H3. unfold comparison, gasCost. rewrite H1, H2, H3.
  now destruct (unitSystem s).
Qed.

Lemma comparison_None s :
  comparison s = None <-> results s = None \/ iceEfficiencyNum s = None.
Proof.
  split.
  - destruct (results s) as [base|] eqn:Hr; [|now left].
    destruct (iceEfficiencyNum s) as [i|] eqn:Hi; [|now right].
    destruct (results_inv _ _ Hr) as (Ce & E & Cf & _ & _ & HCf & _).
    now rewrite (comparison_Some _ _ _ _ Hr Hi HCf).
  - unfold comparison. intros [-> | Hi]; [reflexivity|].
    rewrite Hi. now destruct (results s).
Qed.

Lemma comparison_inv s c :
  comparison s = Some c ->
  exists base IceEffInput Cf,
    results s = Some base /\ iceEfficiencyNum s = Some IceEffInput
    /\ fuelPriceNum s = Some Cf
    /\ c = {| gasCostPerDist := gasCost (unitSystem s) Cf IceEffInput;
              efficiencyDisplay := IceEffInput;
              savingsPerDist :=
                gasCost (unitSystem s) Cf IceEffInput - electricCostPerDist base;
              percentSavings :=
                if zero <? gasCost (unitSystem s) Cf IceEffInput
                then ((gasCost (unitSystem s) Cf IceEffInput
                       - electricCostPerDist base)
                      / gasCost (unitSystem s) Cf IceEffInput) * literal 100 0
                else zero;
              efficiencyFactor :=
                gasCost (unitSystem s) Cf IceEffInput / electricCostPerDist base |}.
Proof.
  intros Hc.
  destruct (results s) as [base|] eqn:Hr;
    [|rewrite (proj2 (comparison_None s)) in Hc; [discriminate | now left]].
  destruct (iceEfficiencyNum s) as [i|] eqn:Hi;
    [|rewrite (proj2 (comparison_None s)) in Hc; [discriminate | now right]].
  destruct (results_inv _ _ Hr) as (Ce & E & Cf & _ & _ & HCf & _).
  rewrite (comparison_Some _ _ _ _ Hr Hi HCf) in Hc. injection Hc as <-.
  now exists base, i, Cf.
Qed.

End AnyArithmetic.

End AppFacts.

(** ** Binary64: the signs of products and quotients

    Stated over the bit-level specification of the primitive floats
    ([SpecFloat]), which the primitive operations are related to by
    [mul_spec], [div_spec], [leb_spec] and [ltb_spec]. *)

Module Binary64Facts.
Import JSNumberFacts App AppFacts.

Local Open Scope Z_scope.

(** *** Signs of [spec_float] values *)

(** Zero, finite above zero, or plus infinity: never NaN, never negative. *)
Definition nonnegative (x : spec_float) : bool :=
  match x with
  | S754_zero false | S754_infinity false | S754_finite false _ _ => true
  | _ => false
  end.

(** Finite above zero, or plus infinity. *)
Definition above_zero (x : spec_float) : bool :=
  match x with
  | S754_infinity false | S754_finite false _ _ => true
  | _ => false
  end.

(** Finite and above zero. *)
Definition finite_above_zero (x : spec_float) : bool :=
  match x with
  | S754_finite false _ _ => true
  | _ => false
  end.

Lemma above_zero_nonnegative x : above_zero x = true -> nonnegative x = true.
Proof. now destruct x as [[]|[]| |[] m e]. Qed.

Lemma finite_above_zero_above x : finite_above_zero x = true -> above_zero x = true.
Proof. now destruct x as [[]|[]| |[] m e]. Qed.

(** *** Right shifts of the rounding *)

Lemma shr_1_m mrs : 0 <= shr_m mrs -> shr_m (shr_1 mrs) = Z.div2 (shr_m mrs).
Proof.
  destruct mrs as [m r s]. simpl. destruct m as [|[p|p|]|p]; simpl; try reflexivity.
  all: intros H; exfalso; apply H; reflexivity.
Qed.

Lemma shr_iter_m p :
  forall mrs, 0 <= shr_m mrs ->
    shr_m (iter_pos shr_1 p mrs) = Z.shiftr (shr_m mrs) (Zpos p).
Proof.
  induction p as [p IH | p IH |]; intros mrs Hm; simpl.
  - assert (0 <= shr_m (shr_1 mrs)) as H1
      by (rewrite shr_1_m by assumption; now apply Z.div2_nonneg).
    assert (0 <= shr_m (iter_pos shr_1 p (shr_1 mrs))) as H2
      by (rewrite IH by assumption; now apply Z.shiftr_nonneg).
    rewrite IH, IH, shr_1_m, Z.div2_spec, !Z.shiftr_shiftr by (assumption || lia).
    f_equal. lia.
  - assert (0 <= shr_m (iter_pos shr_1 p mrs)) as H2
      by (rewrite IH by assumption; now apply Z.shiftr_nonneg).
    rewrite IH, IH, !Z.shiftr_shiftr by (assumption || lia).
    f_equal. lia.
  - rewrite shr_1_m by assumption. apply Z.div2_spec.
Qed.

Lemma shr_record_of_loc_m m l : shr_m (shr_record_of_loc m l) = m.
Proof. now destruct l as [|[]]. Qed.

(** The mantissa [shr_fexp] leaves is the mantissa it was given, shifted
    right by the distance to the exponent of the format, if any. *)
Lemma shr_fexp_m m e l :
  0 <= m ->
  let n := fexp prec emax (Zdigits2 m + e) - e in
  shr_m (fst (shr_fexp prec emax m e l)) = Z.shiftr m (Z.max 0 n)
  /\ snd (shr_fexp prec emax m e l) = e + Z.max 0 n.
Proof.
  intros Hm n. unfold shr_fexp, shr. fold n.
  destruct n as [|p|p]; simpl fst; simpl snd.
  - rewrite shr_record_of_loc_m. split; [reflexivity | lia].
  - rewrite shr_iter_m by now rewrite shr_record_of_loc_m.
    rewrite shr_record_of_loc_m. split; [reflexivity | lia].
  - rewrite shr_record_of_loc_m. split; [reflexivity | lia].
Qed.

Lemma round_nearest_even_ge m l : m <= round_nearest_even m l.
Proof.
  destruct l as [|[]]; simpl; try lia. destruct (Z.even m); lia.
Qed.

(** *** The sign of a rounded value *)

Lemma binary_round_aux_nonnegative m e l :
  0 <= m -> nonnegative (binary_round_aux prec emax false m e l) = true.
Proof.
  intros Hm. unfold binary_round_aux.
  destruct (shr_fexp_m m e l Hm) as [H1 _].
  destruct (shr_fexp prec emax m e l) as [mrs' e']. simpl in H1.
  set (r := round_nearest_even (shr_m mrs') (loc_of_shr_record mrs')).
  assert (0 <= r) as Hr.
  { pose proof (round_nearest_even_ge (shr_m mrs') (loc_of_shr_record mrs')).
    fold r in H. rewrite H1 in H.
    pose proof (Z.shiftr_nonneg m (Z.max 0 (fexp prec emax (Zdigits2 m + e) - e))).
    lia. }
  destruct (shr_fexp_m r e' loc_Exact Hr) as [H2 _].
  destruct (shr_fexp prec emax r e' loc_Exact) as [mrs'' e'']. simpl in H2.
  pose proof (Z.shiftr_nonneg r (Z.max 0 (fexp prec emax (Zdigits2 r + e') - e'))) as H3.
  destruct (shr_m mrs''); [reflexivity | | lia].
  now destruct (e'' <=? emax - prec).
Qed.

Lemma digits2_pos_size p : digits2_pos p = Pos.size p.
Proof. induction p; simpl; congruence. Qed.

Lemma Zdigits2_log2 m : 0 < m -> Zdigits2 m = Z.log2 m + 1.
Proof.
  destruct m as [|p|p]; try (intros H; discriminate H). intros _. simpl.
  destruct p; simpl; rewrite ?digits2_pos_size; lia.
Qed.

Lemma shiftr_above_zero a n : 0 < a -> 0 <= n -> n <= Z.log2 a -> 0 < Z.shiftr a n.
Proof.
  intros Ha Hn Hl. rewrite Z.shiftr_div_pow2 by assumption.
  apply Z.div_str_pos. split; [now apply Z.pow_pos_nonneg|].
  apply Z.le_trans with (2 ^ Z.log2 a).
  - apply Z.pow_le_mono_r; lia.
  - now apply Z.log2_spec.
Qed.

Lemma fexp_binary64 k : fexp prec emax k = Z.max (k - 53) (-1074).
Proof. reflexivity. Qed.

Lemma emin_binary64 : emin = -1074.
Proof. reflexivity. Qed.

(** A value that is at least the least positive binary64 does not round
    to zero. *)
Lemma binary_round_aux_above_zero m e l :
  0 < m -> emin < Zdigits2 m + e ->
  above_zero (binary_round_aux prec emax false m e l) = true.
Proof.
  intros Hm Hd. unfold binary_round_aux.
  destruct (shr_fexp_m m e l (Z.lt_le_incl _ _ Hm)) as [H1 H1'].
  destruct (shr_fexp prec emax m e l) as [mrs' e']. simpl in H1, H1'.
  set (r := round_nearest_even (shr_m mrs') (loc_of_shr_record mrs')).
  pose proof (Zdigits2_log2 m Hm) as Hdm.
  pose proof (Z.log2_nonneg m) as Hlm.
  assert (emin <= e') as He'.
  { rewrite H1'. rewrite ?fexp_binary64, ?emin_binary64 in *. lia. }
  assert (0 < r) as Hr.
  { pose proof (round_nearest_even_ge (shr_m mrs') (loc_of_shr_record mrs')) as H.
    fold r in H. rewrite H1 in H.
    assert (0 < Z.shiftr m (Z.max 0 (fexp prec emax (Zdigits2 m + e) - e))).
    { apply shiftr_above_zero; [assumption | lia|].
      rewrite ?fexp_binary64, ?emin_binary64 in *. lia. }
    lia. }
  destruct (shr_fexp_m r e' loc_Exact (Z.lt_le_incl _ _ Hr)) as [H2 _].
  destruct (shr_fexp prec emax r e' loc_Exact) as [mrs'' e'']. simpl in H2.
  assert (0 < shr_m mrs'') as H3.
  { rewrite H2. pose proof (Zdigits2_log2 r Hr) as Hdr.
    pose proof (Z.log2_nonneg r).
    apply shiftr_above_zero; [assumption | lia|].
    rewrite ?fexp_binary64, ?emin_binary64 in *. lia. }
  destruct (shr_m mrs''); try lia.
  now destruct (e'' <=? emax - prec).
Qed.

(** *** Quotients and products of Numbers that are not negative *)

Lemma SFdiv_core_binary_nonnegative m1 e1 m2 e2 :
  0 <= fst (fst (SFdiv_core_binary prec emax (Zpos m1) e1 (Zpos m2) e2)).
Proof.
  unfold SFdiv_core_binary.
  set (s := (e1 - e2 - _)%Z).
  set (m' := match s with Zpos _ => Z.shiftl (Zpos m1) s | Z0 => Zpos m1 | Zneg _ => 0 end).
  assert (0 <= m') as Hm'.
  { unfold m'. destruct s; try lia. apply Z.shiftl_nonneg. lia. }
  pose proof (Z.div_pos m' (Zpos m2) Hm' eq_refl) as Hq.
  unfold Z.div in Hq.
  change (IntDef.Z.div_eucl m' (Zpos m2)) with (Z.div_eucl m' (Zpos m2)).
  now destruct (Z.div_eucl m' (Zpos m2)) as [q r].
Qed.

Lemma SFdiv_nonnegative x y :
  nonnegative x = true -> nonnegative y = true ->
  finite_above_zero x = true \/ finite_above_zero y = true ->
  nonnegative (SFdiv prec emax x y) = true.
Proof.
  destruct x as [[]|[]| |[] mx ex]; try discriminate;
    destruct y as [[]|[]| |[] my ey]; try discriminate;
    intros _ _ H; try reflexivity;
    try (destruct H; discriminate).
  unfold SFdiv.
  pose proof (SFdiv_core_binary_nonnegative mx ex my ey) as Hq.
  destruct (SFdiv_core_binary prec emax (Zpos mx) ex (Zpos my) ey) as [[mz ez] lz].
  now apply binary_round_aux_nonnegative.
Qed.

Lemma SFmul_nonnegative x y :
  finite_above_zero x = true -> finite_above_zero y = true ->
  nonnegative (SFmul prec emax x y) = true.
Proof.
  destruct x as [[]|[]| |[] mx ex]; try discriminate;
    destruct y as [[]|[]| |[] my ey]; try discriminate.
  intros _ _. now apply binary_round_aux_nonnegative.
Qed.

(** *** Nine tenths of a Number above zero is above zero *)

(** The mantissa and exponent of 0.90, the nearest binary64 to 9/10. *)
Definition mantissa090 : positive := 8106479329266893.

Lemma Prim2SF_090 : Prim2SF 0.9%float = S754_finite false mantissa090 (-53).
Proof. reflexivity. Qed.

Lemma SFmul_090_above_zero mx ex :
  valid_binary (S754_finite false mx ex) = true ->
  above_zero (SFmul prec emax (S754_finite false mx ex)
                (S754_finite false mantissa090 (-53))) = true.
Proof.
  unfold valid_binary, bounded, canonical_mantissa. intros Hv.
  apply andb_true_iff in Hv as [Hc _]. apply Z.eqb_eq in Hc.
  rewrite fexp_binary64, digits2_pos_size in Hc.
  destruct (Pos.eq_dec mx 1) as [-> | Hmx].
  - (* the least positive Number: 0.9 of it rounds back up to it *)
    assert (ex = -1074) as ->
      by (change (Pos.size 1) with 1%positive in Hc; lia).
    reflexivity.
  - unfold SFmul. apply binary_round_aux_above_zero; [reflexivity|].
    rewrite emin_binary64, Zdigits2_log2 by reflexivity.
    assert (53 <= Z.log2 (Zpos (mx * mantissa090))).
    { change 53 with (Z.log2 (2 * Zpos mantissa090)).
      apply Z.log2_le_mono. rewrite Pos2Z.inj_mul.
      apply Z.mul_le_mono_nonneg_r; lia. }
    lia.
Qed.

(** *** From the specification back to the primitive floats *)

Local Open Scope float_scope.

Lemma Prim2SF_zero : Prim2SF 0 = S754_zero false.
Proof. reflexivity. Qed.

Lemma leb_zero_nonnegative x : nonnegative (Prim2SF x) = true -> (0 <=? x) = true.
Proof.
  rewrite leb_spec, Prim2SF_zero.
  now destruct (Prim2SF x) as [[]|[]| |[] m e].
Qed.

Lemma ltb_zero_above_zero x : above_zero (Prim2SF x) = true -> (0 <? x) = true.
Proof.
  rewrite ltb_spec, Prim2SF_zero.
  now destruct (Prim2SF x) as [[]|[]| |[] m e].
Qed.

(** What [parsePositiveNumber] lets through is finite and above zero. *)
Lemma finite_above_zero_intro x :
  isFinite x = true -> (x <=? 0) = false -> finite_above_zero (Prim2SF x) = true.
Proof.
  cbn [isFinite Binary64]. intros Hf Hl.
  apply negb_true_iff, orb_false_iff in Hf as [Hn Hi].
  rewrite leb_spec, Prim2SF_zero in Hl. revert Hl.
  unfold Prim2SF. rewrite Hn, Hi.
  destruct (PrimFloat.is_zero x); [now destruct (get_sign x)|].
  destruct (Z.frexp x) as [r e].
  destruct (shr_fexp _ _ _ _ _) as [shr e'].
  destruct (shr_m shr); try discriminate.
  now destruct (get_sign x).
Qed.

Lemma parsed_finite_above_zero value (n : float) :
  parsePositiveNumber value = Some n -> finite_above_zero (Prim2SF n) = true.
Proof.
  intros Hp. apply parsePositiveNumber_Some in Hp as (_ & Hf & Hl).
  now apply finite_above_zero_intro.
Qed.

Lemma mul_090_above_zero x :
  finite_above_zero (Prim2SF x) = true -> above_zero (Prim2SF (x * 0.9)) = true.
Proof.
  intros Hx. rewrite mul_spec, Prim2SF_090.
  pose proof (Prim2SF_valid x) as Hv.
  destruct (Prim2SF x) as [[]|[]| |[] mx ex]; try discriminate.
  now apply SFmul_090_above_zero.
Qed.

Lemma div_nonnegative x y :
  nonnegative (Prim2SF x) = true -> nonnegative (Prim2SF y) = true ->
  finite_above_zero (Prim2SF x) = true \/ finite_above_zero (Prim2SF y) = true ->
  nonnegative (Prim2SF (x / y)) = true.
Proof. rewrite div_spec. apply SFdiv_nonnegative. Qed.

Lemma mul_nonnegative x y :
  finite_above_zero (Prim2SF x) = true -> finite_above_zero (Prim2SF y) = true ->
  nonnegative (Prim2SF (x * y)) = true.
Proof. rewrite mul_spec. apply SFmul_nonnegative. Qed.

(** *** The signs of what the calculator computes *)

Lemma literal_100_above_zero :
  finite_above_zero (Prim2SF (literal (num := float) 100 0)) = true.
Proof. reflexivity. Qed.

Lemma results_signs (s : Signals) (r : Results float) :
  results s = Some r ->
  above_zero (Prim2SF (effectiveEfficiency r)) = true
  /\ nonnegative (Prim2SF (electricCostPerDist r)) = true
  /\ nonnegative (Prim2SF (evFuelEquivalent r)) = true.
Proof.
  intros Hr. apply results_inv in Hr as (Ce & E & Cf & H1 & H2 & H3 & ->).
  apply parsed_finite_above_zero in H1, H2, H3.
  cbn [effectiveEfficiency electricCostPerDist evFuelEquivalent].
  pose proof (mul_090_above_zero E H2) as He.
  change (E * 0.9) with (mul E CHARGING_EFFICIENCY) in He.
  assert (nonnegative (Prim2SF (div Ce (mul E CHARGING_EFFICIENCY))) = true) as Hc.
  { apply div_nonnegative; [| |now left].
    - now apply above_zero_nonnegative, finite_above_zero_above.
    - now apply above_zero_nonnegative. }
  split; [assumption|]. split; [assumption|].
  apply div_nonnegative; [|assumption|now left].
  now apply above_zero_nonnegative, finite_above_zero_above.
Qed.

Lemma comparison_signs (s : Signals) (c : Comparison float) :
  comparison s = Some c ->
  finite_above_zero (Prim2SF (efficiencyDisplay c)) = true
  /\ nonnegative (Prim2SF (gasCostPerDist c)) = true.
Proof.
  intros Hc. apply comparison_inv in Hc as (base & i & Cf & Hr & Hi & Hf & ->).
  apply iceEfficiencyNum_Some, parsed_finite_above_zero in Hi.
  apply parsed_finite_above_zero in Hf.
  cbn [efficiencyDisplay gasCostPerDist]. split; [assumption|].
  unfold gasCost. destruct (unitSystem s).
  - apply div_nonnegative; [| |now left];
      now apply above_zero_nonnegative, finite_above_zero_above.
  - apply div_nonnegative; [| |right; apply literal_100_above_zero].
    + now apply mul_nonnegative.
    + apply above_zero_nonnegative, finite_above_zero_above, literal_100_above_zero.
Qed.

End Binary64Facts.

(** ** Binary64: how far one rounding moves

    The rounding of [SpecFloat] shifts the mantissa right while a rounding
    bit and a sticky bit remember what was shifted out, then rounds to
    nearest, ties to even.  The invariant [stands_for] follows the exact
    value through the shifts. *)

Module Binary64Rounding.
Import Binary64Facts.

Local Open Scope Z_scope.

(** One step of the right shift, on a mantissa that is not negative:
    halve, keep the bit shifted out as the rounding bit, and let the
    sticky bit remember every bit lost before. *)
Lemma shr_1_bits m r s :
  0 <= m ->
  shr_1 {| shr_m := m; shr_r := r; shr_s := s |}
  = {| shr_m := m / 2; shr_r := Z.odd m; shr_s := r || s |}.
Proof.
  intros Hm. destruct m as [|p|p]; [reflexivity | | lia].
  destruct p as [p|p|]; simpl shr_1; f_equal.
  - rewrite Pos2Z.inj_xI. apply Z.div_unique with 1; lia.
  - rewrite Pos2Z.inj_xO. apply Z.div_unique with 0; lia.
Qed.

(** A shift record stands for the real [A / B]: the mantissa is its
    integer part, the rounding bit tells whether the rest reaches one
    half, the sticky bit whether it is neither nothing nor one half. *)
Definition stands_for (mrs : shr_record) (A B : Z) : Prop :=
  let m := shr_m mrs in
  0 <= m /\ m * B <= A < (m + 1) * B
  /\ shr_r mrs = ((2 * m + 1) * B <=? 2 * A)
  /\ shr_s mrs = negb ((A =? m * B) || (2 * A =? (2 * m + 1) * B)).

Lemma stands_for_shr_1 mrs A B :
  0 < B -> stands_for mrs A B -> stands_for (shr_1 mrs) A (2 * B).
Proof.
  intros HB (Hm & Hb & Hr & Hs). destruct mrs as [m r s].
  cbn [shr_m shr_r shr_s] in *. rewrite shr_1_bits by assumption.
  unfold stands_for. cbn [shr_m shr_r shr_s].
  pose proof (Z.div_mod m 2 ltac:(lia)) as Hdiv.
  pose proof (Z.mod_pos_bound m 2 ltac:(lia)) as Hmod.
  pose proof (Zmod_odd m) as Hodd.
  set (q := m / 2) in *. set (b := m mod 2) in *.
  assert (b = 0 /\ Z.odd m = false \/ b = 1 /\ Z.odd m = true) as Hb01
    by (destruct (Z.odd m); lia).
  assert (m * B = 2 * (q * B) + b * B) as HmB by (rewrite Hdiv; ring).
  assert (0 <= q) as Hq by (apply Z.div_pos; lia).
  split; [assumption|].
  destruct Hb01 as [[Hb0 ->] | [Hb1 ->]].
  - rewrite Hb0 in *.
    assert (m * B = 2 * (q * B)) as HmB' by lia. clear HmB.
    assert ((m + 1) * B = 2 * (q * B) + B) as HmB1 by lia.
    split; [lia|]. split.
    + symmetry. apply Z.leb_gt. lia.
    + subst r s.
      destruct (Z.leb_spec ((2 * m + 1) * B) (2 * A));
        destruct (Z.eqb_spec A (m * B));
        destruct (Z.eqb_spec (2 * A) ((2 * m + 1) * B));
        destruct (Z.eqb_spec A (q * (2 * B)));
        destruct (Z.eqb_spec (2 * A) ((2 * q + 1) * (2 * B)));
        simpl; try reflexivity; lia.
  - rewrite Hb1 in *.
    assert (m * B = 2 * (q * B) + B) as HmB' by lia. clear HmB.
    assert ((m + 1) * B = 2 * (q * B) + 2 * B) as HmB1 by lia.
    split; [lia|]. split.
    + symmetry. apply Z.leb_le. lia.
    + subst r s.
      destruct (Z.leb_spec ((2 * m + 1) * B) (2 * A));
        destruct (Z.eqb_spec A (m * B));
        destruct (Z.eqb_spec (2 * A) ((2 * m + 1) * B));
        destruct (Z.eqb_spec A (q * (2 * B)));
        destruct (Z.eqb_spec (2 * A) ((2 * q + 1) * (2 * B)));
        simpl; try reflexivity; lia.
Qed.

Lemma pow2_xO p : 2 ^ Zpos p~0 = 2 ^ Zpos p * 2 ^ Zpos p.
Proof.
  replace (Zpos p~0) with (Zpos p + Zpos p) by lia.
  apply Z.pow_add_r; lia.
Qed.

Lemma pow2_xI p : 2 ^ Zpos p~1 = 2 ^ Zpos p * (2 ^ Zpos p * 2).
Proof.
  replace (Zpos p~1) with (Zpos p + (Zpos p + 1)) by lia.
  rewrite !Z.pow_add_r by lia. reflexivity.
Qed.

Lemma stands_for_iter p :
  forall mrs A B, 0 < B -> stands_for mrs A B ->
    stands_for (iter_pos shr_1 p mrs) A (2 ^ Zpos p * B).
Proof.
  induction p as [p IH | p IH |]; intros mrs A B HB H; simpl iter_pos;
    try pose proof (Z.pow_pos_nonneg 2 (Zpos p) ltac:(lia) ltac:(lia)) as Hp.
  - apply stands_for_shr_1 in H; [|assumption].
    apply IH in H; [|lia]. apply IH in H; [|nia].
    rewrite pow2_xI.
    replace (2 ^ Zpos p * (2 ^ Zpos p * 2) * B)
      with (2 ^ Zpos p * (2 ^ Zpos p * (2 * B))) by ring.
    assumption.
  - apply IH in H; [|assumption]. apply IH in H; [|nia].
    rewrite pow2_xO, <- Z.mul_assoc. assumption.
  - apply stands_for_shr_1 in H; [|assumption].
    now change (2 ^ 1) with 2.
Qed.

Lemma shr_fexp_stands_for m e l A B :
  0 < B -> stands_for (shr_record_of_loc m l) A B ->
  stands_for (fst (shr_fexp prec emax m e l)) A
    (2 ^ Z.max 0 (fexp prec emax (Zdigits2 m + e) - e) * B).
Proof.
  intros HB H. unfold shr_fexp, shr.
  destruct (fexp prec emax (Zdigits2 m + e) - e) as [|p|p]; simpl fst.
  - now rewrite Z.max_id, Z.mul_1_l.
  - rewrite Z.max_r by lia. now apply stands_for_iter.
  - rewrite Z.max_l by lia. now rewrite Z.mul_1_l.
Qed.

(** Rounding to nearest moves by at most one half. *)
Lemma round_nearest_even_half mrs A B :
  0 < B -> stands_for mrs A B ->
  let R := round_nearest_even (shr_m mrs) (loc_of_shr_record mrs) in
  shr_m mrs <= R <= shr_m mrs + 1
  /\ 2 * (R * B) - B <= 2 * A <= 2 * (R * B) + B.
Proof.
  intros HB (Hm & Hb & Hr & Hs). destruct mrs as [m r s].
  cbn [shr_m shr_r shr_s] in *.
  destruct r, s; simpl loc_of_shr_record; simpl round_nearest_even;
    symmetry in Hr, Hs;
    try apply Z.leb_le in Hr; try apply Z.leb_gt in Hr;
    try (apply negb_false_iff, orb_true_iff in Hs;
         destruct Hs as [Hs | Hs]; apply Z.eqb_eq in Hs);
    try destruct (Z.even m); lia.
Qed.

Lemma stands_for_exact M : 0 <= M -> stands_for (shr_record_of_loc M loc_Exact) M 1.
Proof.
  intros HM. unfold stands_for. cbn [shr_record_of_loc shr_m shr_r shr_s].
  split; [assumption|]. split; [lia|]. split.
  - symmetry. apply Z.leb_gt. lia.
  - replace (M =? M * 1) with true by (symmetry; apply Z.eqb_eq; lia). reflexivity.
Qed.

Lemma shiftr_below M k d :
  0 <= M -> 0 <= k -> M < 2 ^ d -> d <= k + 53 -> Z.shiftr M k < 2 ^ 53.
Proof.
  intros HM Hk Hd Hdk. rewrite Z.shiftr_div_pow2 by assumption.
  apply Z.div_lt_upper_bound; [now apply Z.pow_pos_nonneg|].
  rewrite <- Z.pow_add_r by lia.
  apply Z.lt_le_trans with (2 ^ d); [assumption|].
  apply Z.pow_le_mono_r; lia.
Qed.

Lemma Zdigits2_bound M : 0 <= M -> M < 2 ^ Zdigits2 M.
Proof.
  intros HM. destruct (Z.eq_dec M 0) as [-> | Hne]; [reflexivity|].
  rewrite Zdigits2_log2 by lia. apply Z.log2_spec. lia.
Qed.

Lemma Zdigits2_53 m : Zpos (digits2_pos m) = 53 -> 2 ^ 52 <= Zpos m < 2 ^ 53.
Proof.
  intros Hd. change (Zpos (digits2_pos m)) with (Zdigits2 (Zpos m)) in Hd.
  rewrite Zdigits2_log2 in Hd by reflexivity.
  replace 52 with (Z.log2 (Zpos m)) by lia.
  replace 53 with (Z.succ (Z.log2 (Zpos m))) by lia.
  apply Z.log2_spec. reflexivity.
Qed.

(** The heart of the error analysis: when [binary_round_aux] is given a
    mantissa, exponent and location that stand for the real
    [(A / B) * 2 ^ E], and returns a normal number [mz * 2 ^ ez], then
    that number is within [2 ^ -52] of the real, relatively. *)
Lemma binary_round_aux_error M E l A B mz ez :
  0 < B -> stands_for (shr_record_of_loc M l) A B ->
  binary_round_aux prec emax false M E l = S754_finite false mz ez ->
  Zpos (digits2_pos mz) = 53 ->
  E <= ez /\ 2 ^ 52 * Z.abs (Zpos mz * 2 ^ (ez - E) * B - A) <= A.
Proof.
  intros HB Hst Hz Hn.
  assert (0 <= M) as HM by (destruct Hst as [H _]; now rewrite shr_record_of_loc_m in H).
  unfold binary_round_aux in Hz.
  pose proof (shr_fexp_stands_for M E l A B HB Hst) as H1.
  destruct (shr_fexp_m M E l HM) as [H1m H1e].
  destruct (shr_fexp prec emax M E l) as [mrs' e']. simpl fst in *. simpl snd in *.
  rewrite fexp_binary64 in *.
  set (k1 := Z.max 0 (Z.max (Zdigits2 M + E - 53) (-1074) - E)) in *.
  assert (0 <= k1) as Hk1 by lia.
  pose proof (Z.pow_pos_nonneg 2 k1 ltac:(lia) Hk1) as Hp1.
  set (B' := 2 ^ k1 * B) in *.
  assert (0 < B') as HB' by (unfold B'; nia).
  destruct (round_nearest_even_half mrs' A B' HB' H1) as [HR1 HR2].
  set (R := round_nearest_even (shr_m mrs') (loc_of_shr_record mrs')) in *.
  assert (0 <= shr_m mrs') as Hm1 by (destruct H1 as [H _]; exact H).
  assert (shr_m mrs' < 2 ^ 53) as Hm1'.
  { rewrite H1m. apply shiftr_below with (Zdigits2 M); try assumption.
    - now apply Zdigits2_bound.
    - unfold k1. lia. }
  assert (-1074 <= e') as He' by (rewrite H1e; fold k1; unfold k1; lia).
  assert (0 <= R) as HR0 by lia.
  destruct (shr_fexp_m R e' loc_Exact HR0) as [H2m H2e].
  destruct (shr_fexp prec emax R e' loc_Exact) as [mrs'' e'']. simpl fst in *. simpl snd in *.
  rewrite fexp_binary64 in *.
  destruct (shr_m mrs'') as [|mz'|mz'] eqn:Hmz; try discriminate Hz.
  destruct (e'' <=? emax - prec); try discriminate Hz.
  injection Hz as -> ->.
  pose proof (Zdigits2_53 _ Hn) as Hmz53.
  change (2 ^ 52) with 4503599627370496 in *.
  change (2 ^ 53) with 9007199254740992 in *.
  assert (0 < R) as HRpos.
  { destruct (Z.eq_dec R 0) as [E0 | ?]; [|lia].
    rewrite E0, Z.shiftr_0_l in H2m. discriminate H2m. }
  assert (Zpos mz * 2 ^ (ez - e') = R /\ e' <= ez) as [HT He].
  { destruct (Z.eq_dec R 9007199254740992) as [ER | NER].
    - rewrite ER in H2m, H2e.
      change (Zdigits2 9007199254740992) with 54 in *.
      replace (Z.max 0 (Z.max (54 + e' - 53) (-1074) - e')) with 1 in * by lia.
      change (Z.shiftr 9007199254740992 1) with 4503599627370496 in H2m.
      injection H2m as ->. rewrite H2e, ER.
      replace (e' + 1 - e') with 1 by lia. split; [reflexivity | lia].
    - assert (Zdigits2 R <= 53) as HdR.
      { rewrite Zdigits2_log2 by assumption.
        assert (Z.log2 R < 53); [|lia].
        apply Z.log2_lt_pow2; [assumption|].
        change (2 ^ 53) with 9007199254740992. lia. }
      replace (Z.max 0 (Z.max (Zdigits2 R + e' - 53) (-1074) - e')) with 0 in * by lia.
      rewrite Z.shiftr_0_r in H2m. rewrite H2e, Z.add_0_r, Z.sub_diag, <- H2m.
      split; [simpl; lia | lia]. }
  split; [lia|].
  assert (ez - E = (ez - e') + k1) as -> by lia.
  rewrite Z.pow_add_r by lia.
  replace (Zpos mz * (2 ^ (ez - e') * 2 ^ k1) * B)
    with ((Zpos mz * 2 ^ (ez - e')) * B') by (unfold B'; ring).
  rewrite HT.
  destruct H1 as (_ & [Hlo _] & _).
  assert ((R - 1) * B' <= shr_m mrs' * B') as Hmono
    by (apply Z.mul_le_mono_nonneg_r; lia).
  assert (4503599627370496 * B' <= R * B') as Hbig.
  { apply Z.mul_le_mono_nonneg_r; [lia|].
    rewrite <- HT. pose proof (Z.pow_pos_nonneg 2 (ez - e') ltac:(lia) ltac:(lia)). nia. }
  lia.
Qed.

(** The quotient and remainder of a division stand for the exact
    quotient. *)
Lemma stands_for_quotient a b q r :
  0 <= a -> 0 < b -> a = b * q + r -> 0 <= r < b ->
  stands_for (shr_record_of_loc q (new_location b r)) a b.
Proof.
  intros Ha Hb Hdiv Hr.
  assert (0 <= q) as Hq by nia.
  assert (q * b = a - r) as Hqb by lia.
  unfold stands_for. rewrite shr_record_of_loc_m.
  split; [assumption|]. split; [lia|].
  assert ((2 * q + 1) * b = 2 * (a - r) + b) as H2 by lia.
  rewrite H2, Hqb. clear H2 Hqb Hdiv.
  unfold new_location, new_location_even, new_location_odd.
  change (IntDef.Z.even b) with (Z.even b).
  change (IntDef.Z.eqb r 0) with (r =? 0).
  change (IntDef.Z.compare (IntDef.Z.mul 2 r) b) with (2 * r ?= b).
  change (IntDef.Z.compare (IntDef.Z.add (IntDef.Z.mul 2 r) 1) b) with (2 * r + 1 ?= b).
  destruct (Z.even b) eqn:Hev.
  - destruct (Z.eqb_spec r 0) as [-> | Hr0].
    + cbn [shr_record_of_loc shr_r shr_s]. split.
      * symmetry. apply Z.leb_gt. lia.
      * replace (a =? a - 0) with true by (symmetry; apply Z.eqb_eq; lia). reflexivity.
    + destruct (Z.compare_spec (2 * r) b); cbn [shr_record_of_loc shr_r shr_s]; split;
        destruct (Z.leb_spec (2 * (a - r) + b) (2 * a));
        destruct (Z.eqb_spec a (a - r));
        destruct (Z.eqb_spec (2 * a) (2 * (a - r) + b));
        simpl; try reflexivity; lia.
  - assert (b <> 2 * r) as Hodd.
    { intros E. rewrite E, Z.even_mul in Hev. discriminate Hev. }
    destruct (Z.eqb_spec r 0) as [-> | Hr0].
    + cbn [shr_record_of_loc shr_r shr_s]. split.
      * symmetry. apply Z.leb_gt. lia.
      * replace (a =? a - 0) with true by (symmetry; apply Z.eqb_eq; lia). reflexivity.
    + destruct (Z.compare_spec (2 * r + 1) b); cbn [shr_record_of_loc shr_r shr_s]; split;
        destruct (Z.leb_spec (2 * (a - r) + b) (2 * a));
        destruct (Z.eqb_spec a (a - r));
        destruct (Z.eqb_spec (2 * a) (2 * (a - r) + b));
        simpl; try reflexivity; lia.
Qed.

(** What [SFdiv_core_binary] returns stands for the exact quotient of the
    mantissas, the dividend scaled by a power of two. *)
Lemma SFdiv_core_binary_stands_for m1 e1 m2 e2 :
  let '(q, e', l) := SFdiv_core_binary prec emax (Zpos m1) e1 (Zpos m2) e2 in
  exists s, 0 <= s /\ e' = e1 - e2 - s
    /\ stands_for (shr_record_of_loc q l) (Zpos m1 * 2 ^ s) (Zpos m2).
Proof.
  unfold SFdiv_core_binary.
  set (e' := IntDef.Z.min _ _).
  assert (e' <= e1 - e2) as He'.
  { unfold e'. change IntDef.Z.min with Z.min. change IntDef.Z.sub with Z.sub. lia. }
  change (IntDef.Z.sub (IntDef.Z.sub e1 e2) e') with (e1 - e2 - e').
  set (s := e1 - e2 - e') in *.
  assert (0 <= s) as Hs by lia.
  set (m' := match s with Zpos _ => _ | Z0 => _ | Zneg _ => _ end).
  assert (m' = Zpos m1 * 2 ^ s) as Hm'.
  { unfold m'. destruct s as [|p|p]; [simpl; lia | | lia].
    change (IntDef.Z.shiftl (Zpos m1) (Zpos p)) with (Z.shiftl (Zpos m1) (Zpos p)).
    apply Z.shiftl_mul_pow2. lia. }
  change (IntDef.Z.div_eucl m' (Zpos m2)) with (Z.div_eucl m' (Zpos m2)).
  pose proof (Z_div_mod m' (Zpos m2) eq_refl) as Hdiv.
  destruct (Z.div_eucl m' (Zpos m2)) as [q r]. destruct Hdiv as [Hdiv Hr].
  exists s. split; [assumption|]. split; [lia|].
  pose proof (Z.pow_pos_nonneg 2 s ltac:(lia) Hs) as Hp.
  rewrite <- Hm'. apply stands_for_quotient; lia.
Qed.

End Binary64Rounding.

(** ** Binary64: relative error of products and quotients

    A product or quotient of finite Numbers above zero that comes out as a
    normal number is within [2 ^ -52] of the exact product or quotient,
    relatively. *)

Module Binary64Error.
Import JSNumberFacts App AppFacts Binary64Facts Binary64Rounding.

Local Open Scope Q_scope.

(** The rational a [spec_float] denotes (zero for what denotes none). *)
Definition value (x : spec_float) : Q :=
  match x with
  | S754_finite s m e => (if s then -1 else 1) * (inject_Z (Zpos m) * 2 ^ e)
  | _ => 0
  end.

(** A normal number above zero: a finite one with a full mantissa. *)
Definition normal (x : spec_float) : bool :=
  match x with
  | S754_finite false m _ => (Zpos (digits2_pos m) =? 53)%Z
  | _ => false
  end.

(** [2 ^ -52]: the bound on the relative error of one rounding. *)
Definition eps : Q := 1 # 4503599627370496.

Lemma scaled_error (P A : Z) (c : Q) :
  0 <= c -> (2 ^ 52 * Z.abs (P - A) <= A)%Z ->
  (1 - eps) * (inject_Z A * c) <= inject_Z P * c <= (1 + eps) * (inject_Z A * c).
Proof.
  intros Hc H. change (2 ^ 52)%Z with 4503599627370496%Z in H.
  assert (4503599627370496 * P <= 4503599627370497 * A)%Z as H1 by lia.
  assert (4503599627370495 * A <= 4503599627370496 * P)%Z as H2 by lia.
  rewrite Zle_Qle in H1, H2. rewrite !inject_Z_mult in H1, H2.
  set (a := inject_Z A) in *. set (p := inject_Z P) in *.
  change (inject_Z 4503599627370496) with (4503599627370496 # 1) in *.
  change (inject_Z 4503599627370497) with (4503599627370497 # 1) in *.
  change (inject_Z 4503599627370495) with (4503599627370495 # 1) in *.
  unfold eps.
  assert ((1 - (1 # 4503599627370496)) * a <= p) as L1 by lra.
  assert (p <= (1 + (1 # 4503599627370496)) * a) as L2 by lra.
  split.
  - setoid_replace ((1 - (1 # 4503599627370496)) * (a * c))
      with (((1 - (1 # 4503599627370496)) * a) * c) by ring.
    now apply Qmult_le_compat_r.
  - setoid_replace ((1 + (1 # 4503599627370496)) * (a * c))
      with (((1 + (1 # 4503599627370496)) * a) * c) by ring.
    now apply Qmult_le_compat_r.
Qed.

Lemma pow2_pos (e : Z) : 0 < 2 ^ e.
Proof. apply Qpower_0_lt. reflexivity. Qed.

Lemma pow2_split (a b : Z) : 2 ^ (a + b) == 2 ^ a * 2 ^ b.
Proof. apply Qpower_plus. discriminate. Qed.

Lemma pow2_inject (n : Z) : (0 <= n)%Z -> inject_Z (2 ^ n) == 2 ^ n.
Proof. intros Hn. now rewrite Zpower_Qpower. Qed.

(** One product, rounded to a normal number. *)
Lemma SFmul_error x y :
  finite_above_zero x = true -> finite_above_zero y = true ->
  normal (SFmul prec emax x y) = true ->
  (1 - eps) * (value x * value y) <= value (SFmul prec emax x y)
  <= (1 + eps) * (value x * value y).
Proof.
  destruct x as [[]|[]| |[] mx ex]; try discriminate;
    destruct y as [[]|[]| |[] my ey]; try discriminate.
  intros _ _. cbn [SFmul xorb].
  destruct (binary_round_aux prec emax false (Zpos (mx * my)) (ex + ey) loc_Exact)
    as [[]|[]| |[] mz ez] eqn:Hz; try discriminate.
  cbn [normal]. intros Hn. apply Z.eqb_eq in Hn.
  destruct (binary_round_aux_error _ _ _ (Zpos (mx * my)) 1 mz ez eq_refl
              (stands_for_exact (Zpos (mx * my)) (Pos2Z.is_nonneg _)) Hz Hn)
    as [He Herr].
  rewrite Z.mul_1_r in Herr.
  pose proof (scaled_error _ _ (2 ^ (ex + ey)) (Qlt_le_weak _ _ (pow2_pos _)) Herr) as H.
  cbn [value]. rewrite !Qmult_1_l.
  setoid_replace (inject_Z (Zpos mx) * 2 ^ ex * (inject_Z (Zpos my) * 2 ^ ey))
    with (inject_Z (Zpos (mx * my)) * 2 ^ (ex + ey))
    by (rewrite pow2_split, Pos2Z.inj_mul, inject_Z_mult; ring).
  setoid_replace (inject_Z (Zpos mz) * 2 ^ ez)
    with (inject_Z (Zpos mz * 2 ^ (ez - (ex + ey))) * 2 ^ (ex + ey)).
  - exact H.
  - rewrite inject_Z_mult, pow2_inject by lia.
    rewrite <- Qmult_assoc, <- pow2_split.
    now replace (ez - (ex + ey) + (ex + ey))%Z with ez by lia.
Qed.

(** One quotient, rounded to a normal number. *)
Lemma SFdiv_error x y :
  finite_above_zero x = true -> finite_above_zero y = true ->
  normal (SFdiv prec emax x y) = true ->
  (1 - eps) * value x <= value (SFdiv prec emax x y) * value y
  <= (1 + eps) * value x.
Proof.
  destruct x as [[]|[]| |[] mx ex]; try discriminate;
    destruct y as [[]|[]| |[] my ey]; try discriminate.
  intros _ _. cbn [SFdiv xorb].
  pose proof (SFdiv_core_binary_stands_for mx ex my ey) as Hcore.
  destruct (SFdiv_core_binary prec emax (Zpos mx) ex (Zpos my) ey) as [[q e'] l].
  destruct Hcore as (s & Hs & He' & Hst).
  destruct (binary_round_aux prec emax false q e' l)
    as [[]|[]| |[] mz ez] eqn:Hz; try discriminate.
  cbn [normal]. intros Hn. apply Z.eqb_eq in Hn.
  destruct (binary_round_aux_error _ _ _ _ _ mz ez (Pos2Z.is_pos my) Hst Hz Hn)
    as [He Herr].
  pose proof (scaled_error _ _ (2 ^ (ex - s)) (Qlt_le_weak _ _ (pow2_pos _)) Herr) as H.
  cbn [value]. rewrite !Qmult_1_l.
  setoid_replace (inject_Z (Zpos mx) * 2 ^ ex)
    with (inject_Z (Zpos mx * 2 ^ s) * 2 ^ (ex - s)).
  - setoid_replace (inject_Z (Zpos mz) * 2 ^ ez * (inject_Z (Zpos my) * 2 ^ ey))
      with (inject_Z (Zpos mz * 2 ^ (ez - e') * Zpos my) * 2 ^ (ex - s)).
    + exact H.
    + rewrite !inject_Z_mult, pow2_inject by lia.
      replace ez with ((ez - e') + e')%Z at 1 by lia.
      replace (ex - s)%Z with (e' + ey)%Z by lia.
      rewrite !pow2_split. ring.
  - rewrite inject_Z_mult, pow2_inject by lia.
    rewrite <- Qmult_assoc, <- pow2_split.
    now replace (s + (ex - s))%Z with ex by lia.
Qed.

(** *** On the primitive floats *)

Definition valueOf (x : float) : Q := value (Prim2SF x).

Definition isNormal (x : float) : bool := normal (Prim2SF x).

Lemma isNormal_finite_above_zero x :
  isNormal x = true -> finite_above_zero (Prim2SF x) = true.
Proof. unfold isNormal. now destruct (Prim2SF x) as [[]|[]| |[] m e]. Qed.

Lemma valueOf_pos x : finite_above_zero (Prim2SF x) = true -> 0 < valueOf x.
Proof.
  unfold valueOf. destruct (Prim2SF x) as [[]|[]| |[] m e]; try discriminate.
  intros _. cbn [value]. rewrite Qmult_1_l.
  apply Qmult_lt_0_compat; [reflexivity | apply pow2_pos].
Qed.

Lemma mul_error (x y : float) :
  finite_above_zero (Prim2SF x) = true -> finite_above_zero (Prim2SF y) = true ->
  isNormal (x * y)%float = true ->
  (1 - eps) * (valueOf x * valueOf y) <= valueOf (x * y)%float
  <= (1 + eps) * (valueOf x * valueOf y).
Proof. unfold isNormal, valueOf. rewrite mul_spec. apply SFmul_error. Qed.

Lemma div_error (x y : float) :
  finite_above_zero (Prim2SF x) = true -> finite_above_zero (Prim2SF y) = true ->
  isNormal (x / y)%float = true ->
  (1 - eps) * valueOf x <= valueOf (x / y)%float * valueOf y
  <= (1 + eps) * valueOf x.
Proof. unfold isNormal, valueOf. rewrite div_spec. apply SFdiv_error. Qed.

(** A normal quotient of a finite dividend above zero by a divisor that
    is not negative: the divisor is finite and above zero. *)
Lemma normal_quotient_divisor (x y : float) :
  finite_above_zero (Prim2SF x) = true -> nonnegative (Prim2SF y) = true ->
  isNormal (x / y)%float = true -> finite_above_zero (Prim2SF y) = true.
Proof.
  unfold isNormal. rewrite div_spec.
  destruct (Prim2SF x) as [[]|[]| |[] mx ex]; try discriminate.
  now destruct (Prim2SF y) as [[]|[]| |[] my ey].
Qed.

(** *** The round trip and the two routes to the efficiency factor *)

(** [2 ^ -50] and [2 ^ -49]: room for two and for four roundings. *)
Definition eps2 : Q := 1 # 1125899906842624.
Definition eps4 : Q := 1 # 562949953421312.

Lemma round_trip_error (s : Signals) (r : Results float) (Cf : float) :
  results s = Some r -> fuelPriceNum s = Some Cf ->
  isNormal (evFuelEquivalent r) = true ->
  isNormal (evFuelEquivalent r * electricCostPerDist r)%float = true ->
  (1 - eps2) * valueOf Cf
  <= valueOf (evFuelEquivalent r * electricCostPerDist r)%float
  <= (1 + eps2) * valueOf Cf.
Proof.
  intros Hr Hf Hn1 Hn2.
  destruct (results_signs s r Hr) as (_ & Hc & _).
  apply results_inv in Hr as (Ce & E & Cf' & _ & _ & Hf' & ->).
  rewrite Hf' in Hf. injection Hf as ->.
  apply parsed_finite_above_zero in Hf'.
  cbn [evFuelEquivalent electricCostPerDist] in *.
  set (ecpd := div Ce (mul E CHARGING_EFFICIENCY)) in *.
  change (div Cf ecpd) with (Cf / ecpd)%float in *.
  pose proof (normal_quotient_divisor Cf ecpd Hf' Hc Hn1) as He.
  pose proof (div_error Cf ecpd Hf' He Hn1) as H1.
  pose proof (mul_error (Cf / ecpd)%float ecpd
                (isNormal_finite_above_zero _ Hn1) He Hn2) as H2.
  pose proof (valueOf_pos Cf Hf') as Hpos.
  set (W := valueOf (Cf / ecpd)%float * valueOf ecpd) in *.
  unfold eps, eps2 in *. lra.
Qed.

(** Four roundings, two on each route, compared through the exact
    quotient they both approximate. *)
Lemma two_routes (a b g f c i k : Q) :
  0 < c -> 0 < i -> 0 < k ->
  (1 - eps) * c <= g * i <= (1 + eps) * c ->
  (1 - eps) * g <= a * k <= (1 + eps) * g ->
  (1 - eps) * c <= f * k <= (1 + eps) * c ->
  (1 - eps) * f <= b * i <= (1 + eps) * f ->
  (1 - eps4) * b <= a <= (1 + eps4) * b.
Proof.
  intros Hc Hi Hk [G1 G2] [A1 A2] [F1 F2] [B1 B2].
  assert (0 < k * i) as Hki by now apply Qmult_lt_0_compat.
  (* both routes times [k * i], between bounds in [c] *)
  assert ((1 - eps) * (g * i) <= a * (k * i) <= (1 + eps) * (g * i)) as [A1' A2'].
  { split.
    - setoid_replace ((1 - eps) * (g * i)) with (((1 - eps) * g) * i) by ring.
      setoid_replace (a * (k * i)) with ((a * k) * i) by ring.
      apply Qmult_le_compat_r; [assumption | now apply Qlt_le_weak].
    - setoid_replace ((1 + eps) * (g * i)) with (((1 + eps) * g) * i) by ring.
      setoid_replace (a * (k * i)) with ((a * k) * i) by ring.
      apply Qmult_le_compat_r; [assumption | now apply Qlt_le_weak]. }
  assert ((1 - eps) * (f * k) <= b * (k * i) <= (1 + eps) * (f * k)) as [B1' B2'].
  { split.
    - setoid_replace ((1 - eps) * (f * k)) with (((1 - eps) * f) * k) by ring.
      setoid_replace (b * (k * i)) with ((b * i) * k) by ring.
      apply Qmult_le_compat_r; [assumption | now apply Qlt_le_weak].
    - setoid_replace ((1 + eps) * (f * k)) with (((1 + eps) * f) * k) by ring.
      setoid_replace (b * (k * i)) with ((b * i) * k) by ring.
      apply Qmult_le_compat_r; [assumption | now apply Qlt_le_weak]. }
  set (X := a * (k * i)) in *. set (Y := b * (k * i)) in *.
  set (GI := g * i) in *. set (FK := f * k) in *.
  assert ((1 - eps4) * Y <= X <= (1 + eps4) * Y) as [L U]
    by (unfold eps, eps4 in *; split; lra).
  unfold X, Y in L, U. split.
  - apply Qmult_le_r with (k * i); [assumption|].
    now setoid_replace ((1 - eps4) * b * (k * i)) with ((1 - eps4) * (b * (k * i))) by ring.
  - apply Qmult_le_r with (k * i); [assumption|].
    now setoid_replace ((1 + eps4) * b * (k * i)) with ((1 + eps4) * (b * (k * i))) by ring.
Qed.

Lemma efficiency_factor_error
      (s : Signals) (r : Results float) (c : Comparison float) (ice : float) :
  unitSystem s = US ->
  results s = Some r -> comparison s = Some c -> iceEfficiencyNum s = Some ice ->
  isNormal (gasCostPerDist c) = true ->
  isNormal (efficiencyFactor c) = true ->
  isNormal (evFuelEquivalent r) = true ->
  isNormal (evFuelEquivalent r / ice)%float = true ->
  (1 - eps4) * valueOf (evFuelEquivalent r / ice)%float
  <= valueOf (efficiencyFactor c)
  <= (1 + eps4) * valueOf (evFuelEquivalent r / ice)%float.
Proof.
  intros Hu Hr Hc Hi Ng Na Nf Nb.
  destruct (results_signs s r Hr) as (_ & Hk & _).
  apply comparison_inv in Hc as (base & i & Cf & Hr' & Hi' & Hf & ->).
  rewrite Hr' in Hr. injection Hr as ->.
  rewrite Hi' in Hi. injection Hi as ->.
  pose proof Hr' as Hr''.
  apply results_inv in Hr'' as (Ce & E & Cf' & _ & _ & Hf' & ->).
  rewrite Hf' in Hf. injection Hf as ->.
  apply parsed_finite_above_zero in Hf'.
  apply iceEfficiencyNum_Some, parsed_finite_above_zero in Hi'.
  rewrite Hu in *. unfold gasCost in *.
  cbn [gasCostPerDist efficiencyFactor evFuelEquivalent electricCostPerDist] in *.
  set (ecpd := div Ce (mul E CHARGING_EFFICIENCY)) in *.
  change (div ?x ?y) with (x / y)%float in *.
  pose proof (normal_quotient_divisor Cf ecpd Hf' Hk Nf) as He.
  apply (two_routes _ _ (valueOf (Cf / ice)%float) (valueOf (Cf / ecpd)%float)
           (valueOf Cf) (valueOf ice) (valueOf ecpd)).
  - now apply valueOf_pos.
  - now apply valueOf_pos.
  - now apply valueOf_pos.
  - now apply div_error.
  - apply div_error; [now apply isNormal_finite_above_zero | assumption..].
  - now apply div_error.
  - apply div_error; [now apply isNormal_finite_above_zero | assumption..].
Qed.

End Binary64Error.

(** ** The calculator on binary64 Numbers: what the program computes *)

Module Binary64Theorems.
Import JSNumberFacts App AppFacts.

Local Open Scope float_scope.

(** Two floats that [=?] tells apart are different. *)
Lemma float_neq (x y : float) : (x =? y) = false -> (y =? y) = true -> x <> y.
Proof. intros H1 H2 E. rewrite E in H1. congruence. Qed.

(** C5.  For every input text, [parsePositiveNumber] returns the Number
    the text parses to when that Number is finite and strictly greater
    than zero, and the absent value otherwise; empty and white-space-only
    texts yield the absent value, from [parsePositiveNumber] and from the
    memo of the optional gas-car field alike. *)
Theorem parsePositiveNumber_finite_positive :
  forall value : JSString.t,
    let n : float := Number value in
    parsePositiveNumber value
    = (if isFinite n && (0 <? n) then Some n else None)
    /\ (forallb isWhiteSpace value = true ->
        parsePositiveNumber (num := float) value = None)
    /\ (forall s : Signals,
          iceEfficiency s = value -> forallb isWhiteSpace value = true ->
          iceEfficiencyNum (num := float) s = None).
Proof.
  intros value n. split; [|split].
  - exact (parsePositiveNumber_eq (num := float) value).
  - apply parsePositiveNumber_blank.
  - intros s <-. apply iceEfficiencyNum_blank.
Qed.

(** C3.  The derivation is absent exactly when one of the three required
    inputs fails to parse, and the comparison is absent exactly when the
    derivation is absent or the gas-car efficiency is absent or fails to
    parse; a text fails to parse exactly when its Number is NaN, infinite,
    or at most zero, as non-numeric, infinite, zero, negative and empty
    texts are.  A result is a whole record or absent: no field is
    populated alone. *)
Theorem absent_input_absent_result :
  forall s : Signals,
    (results (num := float) s = None <->
       electricityCostNum (num := float) s = None
       \/ efficiencyNum (num := float) s = None
       \/ fuelPriceNum (num := float) s = None)
    /\ (comparison (num := float) s = None <->
          results (num := float) s = None
          \/ iceEfficiencyNum (num := float) s = None)
    /\ (forall value : JSString.t,
          parsePositiveNumber (num := float) value = None <->
          PrimFloat.is_nan (Number value) = true
          \/ PrimFloat.is_infinity (Number value) = true
          \/ (Number value <=? 0) = true)
    /\ map (fun text => parsePositiveNumber (num := float) (lit text))
           ["abc"; "Infinity"; "-Infinity"; "0"; "-1"; ""; "  "]%string
       = [None; None; None; None; None; None; None].
Proof.
  intros s. split; [apply results_None|]. split; [apply comparison_None|].
  split; [|reflexivity].
  intros value. unfold parsePositiveNumber. cbv zeta.
  generalize (Number (num := float) value) as n. intros n.
  change (literal (num := float) 0 0) with 0.
  cbn [isFinite leb Binary64].
  destruct (PrimFloat.is_nan n), (PrimFloat.is_infinity n), (n <=? 0);
    simpl; intuition (try discriminate; auto).
Qed.

(** C4.  For a present derivation, a present gas-car efficiency and a
    present fuel price, the comparison is present, with the cost of gas
    per distance [fuelPrice / iceEfficiency] in the US system and
    [(fuelPrice * iceEfficiency) / 100] in the metric one, the savings
    that cost less the electric cost, the percentage
    [(savings / gas cost) * 100] when the gas cost is above zero and 0
    otherwise, and the efficiency factor the gas cost over the electric
    cost. *)
Theorem comparison_formulas :
  forall (s : Signals) (base : Results float) (IceEffInput Cf : float),
    results s = Some base ->
    iceEfficiencyNum s = Some IceEffInput ->
    fuelPriceNum s = Some Cf ->
    exists c : Comparison float,
      comparison s = Some c
      /\ gasCostPerDist c
         = match unitSystem s with
           | US => Cf / IceEffInput
           | METRIC => (Cf * IceEffInput) / 100
           end
      /\ savingsPerDist c = gasCostPerDist c - electricCostPerDist base
      /\ percentSavings c
         = (if 0 <? gasCostPerDist c
            then (savingsPerDist c / gasCostPerDist c) * 100
            else 0)
      /\ efficiencyFactor c = gasCostPerDist c / electricCostPerDist base.
Proof.
  intros s base i Cf Hr Hi Hf.
  eexists. split; [exact (comparison_Some s base i Cf Hr Hi Hf)|].
  simpl. unfold gasCost. destruct (unitSystem s); repeat split.
Qed.

Lemma comparison_formulas_witness :
  exists c : Comparison float,
    comparison scenario = Some c
    /\ gasCostPerDist c = 4 / 30
    /\ gasCostPerDist c = 0.13333333333333333
    /\ efficiencyFactor c = (4 / 30) / (0.12 / (3.5 * 0.9)).
Proof.
  destruct (comparison_formulas scenario _ _ _ eq_refl eq_refl eq_refl)
    as (c & Hc & Hg & Hs & Hp & He).
  exists c. split; [exact Hc|]. split; [exact Hg|]. split; [exact Hg|].
  rewrite He, Hg. reflexivity.
Defined.

(** The derivation of the scenario, in binary64: the fuel-equivalent
    efficiency is one unit in the last place above 105. *)
Lemma scenario_fuel_equivalent_is_not_105 :
  exists r : Results float,
    results scenario = Some r
    /\ evFuelEquivalent r = 105.00000000000001
    /\ evFuelEquivalent r <> 105.
Proof.
  eexists. split; [reflexivity|]. split; [reflexivity|].
  apply float_neq; reflexivity.
Qed.

(** C1, amended.  For every triple of present inputs the derivation is
    present, with the effective efficiency the raw efficiency times 0.90,
    the electric cost per distance the electricity cost over the
    effective efficiency, and the fuel-equivalent efficiency the fuel
    price over that cost, each operation rounded to binary64.  For 0.12,
    3.5 and 4.00 this is 3.15, 0.12/3.15 (0.038095238095238092) and
    105.00000000000001; the fuel-equivalent efficiency is 105 exactly
    in exact arithmetic. *)
Theorem results_formulas :
  (forall (s : Signals) (Ce E_raw Cf : float),
     electricityCostNum s = Some Ce ->
     efficiencyNum s = Some E_raw ->
     fuelPriceNum s = Some Cf ->
     results s
     = Some {| electricCostPerDist := Ce / (E_raw * 0.9);
               evFuelEquivalent := Cf / (Ce / (E_raw * 0.9));
               rawEfficiency := E_raw;
               effectiveEfficiency := E_raw * 0.9 |})
  /\ results scenario
     = Some {| electricCostPerDist := 0.12 / 3.15;
               evFuelEquivalent := 105.00000000000001;
               rawEfficiency := 3.5;
               effectiveEfficiency := 3.15 |}
  /\ option_map evFuelEquivalent (results (num := exact) scenario)
     = Some (Fin (Q2Qc 105)).
Proof.
  split; [|split].
  - intros s Ce E Cf H1 H2 H3.
    exact (results_Some (num := float) s Ce E Cf H1 H2 H3).
  - reflexivity.
  - simpl. do 2 f_equal. apply Qc_is_canon. reflexivity.
Qed.

End Binary64Theorems.

(** ** The calculator in exact arithmetic: the algebra of the formulas *)

Module ExactFacts.
Import JSNumberFacts App AppFacts.

Local Open Scope Qc_scope.

Definition c090 : Qc := Q2Qc (9 # 10).
Definition c100 : Qc := Q2Qc (100 # 1).

Lemma literal_0 : literal (num := exact) 0 0 = Fin 0.
Proof. unfold literal. simpl. f_equal; try now apply Q2Qc_eq_iff. Qed.

Lemma literal_090 : CHARGING_EFFICIENCY (num := exact) = Fin c090.
Proof. unfold CHARGING_EFFICIENCY, literal. simpl. f_equal; try now apply Q2Qc_eq_iff. Qed.

Lemma literal_100 : literal (num := exact) 100 0 = Fin c100.
Proof. unfold literal. simpl. f_equal; try now apply Q2Qc_eq_iff. Qed.

Lemma Qc_pos_iff (a : Qc) : 0 < a <-> (0 < a)%Q.
Proof. reflexivity. Qed.

Lemma Qc_pos_mul (a b : Qc) : 0 < a -> 0 < b -> 0 < a * b.
Proof.
  rewrite !Qc_pos_iff. intros Ha Hb. unfold Qcmult, Q2Qc. cbn [this].
  rewrite Qred_correct. now apply Qmult_lt_0_compat.
Qed.

Lemma Qc_pos_inv (a : Qc) : 0 < a -> 0 < / a.
Proof.
  rewrite !Qc_pos_iff. intros Ha. unfold Qcinv, Q2Qc. cbn [this].
  rewrite Qred_correct. now apply Qinv_lt_0_compat.
Qed.

Lemma Qc_pos_div (a b : Qc) : 0 < a -> 0 < b -> 0 < a / b.
Proof. intros Ha Hb. apply Qc_pos_mul; [assumption | now apply Qc_pos_inv]. Qed.

Lemma Qc_pos_neq (a : Qc) : 0 < a -> a <> 0.
Proof. intros Ha E. subst a. now apply (Qlt_irrefl 0). Qed.

Lemma Qc_pos_isZero (a : Qc) : 0 < a -> isZero a = false.
Proof.
  intros Ha. unfold isZero. destruct (Qeq_bool a 0) eqn:E; [|reflexivity].
  apply Qeq_bool_iff in E. unfold Qclt in Ha. rewrite E in Ha.
  now apply Qlt_irrefl in Ha.
Qed.

Lemma c090_pos : 0 < c090.
Proof. reflexivity. Qed.

Lemma c100_pos : 0 < c100.
Proof. reflexivity. Qed.

(** A Number that is finite and above zero. *)
Definition positive (x : exact) : Prop := exists q : Qc, x = Fin q /\ 0 < q.

Lemma positive_intro (q : Qc) : 0 < q -> positive (Fin q).
Proof. intros Hq. now exists q. Qed.

Lemma parse_positive value n :
  parsePositiveNumber (num := exact) value = Some n -> positive n.
Proof.
  intros Hp. apply parsePositiveNumber_Some in Hp as (_ & Hf & Hl).
  destruct n as [| s | q]; try discriminate.
  exists q. split; [reflexivity|].
  unfold zero in Hl. rewrite literal_0 in Hl. simpl in Hl.
  apply Qcnot_le_lt. intros Hle. apply Qle_bool_iff in Hle.
  exact (eq_true_false_abs _ Hle Hl).
Qed.

Lemma div_positive (p q : Qc) : 0 < q -> div (Fin p) (Fin q) = Fin (p / q).
Proof. intros Hq. simpl. now rewrite (Qc_pos_isZero _ Hq). Qed.

(** The derivation, for the rationals the three inputs parse to. *)
Definition derivation (Ce E_raw Cf : Qc) : Results exact :=
  {| electricCostPerDist := Fin (Ce / (E_raw * c090));
     evFuelEquivalent := Fin (Cf / (Ce / (E_raw * c090)));
     rawEfficiency := Fin E_raw;
     effectiveEfficiency := Fin (E_raw * c090) |}.

Lemma results_exact s r :
  results (num := exact) s = Some r ->
  exists Ce E_raw Cf : Qc,
    0 < Ce /\ 0 < E_raw /\ 0 < Cf
    /\ electricityCostNum s = Some (Fin Ce)
    /\ efficiencyNum s = Some (Fin E_raw)
    /\ fuelPriceNum s = Some (Fin Cf)
    /\ r = derivation Ce E_raw Cf.
Proof.
  intros Hr. apply results_inv in Hr as (Ce & E & Cf & H1 & H2 & H3 & ->).
  destruct (parse_positive _ _ H1) as (qe & -> & Hqe).
  destruct (parse_positive _ _ H2) as (qr & -> & Hqr).
  destruct (parse_positive _ _ H3) as (qf & -> & Hqf).
  exists qe, qr, qf. repeat (split; [assumption|]).
  unfold derivation. rewrite literal_090.
  change (mul (Fin qr) (Fin c090)) with (Fin (qr * c090)).
  assert (0 < qr * c090) as He by (apply Qc_pos_mul; [assumption | apply c090_pos]).
  rewrite (div_positive qe _ He).
  assert (0 < qe / (qr * c090)) as Hc by now apply Qc_pos_div.
  now rewrite (div_positive qf _ Hc).
Qed.

Definition gasCostQ (u : UnitSystem) (Cf ice : Qc) : Qc :=
  match u with
  | US => Cf / ice
  | METRIC => (Cf * ice) / c100
  end.

Lemma gasCostQ_pos u Cf ice : 0 < Cf -> 0 < ice -> 0 < gasCostQ u Cf ice.
Proof.
  intros Hf Hi. destruct u; simpl.
  - now apply Qc_pos_div.
  - apply Qc_pos_div; [now apply Qc_pos_mul | apply c100_pos].
Qed.

Lemma gasCost_exact u Cf ice :
  0 < Cf -> 0 < ice ->
  gasCost u (Fin Cf) (Fin ice) = Fin (gasCostQ u Cf ice).
Proof.
  intros Hf Hi. destruct u; unfold gasCost, gasCostQ.
  - now apply div_positive.
  - rewrite literal_100. change (mul (Fin Cf) (Fin ice)) with (Fin (Cf * ice)).
    apply div_positive, c100_pos.
Qed.

(** The comparison, for the rationals the inputs parse to. *)
Definition comparing (u : UnitSystem) (Ce E_raw Cf ice : Qc) : Comparison exact :=
  let gas := gasCostQ u Cf ice in
  let electric := Ce / (E_raw * c090) in
  {| gasCostPerDist := Fin gas;
     efficiencyDisplay := Fin ice;
     savingsPerDist := Fin (gas - electric);
     percentSavings := Fin (((gas - electric) / gas) * c100);
     efficiencyFactor := Fin (gas / electric) |}.

Lemma comparison_exact s c :
  comparison (num := exact) s = Some c ->
  exists Ce E_raw Cf ice : Qc,
    0 < Ce /\ 0 < E_raw /\ 0 < Cf /\ 0 < ice
    /\ results s = Some (derivation Ce E_raw Cf)
    /\ iceEfficiencyNum s = Some (Fin ice)
    /\ fuelPriceNum s = Some (Fin Cf)
    /\ c = comparing (unitSystem s) Ce E_raw Cf ice.
Proof.
  intros Hc.
  apply comparison_inv in Hc as (base & i & Cf' & Hr & Hi & Hf & ->).
  destruct (results_exact _ _ Hr) as (Ce & E & Cf & HCe & HE & HCf & _ & _ & Hf' & ->).
  rewrite Hf' in Hf. injection Hf as <-.
  destruct (parse_positive _ _ (iceEfficiencyNum_Some _ _ Hi)) as (ice & -> & Hice).
  exists Ce, E, Cf, ice. repeat (split; [assumption|]).
  unfold comparing. rewrite (gasCost_exact _ _ _ HCf Hice).
  pose proof (gasCostQ_pos (unitSystem s) _ _ HCf Hice) as Hg.
  assert (0 < Ce / (E * c090)) as Hel
    by (apply Qc_pos_div; [assumption | apply Qc_pos_mul; [assumption | apply c090_pos]]).
  unfold zero. rewrite literal_0, literal_100. cbn [derivation electricCostPerDist].
  change (sub (Fin ?a) (Fin ?b)) with (Fin (a - b)).
  rewrite !(div_positive _ _ Hg), (div_positive _ _ Hel).
  replace (ltb (Fin 0) (Fin (gasCostQ (unitSystem s) Cf ice))) with true.
  - reflexivity.
  - symmetry. simpl. apply negb_true_iff.
    destruct (Qle_bool _ _) eqn:Hle; [|reflexivity].
    apply Qle_bool_iff in Hle. now apply Qlt_not_le in Hg.
Qed.

End ExactFacts.

(** ** Algebraic properties: exact in exact arithmetic, lost to rounding,
    underflow and overflow in binary64 *)

Module AlgebraTheorems.
Import JSNumberFacts App AppFacts Binary64Facts Binary64Error ExactFacts.
Import Binary64Theorems.

Local Open Scope float_scope.

(** In binary64 the electric cost per distance of [underflowing] rounds
    to zero, the fuel-equivalent efficiency is infinite, and their product
    is NaN: within no tolerance of the fuel price 4. *)
Lemma round_trip_lost_to_underflow :
  results underflowing
  = Some {| electricCostPerDist := 0;
            evFuelEquivalent := infinity;
            rawEfficiency := 10;
            effectiveEfficiency := 9 |}
  /\ fuelPriceNum underflowing = Some 4
  /\ option_map (fun r => evFuelEquivalent r * electricCostPerDist r)
                (results underflowing)
     = Some nan.
Proof. repeat apply conj; vm_compute; reflexivity. Qed.

(** C2, amended.  In exact arithmetic, for every triple of present
    inputs, the fuel-equivalent efficiency times the electric cost per
    distance is the fuel price.  In binary64, for every triple of present
    inputs for which the fuel-equivalent efficiency and the product are
    normal numbers (nothing underflowed, nothing overflowed), the product
    is within [2 ^ -50] of the fuel price, relatively; it is exactly the
    fuel price 4 on the scenario, and one unit in the last place off the
    fuel price 3 for the inputs 0.12, 3 and 3.00. *)
Theorem round_trip :
  (forall (s : Signals) (r : Results exact) (Cf : exact),
     results s = Some r -> fuelPriceNum s = Some Cf ->
     mul (evFuelEquivalent r) (electricCostPerDist r) = Cf)
  /\ (forall (s : Signals) (r : Results float) (Cf : float),
        results s = Some r -> fuelPriceNum s = Some Cf ->
        isNormal (evFuelEquivalent r) = true ->
        isNormal (evFuelEquivalent r * electricCostPerDist r) = true ->
        ((1 - eps2) * valueOf Cf
         <= valueOf (evFuelEquivalent r * electricCostPerDist r)
         <= (1 + eps2) * valueOf Cf)%Q)
  /\ option_map (fun r => evFuelEquivalent r * electricCostPerDist r)
                (results (num := float) scenario)
     = Some 4
  /\ option_map (fun r => evFuelEquivalent r * electricCostPerDist r)
                (results (num := float) roundingTrip)
     = Some 3.0000000000000004.
Proof.
  split; [|split; [exact round_trip_error | split; vm_compute; reflexivity]].
  intros s r Cf Hr Hf.
  destruct (results_exact _ _ Hr) as (qe & qr & qf & He & Hq & Hqf & _ & _ & Hf' & ->).
  rewrite Hf' in Hf. injection Hf as <-. simpl. f_equal.
  rewrite Qcmult_comm. apply Qcmult_div_r, Qc_pos_neq, Qc_pos_div;
    [assumption | apply Qc_pos_mul; [assumption | apply c090_pos]].
Qed.

Lemma round_trip_witness :
  (exists (r : Results exact) (Cf : exact),
     results scenario = Some r /\ fuelPriceNum scenario = Some Cf
     /\ mul (evFuelEquivalent r) (electricCostPerDist r) = Cf)
  /\ (exists (r : Results float) (Cf : float),
        results rounding = Some r /\ fuelPriceNum rounding = Some Cf
        /\ isNormal (evFuelEquivalent r) = true
        /\ isNormal (evFuelEquivalent r * electricCostPerDist r) = true
        /\ ((1 - eps2) * valueOf Cf
            <= valueOf (evFuelEquivalent r * electricCostPerDist r)
            <= (1 + eps2) * valueOf Cf)%Q).
Proof.
  split.
  - do 2 eexists. split; [reflexivity|]. split; [reflexivity|].
    exact (proj1 round_trip scenario _ _ eq_refl eq_refl).
  - do 2 eexists. split; [reflexivity|]. split; [reflexivity|].
    split; [reflexivity|]. split; [reflexivity|].
    exact (proj1 (proj2 round_trip) rounding _ _ eq_refl eq_refl eq_refl eq_refl).
Defined.

(** In binary64 the electric cost per distance of [underflowing] is zero,
    and the fuel price is divided by it: the fuel-equivalent efficiency
    is infinite, and so is the efficiency factor. *)
Lemma division_by_underflowed_cost :
  option_map electricCostPerDist (results (num := float) underflowing) = Some 0
  /\ option_map evFuelEquivalent (results (num := float) underflowing)
     = Some (4 / 0)
  /\ 4 / 0 = infinity
  /\ option_map efficiencyFactor (comparison (num := float) underflowing)
     = Some (4 / 30 / 0)
  /\ 4 / 30 / 0 = infinity.
Proof. repeat apply conj; vm_compute; reflexivity. Qed.

Definition finite (x : exact) : Prop := exists q : Qc, x = Fin q.

Lemma positive_finite x : positive x -> finite x.
Proof. intros (q & -> & _). now exists q. Qed.

Lemma positive_nonzero x : positive x -> x <> literal 0 0.
Proof.
  intros (q & -> & Hq) E. rewrite literal_0 in E. injection E as E.
  now apply (Qc_pos_neq _ Hq), Qc_is_canon; rewrite E.
Qed.

(** C6, amended.  The derivation and the comparison are total: for every
    input each returns the absent result or a whole record, and no
    operation in them can fail.  In exact arithmetic every divisor is
    nonzero: the effective efficiency, the electric cost per distance, the
    gas-car efficiency, the gas cost per distance and 100; and every field
    of a result is a finite Number.  In binary64 the effective efficiency
    and the gas-car efficiency are above zero whenever they divide. *)
Theorem divisors_nonzero :
  forall s : Signals,
    (forall r : Results exact,
       results s = Some r ->
       effectiveEfficiency r <> literal 0 0
       /\ electricCostPerDist r <> literal 0 0
       /\ finite (effectiveEfficiency r) /\ finite (electricCostPerDist r)
       /\ finite (evFuelEquivalent r))
    /\ (forall (c : Comparison exact) (ice : exact),
          comparison s = Some c -> iceEfficiencyNum s = Some ice ->
          ice <> literal 0 0
          /\ gasCostPerDist c <> literal 0 0
          /\ literal (num := exact) 100 0 <> literal 0 0
          /\ finite (gasCostPerDist c) /\ finite (savingsPerDist c)
          /\ finite (percentSavings c) /\ finite (efficiencyFactor c))
    /\ (forall r : Results float,
          results s = Some r -> (0 <? effectiveEfficiency r) = true)
    /\ (forall (c : Comparison float) (ice : float),
          comparison s = Some c -> iceEfficiencyNum s = Some ice ->
          (0 <? ice) = true).
Proof.
  intros s. split; [|split; [|split]].
  - intros r Hr.
    destruct (results_exact _ _ Hr) as (qe & qr & qf & He & Hq & Hqf & _ & _ & _ & ->).
    assert (0 < qr * c090)%Qc as H1
      by (apply Qc_pos_mul; [assumption | apply c090_pos]).
    assert (0 < qe / (qr * c090))%Qc as H2 by now apply Qc_pos_div.
    unfold derivation.
    cbn [effectiveEfficiency electricCostPerDist evFuelEquivalent].
    split; [now apply positive_nonzero, positive_intro|].
    split; [now apply positive_nonzero, positive_intro|].
    repeat apply conj; eexists; reflexivity.
  - intros c ice Hc Hi.
    destruct (comparison_exact _ _ Hc)
      as (qe & qr & qf & qi & He & Hq & Hqf & Hqi & _ & Hi' & _ & ->).
    rewrite Hi' in Hi. injection Hi as <-.
    pose proof (gasCostQ_pos (unitSystem s) _ _ Hqf Hqi) as Hg.
    unfold comparing.
    cbn [gasCostPerDist savingsPerDist percentSavings efficiencyFactor].
    split; [now apply positive_nonzero, positive_intro|].
    split; [now apply positive_nonzero, positive_intro|].
    split; [rewrite literal_100; apply positive_nonzero, positive_intro, c100_pos|].
    repeat apply conj; eexists; reflexivity.
  - intros r Hr. now apply ltb_zero_above_zero, (results_signs s r).
  - intros c ice _ Hi.
    apply ltb_zero_above_zero, finite_above_zero_above.
    exact (parsed_finite_above_zero _ _ (iceEfficiencyNum_Some _ _ Hi)).
Qed.

Lemma divisors_nonzero_witness :
  exists (r : Results exact) (c : Comparison exact),
    results scenario = Some r /\ comparison scenario = Some c
    /\ effectiveEfficiency r <> literal 0 0
    /\ electricCostPerDist r <> literal 0 0
    /\ gasCostPerDist c <> literal 0 0.
Proof.
  do 2 eexists. split; [reflexivity|]. split; [reflexivity|].
  destruct (divisors_nonzero scenario) as (Hr & Hc & _).
  destruct (Hr _ eq_refl) as (H1 & H2 & _).
  destruct (Hc _ _ eq_refl eq_refl) as (_ & H3 & _).
  split; [exact H1|]. split; [exact H2 | exact H3].
Defined.

(** In binary64, the electric cost per distance of [underflowing] is
    zero, not above zero, and the percentage of savings is 100, not below
    100; on [underflowingFuel] the gas cost per distance is zero as well,
    the percentage is the fallback 0 and the efficiency factor is NaN. *)
Lemma positivity_lost_to_underflow :
  results underflowing
  = Some {| electricCostPerDist := 0;
            evFuelEquivalent := infinity;
            rawEfficiency := 10;
            effectiveEfficiency := 9 |}
  /\ option_map (fun r => 0 <? electricCostPerDist r) (results underflowing)
     = Some false
  /\ comparison underflowing
     = Some {| gasCostPerDist := 4 / 30;
               efficiencyDisplay := 30;
               savingsPerDist := 4 / 30;
               percentSavings := 100;
               efficiencyFactor := infinity |}
  /\ option_map (fun c => percentSavings c <? 100) (comparison underflowing)
     = Some false
  /\ comparison underflowingFuel
     = Some {| gasCostPerDist := 0;
               efficiencyDisplay := 30;
               savingsPerDist := 0;
               percentSavings := 0;
               efficiencyFactor := nan |}
  /\ option_map (fun c => 0 <? gasCostPerDist c) (comparison underflowingFuel)
     = Some false.
Proof. repeat apply conj; vm_compute; reflexivity. Qed.

Lemma ltb_Fin (p q : Qc) : (p < q)%Qc -> ltb (Fin p) (Fin q) = true.
Proof.
  intros Hlt. simpl. apply negb_true_iff.
  destruct (Qle_bool q p) eqn:Hle; [|reflexivity].
  apply Qle_bool_iff in Hle. now apply Qlt_not_le in Hlt.
Qed.

(** C9, amended.  In exact arithmetic: whenever the derivation is present
    its effective efficiency, electric cost per distance and
    fuel-equivalent efficiency are above zero; whenever the comparison is
    present its gas cost per distance and efficiency factor are above
    zero, so the percentage of savings is never the fallback 0 but
    [(savings / gas cost) * 100], and it is below 100.  In binary64:
    whenever the derivation is present its effective efficiency is above
    zero, and its electric cost per distance and fuel-equivalent
    efficiency are at least zero (not negative, not NaN); whenever the
    comparison is present its gas cost per distance is at least zero. *)
Theorem positivity :
  forall s : Signals,
    (forall r : Results exact,
       results s = Some r ->
       positive (effectiveEfficiency r)
       /\ positive (electricCostPerDist r)
       /\ positive (evFuelEquivalent r))
    /\ (forall c : Comparison exact,
          comparison s = Some c ->
          positive (gasCostPerDist c)
          /\ positive (efficiencyFactor c)
          /\ ltb (literal 0 0) (gasCostPerDist c) = true
          /\ percentSavings c
             = mul (div (savingsPerDist c) (gasCostPerDist c)) (literal 100 0)
          /\ ltb (percentSavings c) (literal 100 0) = true)
    /\ (forall r : Results float,
          results s = Some r ->
          (0 <? effectiveEfficiency r) = true
          /\ (0 <=? electricCostPerDist r) = true
          /\ (0 <=? evFuelEquivalent r) = true)
    /\ (forall c : Comparison float,
          comparison s = Some c -> (0 <=? gasCostPerDist c) = true).
Proof.
  intros s. split; [|split; [|split]].
  - intros r Hr.
    destruct (results_exact _ _ Hr) as (qe & qr & qf & He & Hq & Hqf & _ & _ & _ & ->).
    assert (0 < qr * c090)%Qc as H1
      by (apply Qc_pos_mul; [assumption | apply c090_pos]).
    assert (0 < qe / (qr * c090))%Qc as H2 by now apply Qc_pos_div.
    unfold derivation.
    cbn [effectiveEfficiency electricCostPerDist evFuelEquivalent].
    repeat apply conj; apply positive_intro; try assumption.
    now apply Qc_pos_div.
  - intros c Hc.
    destruct (comparison_exact _ _ Hc)
      as (qe & qr & qf & qi & He & Hq & Hqf & Hqi & _ & _ & _ & ->).
    pose proof (gasCostQ_pos (unitSystem s) _ _ Hqf Hqi) as Hg.
    assert (0 < qr * c090)%Qc as H1
      by (apply Qc_pos_mul; [assumption | apply c090_pos]).
    assert (0 < qe / (qr * c090))%Qc as H2 by now apply Qc_pos_div.
    unfold comparing. cbn [gasCostPerDist efficiencyFactor percentSavings savingsPerDist].
    rewrite literal_0, literal_100.
    set (g := gasCostQ (unitSystem s) qf qi) in *.
    set (e := (qe / (qr * c090))%Qc) in *.
    split; [now apply positive_intro|].
    split; [now apply positive_intro, Qc_pos_div|].
    split; [now apply ltb_Fin|].
    split; [rewrite (div_positive _ _ Hg); reflexivity|].
    apply ltb_Fin, Qclt_minus_iff.
    replace (c100 + - ((g - e) / g * c100))%Qc with (e / g * c100)%Qc
      by (field; now apply Qc_pos_neq).
    apply Qc_pos_mul; [now apply Qc_pos_div | apply c100_pos].
  - intros r Hr. destruct (results_signs s r Hr) as (H1 & H2 & H3).
    split; [now apply ltb_zero_above_zero|].
    split; now apply leb_zero_nonnegative.
  - intros c Hc. now apply leb_zero_nonnegative, (comparison_signs s c).
Qed.

Lemma positivity_witness :
  exists (r : Results exact) (c : Comparison exact),
    results scenario = Some r /\ comparison scenario = Some c
    /\ positive (electricCostPerDist r)
    /\ positive (gasCostPerDist c)
    /\ ltb (percentSavings c) (literal 100 0) = true.
Proof.
  do 2 eexists. split; [reflexivity|]. split; [reflexivity|].
  destruct (positivity scenario) as (Hr & Hc & _).
  destruct (Hr _ eq_refl) as (_ & H1 & _).
  destruct (Hc _ eq_refl) as (H2 & _ & _ & _ & H3).
  split; [exact H1|]. split; [exact H2 | exact H3].
Defined.

(** In binary64, for the inputs 0.10, 3, 3.50 and 25 in the US system,
    the efficiency factor and the fuel-equivalent efficiency over the
    gas-car efficiency differ. *)
Lemma efficiency_factor_differs_by_rounding :
  unitSystem rounding = US
  /\ iceEfficiencyNum rounding = Some 25
  /\ option_map efficiencyFactor (comparison (num := float) rounding)
     = Some 3.7800000000000007
  /\ option_map (fun r => evFuelEquivalent r / 25) (results (num := float) rounding)
     = Some 3.78
  /\ 3.7800000000000007 <> 3.78.
Proof.
  repeat apply conj; try (vm_compute; reflexivity).
  apply float_neq; reflexivity.
Qed.

(** C10, amended.  In exact arithmetic, for every valid set of inputs in
    the US system, the efficiency factor of the comparison is the
    fuel-equivalent efficiency of the derivation over the gas-car
    efficiency.  In binary64, for every valid set of inputs in the US
    system for which the four quotients involved are normal numbers, the
    two are within [2 ^ -49] of each other, relatively; they are equal on
    the scenario (both are 3.5000000000000004). *)
Theorem efficiency_factor_relation :
  (forall (s : Signals) (r : Results exact) (c : Comparison exact) (ice : exact),
     unitSystem s = US ->
     results s = Some r -> comparison s = Some c ->
     iceEfficiencyNum s = Some ice ->
     efficiencyFactor c = div (evFuelEquivalent r) ice)
  /\ (forall (s : Signals) (r : Results float) (c : Comparison float) (ice : float),
        unitSystem s = US ->
        results s = Some r -> comparison s = Some c ->
        iceEfficiencyNum s = Some ice ->
        isNormal (gasCostPerDist c) = true ->
        isNormal (efficiencyFactor c) = true ->
        isNormal (evFuelEquivalent r) = true ->
        isNormal (evFuelEquivalent r / ice) = true ->
        ((1 - eps4) * valueOf (evFuelEquivalent r / ice)
         <= valueOf (efficiencyFactor c)
         <= (1 + eps4) * valueOf (evFuelEquivalent r / ice))%Q)
  /\ option_map efficiencyFactor (comparison (num := float) scenario)
     = option_map (fun r => evFuelEquivalent r / 30) (results (num := float) scenario)
  /\ option_map efficiencyFactor (comparison (num := float) scenario)
     = Some 3.5000000000000004.
Proof.
  split; [|split; [exact efficiency_factor_error | split; vm_compute; reflexivity]].
  intros s r c ice Hu Hr Hc Hi.
  destruct (comparison_exact _ _ Hc)
    as (qe & qr & qf & qi & He & Hq & Hqf & Hqi & Hr' & Hi' & _ & ->).
  rewrite Hr' in Hr. injection Hr as <-.
  rewrite Hi' in Hi. injection Hi as <-.
  rewrite Hu. unfold comparing, derivation, gasCostQ.
  cbn [efficiencyFactor evFuelEquivalent].
  rewrite (div_positive _ _ Hqi). f_equal.
  assert (qr * c090 <> 0)%Qc
    by (apply Qc_pos_neq, Qc_pos_mul; [assumption | apply c090_pos]).
  field. repeat split; try assumption; now apply Qc_pos_neq.
Qed.

Lemma efficiency_factor_relation_witness :
  (exists (r : Results exact) (c : Comparison exact) (ice : exact),
     results scenario = Some r /\ comparison scenario = Some c
     /\ iceEfficiencyNum scenario = Some ice
     /\ efficiencyFactor c = div (evFuelEquivalent r) ice)
  /\ (exists (r : Results float) (c : Comparison float) (ice : float),
        results rounding = Some r /\ comparison rounding = Some c
        /\ iceEfficiencyNum rounding = Some ice
        /\ ((1 - eps4) * valueOf (evFuelEquivalent r / ice)
            <= valueOf (efficiencyFactor c)
            <= (1 + eps4) * valueOf (evFuelEquivalent r / ice))%Q).
Proof.
  split.
  - do 3 eexists. split; [reflexivity|]. split; [reflexivity|].
    split; [reflexivity|].
    exact (proj1 efficiency_factor_relation scenario _ _ _
             eq_refl eq_refl eq_refl eq_refl).
  - do 3 eexists. split; [reflexivity|]. split; [reflexivity|].
    split; [reflexivity|].
    exact (proj1 (proj2 efficiency_factor_relation) rounding _ _ _
             eq_refl eq_refl eq_refl eq_refl
             eq_refl eq_refl eq_refl eq_refl).
Defined.

End AlgebraTheorems.
(** ** Reading a field: white space, signs, blanks *)

Module ParsingFacts.
Import JSNumberFacts App AppFacts Binary64Facts.

Lemma trimStart_run ws s :
  forallb isWhiteSpace ws = true -> trimStart (ws ++ s) = trimStart s.
Proof.
  induction ws as [|c ws IH]; simpl; [reflexivity|].
  intros H. apply andb_true_iff in H as [-> H]. auto.
Qed.

Lemma trimStart_keep c s : isWhiteSpace c = false -> trimStart (c :: s) = c :: s.
Proof. intros H. simpl. now rewrite H. Qed.

Lemma trimStart_snoc s c :
  isWhiteSpace c = false -> trimStart (s ++ [c]) = trimStart s ++ [c].
Proof.
  intros Hc. induction s as [|d s IH]; simpl; [now rewrite Hc|].
  destruct (isWhiteSpace d); [assumption | reflexivity].
Qed.

Lemma trimEnd_run s ws :
  forallb isWhiteSpace ws = true -> trimEnd (s ++ ws) = trimEnd s.
Proof.
  intros H. unfold trimEnd. rewrite rev_app_distr, trimStart_run; [reflexivity|].
  rewrite forallb_forall in *. intros x Hx. apply H. now apply in_rev.
Qed.

Lemma trimEnd_cons c s :
  isWhiteSpace c = false -> trimEnd (c :: s) = c :: trimEnd s.
Proof.
  intros Hc. unfold trimEnd. simpl rev.
  now rewrite (trimStart_snoc _ _ Hc), rev_app_distr.
Qed.

Lemma trimEnd_blank ws : forallb isWhiteSpace ws = true -> trimEnd ws = [].
Proof. intros H. rewrite <- (app_nil_l ws). now rewrite trimEnd_run. Qed.

(** What stays of a text without its leading white space and some
    trailing white space is what stays of the text. *)
Lemma trimStart_app_run s ws :
  forallb isWhiteSpace ws = true ->
  trimEnd (trimStart (s ++ ws)) = trimEnd (trimStart s).
Proof.
  intros H. induction s as [|c s IH]; simpl.
  - rewrite (trimStart_blank _ H). reflexivity.
  - destruct (isWhiteSpace c); [assumption|].
    change (c :: s ++ ws) with ((c :: s) ++ ws). now apply trimEnd_run.
Qed.

Lemma trim_surrounded ws1 s ws2 :
  forallb isWhiteSpace ws1 = true -> forallb isWhiteSpace ws2 = true ->
  trim (ws1 ++ s ++ ws2) = trim s.
Proof.
  intros H1 H2. unfold trim. rewrite (trimStart_run _ _ H1).
  now apply trimStart_app_run.
Qed.

Lemma StringToNumber_surrounded ws1 s ws2 :
  forallb isWhiteSpace ws1 = true -> forallb isWhiteSpace ws2 = true ->
  StringToNumber (ws1 ++ s ++ ws2) = StringToNumber s.
Proof. intros H1 H2. unfold StringToNumber. now rewrite trim_surrounded. Qed.

Lemma trim_empty s : trim s = [] -> StringToNumber s = Decimal false 0 0.
Proof. intros E. unfold StringToNumber. now rewrite E. Qed.

Section AnyArithmetic.

Context {num : Type} `{Ordered num}.

Lemma parsePositiveNumber_trim_empty value :
  trim value = [] -> parsePositiveNumber value = None.
Proof.
  intros E. unfold parsePositiveNumber, Number. rewrite (trim_empty _ E).
  change (ofValue (Decimal false 0 0)) with (literal 0 0).
  rewrite leb_zero_zero. now rewrite orb_true_r.
Qed.

Lemma iceEfficiencyNum_eq s :
  iceEfficiencyNum s = parsePositiveNumber (iceEfficiency s).
Proof.
  unfold iceEfficiencyNum. destruct (trim (iceEfficiency s)) eqn:E; [|reflexivity].
  symmetry. now apply parsePositiveNumber_trim_empty.
Qed.

End AnyArithmetic.

(** *** A minus sign *)

Lemma StringToNumber_minus value :
  StringToNumber (45%N :: value) = NotANumber
  \/ StringToNumber (45%N :: value) = Infinite true
  \/ exists m e, StringToNumber (45%N :: value) = Decimal true m e.
Proof.
  unfold StringToNumber, trim.
  rewrite trimStart_keep by reflexivity. rewrite trimEnd_cons by reflexivity.
  cbn [nonDecimalLiteral]. unfold strDecimalLiteral.
  destruct (JSString.eqb (trimEnd value) (lit "Infinity")); [now right; left|].
  destruct (unsignedDecimal (trimEnd value)) as [[m e]|]; [|now left].
  right. right. now exists m, e.
Qed.

Lemma binary_normalize_nonnegative m e :
  (0 <= m)%Z -> nonnegative (binary_normalize prec emax m e false) = true.
Proof.
  intros Hm. destruct m as [|p|p]; [reflexivity| |lia].
  unfold binary_normalize, binary_round.
  destruct (shl_align _ _ _) as [mz ez].
  now apply binary_round_aux_nonnegative.
Qed.

Lemma SF2Prim_nonnegative m e :
  nonnegative (Prim2SF (SF2Prim (S754_finite false m e))) = true.
Proof.
  cbv beta iota zeta delta [SF2Prim]. rewrite Z_ldexp_spec, of_uint63_spec.
  pose proof (binary_normalize_nonnegative
                (Uint63Axioms.to_Z (Uint63Axioms.of_Z (Z.pos m))) 0) as H.
  specialize (H (proj1 (Uint63.to_Z_bounded _))).
  destruct (binary_normalize _ _ _ _ _) as [[]|[]| |[] m' e']; try discriminate;
    try reflexivity.
  unfold SFldexp, binary_round.
  destruct (shl_align _ _ _) as [mz ez].
  now apply binary_round_aux_nonnegative.
Qed.

Lemma roundDecimal_cases digits exponent :
  nonnegative (roundDecimal digits exponent) = true.
Proof.
  unfold roundDecimal. destruct exponent as [|k|k].
  - now apply binary_normalize_nonnegative.
  - apply binary_normalize_nonnegative. 
    apply Z.mul_nonneg_nonneg; [lia|]. apply Z.pow_nonneg. lia.
  - apply SFdiv_nonnegative; try reflexivity. now left.
Qed.

End ParsingFacts.

(** ** A minus sign, and the accessors of the results block, in binary64 *)

Module ParsingBinary64.
Import JSNumberFacts App AppFacts Binary64Facts AppDisplay ParsingFacts.

Local Open Scope float_scope.

Lemma opp_nonnegative_leb (f : float) :
  nonnegative (Prim2SF f) = true -> (- f <=? 0) = true.
Proof.
  rewrite leb_spec, opp_spec, Prim2SF_zero.
  now destruct (Prim2SF f) as [[]|[]| |[] m e].
Qed.

Lemma minus_not_above_zero value :
  let n : float := Number (45%N :: value) in
  isFinite n = false \/ (n <=? 0) = true.
Proof.
  unfold Number. cbn [ofValue Binary64].
  destruct (StringToNumber_minus value) as [-> | [-> | (m & e & ->)]];
    [now left | now left |].
  right. destruct m as [|m]; [reflexivity|].
  cbn [binary64_ofValue]. apply opp_nonnegative_leb.
  pose proof (roundDecimal_cases m e) as H.
  destruct (roundDecimal m e) as [[]|[]| |[] m' e']; try discriminate;
    try reflexivity.
  apply SF2Prim_nonnegative.
Qed.

Lemma finite_above_zero_truthy (n : float) :
  finite_above_zero (Prim2SF n) = true -> ToBoolean n = true.
Proof.
  unfold ToBoolean, Prim2SF.
  destruct (PrimFloat.is_nan n); [discriminate|].
  destruct (PrimFloat.is_zero n); [now destruct (get_sign n)|].
  reflexivity.
Qed.

Lemma orZero_parsed value (n : float) :
  parsePositiveNumber value = Some n -> orZero (Some n) = n.
Proof.
  intros H. apply parsed_finite_above_zero, finite_above_zero_truthy in H.
  unfold orZero. now rewrite H.
Qed.

End ParsingBinary64.

(** ** [toFixed]: the text of a Number, and what it reads back as *)

Module ToFixedFacts.
Import Qabs.
Import JSNumberFacts Binary64Facts Binary64Error AppDisplay ParsingFacts.

Definition isDigit (c : JSString.char) : bool := ((48 <=? c) && (c <=? 57))%N.

(** The number a run of decimal digits continues [acc] to. *)
Definition decimalValue (ds : JSString.t) (acc : N) : N :=
  fold_left (fun acc c => (10 * acc + (c - 48))%N) ds acc.

Lemma digitValue_digit c : isDigit c = true -> digitValue 10 c = Some (c - 48)%N.
Proof.
  unfold isDigit, digitValue. intros H. rewrite H.
  apply andb_true_iff in H as [H1 H2]. apply N.leb_le in H1, H2.
  replace (c - 48 <? 10)%N with true; [reflexivity|].
  symmetry. apply N.ltb_lt. lia.
Qed.

Lemma digitRun_digits ds rest acc count :
  forallb isDigit ds = true ->
  digitRun 10 (ds ++ rest) acc count
  = digitRun 10 rest (decimalValue ds acc) (count + List.length ds).
Proof.
  revert acc count. induction ds as [|c ds IH]; intros acc count H; simpl.
  - now rewrite Nat.add_0_r.
  - apply andb_true_iff in H as [Hc H]. rewrite (digitValue_digit _ Hc).
    rewrite IH by assumption. f_equal. lia.
Qed.

Lemma digitRun_stop c rest acc count :
  digitValue 10 c = None -> digitRun 10 (c :: rest) acc count = (acc, count, c :: rest).
Proof. intros H. simpl. now rewrite H. Qed.

Lemma digitUnits_digits d : forallb isDigit (digitUnits d) = true.
Proof. induction d; simpl; auto. Qed.

Lemma decimalValue_acc d acc :
  decimalValue (digitUnits d) (Npos acc) = Npos (Pos.of_uint_acc d acc).
Proof.
  revert acc. unfold decimalValue.
  induction d as [|d IH|d IH|d IH|d IH|d IH|d IH|d IH|d IH|d IH|d IH];
    intros acc; cbn [digitUnits fold_left Pos.of_uint_acc]; [reflexivity|..];
    rewrite <- IH; apply f_equal; lia.
Qed.

Lemma decimalValue_of_uint d : decimalValue (digitUnits d) 0 = Pos.of_uint d.
Proof.
  induction d as [|d IH|d IH|d IH|d IH|d IH|d IH|d IH|d IH|d IH|d IH];
    cbn [digitUnits Pos.of_uint]; [reflexivity | exact IH |..];
    exact (decimalValue_acc d _).
Qed.

Lemma decimalValue_decimalDigits n : decimalValue (decimalDigits n) 0 = n.
Proof.
  unfold decimalDigits. rewrite decimalValue_of_uint.
  exact (DecimalN.Unsigned.of_to n).
Qed.

Lemma decimalDigits_nonempty n : decimalDigits n <> [].
Proof.
  unfold decimalDigits. intros E.
  assert (N.to_uint n = Decimal.Nil) as E'
    by (destruct (N.to_uint n); try discriminate; reflexivity).
  pose proof (DecimalN.Unsigned.of_to n) as H. rewrite E' in H.
  destruct n as [|p]; [discriminate|].
  simpl in E'. 
  pose proof (DecimalPos.Unsigned.of_to p) as H'. rewrite E' in H'. discriminate.
Qed.

Lemma decimalValue_app a b acc :
  decimalValue (a ++ b) acc = decimalValue b (decimalValue a acc).
Proof. apply fold_left_app. Qed.

Lemma decimalValue_zeros j : decimalValue (repeat 48%N j) 0 = 0%N.
Proof. induction j as [|j IH]; [reflexivity | exact IH]. Qed.

Lemma zeros_digits j : forallb isDigit (repeat 48%N j) = true.
Proof. induction j as [|j IH]; [reflexivity | exact IH]. Qed.

(** The fixed text of [n]: a whole part of one digit at least, and [f]
    digits after the point; together, the digits of [n] behind zeros. *)
Lemma fixedText_parts n f :
  exists a b,
    fixedText n f = (if (f =? 0)%nat then a else a ++ [46%N] ++ b)
    /\ a <> [] /\ forallb isDigit a = true /\ forallb isDigit b = true
    /\ List.length b = f /\ decimalValue (a ++ b) 0 = n.
Proof.
  unfold fixedText. destruct (f =? 0)%nat eqn:Hf.
  - apply Nat.eqb_eq in Hf. subst f. exists (decimalDigits n), [].
    rewrite app_nil_r.
    repeat split; [apply decimalDigits_nonempty | apply digitUnits_digits
                  | apply decimalValue_decimalDigits].
  - apply Nat.eqb_neq in Hf.
    set (m := decimalDigits n).
    assert (m <> []) as Hm by apply decimalDigits_nonempty.
    assert (forallb isDigit m = true) as Hd by apply digitUnits_digits.
    assert (decimalValue m 0 = n) as Hv by apply decimalValue_decimalDigits.
    clearbody m.
    set (k := List.length m).
    assert (0 < k)%nat as Hk by (subst k; destruct m; [congruence | simpl; lia]).
    set (m' := if (k <=? f)%nat then repeat 48%N (f + 1 - k) ++ m else m).
    set (k' := if (k <=? f)%nat then (f + 1)%nat else k).
    assert (List.length m' = k' /\ (f < k')%nat /\ forallb isDigit m' = true
            /\ decimalValue m' 0 = n) as (Hl & Hlt & Hd' & Hv').
    { subst m' k'. destruct (k <=? f)%nat eqn:Hkf.
      - apply Nat.leb_le in Hkf.
        split; [rewrite length_app, repeat_length; subst k; unfold JSString.t, JSString.char in *; lia|].
        split; [lia|]. split.
        + now rewrite forallb_app, zeros_digits.
        + now rewrite decimalValue_app, decimalValue_zeros.
      - apply Nat.leb_gt in Hkf. repeat split; assumption. }
    exists (firstn (k' - f) m'), (skipn (k' - f) m').
    split; [reflexivity|].
    split.
    { intros E. apply (f_equal (@List.length _)) in E.
      rewrite length_firstn in E. simpl in E. lia. }
    split.
    { rewrite <- (firstn_skipn (k' - f) m'), forallb_app in Hd'.
      now apply andb_true_iff in Hd'. }
    split.
    { rewrite <- (firstn_skipn (k' - f) m'), forallb_app in Hd'.
      now apply andb_true_iff in Hd'. }
    split; [rewrite length_skipn; lia|].
    now rewrite firstn_skipn.
Qed.

Lemma not_digit_point : digitValue 10 46%N = None.
Proof. reflexivity. Qed.

Lemma unsignedDecimal_fixedText n f :
  unsignedDecimal (fixedText n f) = Some (n, (- Z.of_nat f)%Z).
Proof.
  destruct (fixedText_parts n f) as (a & b & -> & Ha & Hda & Hdb & Hl & Hv).
  unfold unsignedDecimal.
  assert (0 < List.length a)%nat as Hla
    by (destruct a; [congruence | simpl; lia]).
  destruct (f =? 0)%nat eqn:Hf.
  - apply Nat.eqb_eq in Hf. subst f.
    destruct b; [|discriminate]. rewrite app_nil_r in Hv.
    rewrite <- (app_nil_r a) at 1. rewrite (digitRun_digits _ _ _ _ Hda).
    cbn [digitRun]. rewrite Hv.
    replace (0 + List.length a + 0 =? 0)%nat with false
      by (symmetry; apply Nat.eqb_neq; lia).
    reflexivity.
  - rewrite (digitRun_digits _ _ _ _ Hda).
    cbn [app]. rewrite (digitRun_stop _ _ _ _ not_digit_point).
    rewrite <- (app_nil_r b) at 1. rewrite (digitRun_digits _ _ _ _ Hdb).
    cbn [digitRun].
    replace (decimalValue b (decimalValue a 0)) with n
      by (symmetry; rewrite <- decimalValue_app; exact Hv).
    unfold JSString.t, JSString.char in *. rewrite Hl.
    replace (0 + List.length a + (0 + f) =? 0)%nat with false
      by (symmetry; apply Nat.eqb_neq; lia).
    cbn [exponentPart]. reflexivity.
Qed.

(** The units of a fixed text: digits and the point. *)
Definition plain (c : JSString.char) : bool := isDigit c || N.eqb c 46.

Lemma fixedText_plain n f :
  exists c rest, fixedText n f = c :: rest /\ isDigit c = true
                 /\ forallb plain rest = true
                 /\ exists front l, fixedText n f = front ++ [l] /\ isDigit l = true.
Proof.
  destruct (fixedText_parts n f) as (a & b & -> & Ha & Hda & Hdb & Hl & _).
  assert (forall l, forallb isDigit l = true -> forallb plain l = true) as Hp.
  { intros l H. rewrite forallb_forall in *. intros x Hx. unfold plain.
    now rewrite (H x Hx). }
  destruct a as [|c a]; [congruence|].
  simpl in Hda. apply andb_true_iff in Hda as [Hc Hda].
  exists c. destruct (f =? 0)%nat eqn:Hf.
  - exists a. repeat split; auto.
    destruct (exists_last Ha) as (front & l & E). exists front, l.
    split; [assumption|].
    assert (forallb isDigit (c :: a) = true) as H by (simpl; now rewrite Hc, Hda).
    rewrite E, forallb_app in H. apply andb_true_iff in H as [_ H]. simpl in H.
    now rewrite andb_true_r in H.
  - exists (a ++ [46%N] ++ b). split; [reflexivity|]. split; [assumption|].
    split.
    + rewrite forallb_app. apply andb_true_iff. split; [exact (Hp _ Hda)|].
      exact (Hp _ Hdb).
    + apply Nat.eqb_neq in Hf.
      assert (b <> []) as Hb by (destruct b; [simpl in Hl; lia | discriminate]).
      destruct (exists_last Hb) as (front & l & ->).
      exists ((c :: a) ++ [46%N] ++ front), l.
      split; [now rewrite <- !app_assoc|].
      rewrite forallb_app in Hdb. apply andb_true_iff in Hdb as [_ H]. simpl in H.
      now rewrite andb_true_r in H.
Qed.

Lemma digit_cases c :
  isDigit c = true ->
  In c [48; 49; 50; 51; 52; 53; 54; 55; 56; 57]%N.
Proof.
  unfold isDigit. intros H. apply andb_true_iff in H as [H1 H2].
  apply N.leb_le in H1, H2. simpl.
  assert (c = 48 \/ c = 49 \/ c = 50 \/ c = 51 \/ c = 52 \/ c = 53 \/ c = 54
          \/ c = 55 \/ c = 56 \/ c = 57)%N by lia.
  intuition auto.
Qed.

Ltac each_digit c H :=
  apply digit_cases in H; simpl in H;
  repeat (destruct H as [H | H]; [subst c|]); [..|destruct H].

Lemma digit_not_space c : isDigit c = true -> isWhiteSpace c = false.
Proof. intros H. each_digit c H; reflexivity. Qed.

Lemma trim_fixed c rest front l :
  isWhiteSpace c = false -> isWhiteSpace l = false ->
  c :: rest = front ++ [l] -> trim (c :: rest) = c :: rest.
Proof.
  intros Hc Hl E. unfold trim. rewrite (trimStart_keep _ _ Hc).
  unfold trimEnd. rewrite E, rev_app_distr.
  change (rev [l] ++ rev front) with (l :: rev front).
  rewrite (trimStart_keep _ _ Hl).
  change (l :: rev front) with (rev [l] ++ rev front).
  now rewrite <- rev_app_distr, rev_involutive.
Qed.

Lemma plain_not_radix p :
  plain p = true ->
  (N.eqb p 120 || N.eqb p 88 = false)%bool
  /\ (N.eqb p 111 || N.eqb p 79 = false)%bool
  /\ (N.eqb p 98 || N.eqb p 66 = false)%bool.
Proof.
  unfold plain. intros H. apply orb_true_iff in H as [H | H].
  - each_digit p H; repeat split.
  - apply N.eqb_eq in H. subst p. repeat split.
Qed.

Lemma nonDecimalLiteral_fixed c rest :
  isDigit c = true -> forallb plain rest = true ->
  nonDecimalLiteral (c :: rest) = None.
Proof.
  intros Hc Hr. each_digit c Hc; try reflexivity.
  destruct rest as [|p r]; [reflexivity|].
  simpl in Hr. apply andb_true_iff in Hr as [Hp _].
  destruct (plain_not_radix p Hp) as (H1 & H2 & H3).
  cbn [nonDecimalLiteral]. now rewrite H1, H2, H3.
Qed.

Lemma strDecimalLiteral_fixed (negative : bool) n f :
  strDecimalLiteral ((if negative then lit "-" else []) ++ fixedText n f)
  = Decimal negative n (- Z.of_nat f).
Proof.
  pose proof (unsignedDecimal_fixedText n f) as Hu.
  destruct (fixedText_plain n f) as (c & rest & E & Hc & _).
  rewrite E in *.
  assert (JSString.eqb (c :: rest) (lit "Infinity") = false) as Hi
    by (each_digit c Hc; reflexivity).
  destruct negative.
  - cbv iota. change (lit "-" ++ c :: rest) with (45%N :: c :: rest).
    cbv beta iota zeta delta [strDecimalLiteral]. now rewrite Hi, Hu.
  - cbv iota. change ([] ++ c :: rest) with (c :: rest).
    assert (strDecimalLiteral (c :: rest)
            = if JSString.eqb (c :: rest) (lit "Infinity") then Infinite false
              else match unsignedDecimal (c :: rest) with
                   | Some (m, e) => Decimal false m e
                   | None => NotANumber
                   end) as ->
      by (each_digit c Hc; reflexivity).
    now rewrite Hi, Hu.
Qed.

Lemma StringToNumber_fixed (negative : bool) n f :
  StringToNumber ((if negative then lit "-" else []) ++ fixedText n f)
  = Decimal negative n (- Z.of_nat f).
Proof.
  pose proof (strDecimalLiteral_fixed negative n f) as Hs.
  destruct (fixedText_plain n f) as (c & rest & E & Hc & Hr & front & l & E' & Hl).
  rewrite E in *.
  unfold StringToNumber.
  destruct negative.
  - cbv iota in *. change (lit "-" ++ c :: rest) with (45%N :: c :: rest) in *.
    rewrite (trim_fixed _ _ (45%N :: front) l);
      [|reflexivity | now apply digit_not_space | now rewrite E'].
    exact Hs.
  - cbv iota in *. change ([] ++ c :: rest) with (c :: rest) in *.
    rewrite (trim_fixed _ _ front l);
      [|now apply digit_not_space | now apply digit_not_space | assumption].
    now rewrite (nonDecimalLiteral_fixed _ _ Hc Hr).
Qed.


Lemma finite_cases (x : float) :
  isFinite x = true ->
  (exists s, Prim2SF x = S754_zero s) \/ (exists s m e, Prim2SF x = S754_finite s m e).
Proof.
  cbn [isFinite Binary64]. intros Hf.
  apply negb_true_iff, orb_false_iff in Hf as [Hn Hi].
  unfold Prim2SF. rewrite Hn, Hi.
  destruct (PrimFloat.is_zero x); [left; eauto|].
  destruct (Z.frexp x) as [r e].
  destruct (shr_fexp _ _ _ _ _) as [shr e'].
  destruct (shr_m shr); [left | right | left]; eauto.
Qed.

Lemma magnitude_value m e :
  (0 < snd (magnitude m e))%Z
  /\ inject_Z (Zpos m) * 2 ^ e
     == inject_Z (fst (magnitude m e)) / inject_Z (snd (magnitude m e)).
Proof.
  unfold magnitude. destruct (0 <=? e)%Z eqn:He; cbn [fst snd].
  - apply Z.leb_le in He. split; [lia|].
    rewrite inject_Z_mult, (pow2_inject e He). unfold Qdiv.
    change (/ inject_Z 1) with 1. ring.
  - apply Z.leb_gt in He. split; [apply Z.pow_pos_nonneg; lia|].
    rewrite (pow2_inject (- e)) by lia.
    unfold Qdiv. rewrite <- Qpower_opp, Z.opp_involutive. reflexivity.
Qed.

(** Half up to the nearest: within a half of the value. *)
Lemma nearest_within (p q t : Z) :
  (0 <= p)%Z -> (0 < q)%Z -> (0 < t)%Z ->
  let n := ((2 * p * t + q) / (2 * q))%Z in
  (0 <= n)%Z
  /\ Qabs (inject_Z n / inject_Z t - inject_Z p / inject_Z q)
     <= (1 # 2) / inject_Z t.
Proof.
  intros Hp Hq Ht n.
  assert (0 <= n)%Z as Hn by (apply Z.div_pos; nia).
  split; [assumption|].
  assert (2 * q * n <= 2 * p * t + q < 2 * q * n + 2 * q)%Z as [H1 H2].
  { pose proof (Z.div_mod (2 * p * t + q) (2 * q)) as Hd.
    pose proof (Z.mod_pos_bound (2 * p * t + q) (2 * q)) as Hm.
    fold n in Hd. lia. }
  assert (0 < inject_Z q) as Hq' by (change 0 with (inject_Z 0); now rewrite <- Zlt_Qlt).
  assert (0 < inject_Z t) as Ht' by (change 0 with (inject_Z 0); now rewrite <- Zlt_Qlt).
  rewrite Zle_Qle in H1. apply Z.lt_le_incl in H2. rewrite Zle_Qle in H2.
  repeat rewrite ?inject_Z_plus, ?inject_Z_mult in H1.
  repeat rewrite ?inject_Z_plus, ?inject_Z_mult in H2.
  change (inject_Z 2) with 2 in *.
  set (N := inject_Z n) in *. set (P := inject_Z p) in *.
  set (Q0 := inject_Z q) in *. set (T := inject_Z t) in *.
  apply Qabs_Qle_condition.
  assert (0 < T * Q0) as Htq by now apply Qmult_lt_0_compat.
  assert (~ T == 0) as Tn by (intros E; rewrite E in Ht'; now apply Qlt_irrefl in Ht').
  assert (~ Q0 == 0) as Qn by (intros E; rewrite E in Hq'; now apply Qlt_irrefl in Hq').
  split.
  - apply Qmult_le_r with (T * Q0); [assumption|].
    setoid_replace (- ((1 # 2) / T) * (T * Q0)) with (- (1 # 2) * Q0) by (field; assumption).
    setoid_replace ((N / T - P / Q0) * (T * Q0)) with (N * Q0 - P * T) by (field; split; assumption).
    lra.
  - apply Qmult_le_r with (T * Q0); [assumption|].
    setoid_replace ((1 # 2) / T * (T * Q0)) with ((1 # 2) * Q0) by (field; assumption).
    setoid_replace ((N / T - P / Q0) * (T * Q0)) with (N * Q0 - P * T) by (field; split; assumption).
    lra.
Qed.

Local Open Scope Q_scope.

Lemma ten_power (f : nat) :
  (0 < 10 ^ Z.of_nat f)%Z
  /\ (10 # 1) ^ (- Z.of_nat f) == / inject_Z (10 ^ Z.of_nat f).
Proof.
  split; [apply Z.pow_pos_nonneg; lia|].
  rewrite Qpower_opp. apply Qinv_comp.
  change (10 # 1) with (inject_Z 10). symmetry. apply Zpower_Qpower. lia.
Qed.

(** What the fixed text of a magnitude reads back as, and how far it is
    from the magnitude. *)
Lemma fixed_magnitude (m : positive) (e : Z) (f : nat) :
  let '(p, q) := magnitude m e in
  let n := nearestFixed p q f in
  Qabs (inject_Z (Z.of_N n) * (10 # 1) ^ (- Z.of_nat f) - inject_Z (Zpos m) * 2 ^ e)
  <= (1 # 2) * (10 # 1) ^ (- Z.of_nat f).
Proof.
  destruct (magnitude_value m e) as [Hq Hv].
  assert (0 <= fst (magnitude m e))%Z as Hp.
  { unfold magnitude. destruct (0 <=? e)%Z; cbn [fst]; [|lia].
    apply Z.mul_nonneg_nonneg; [lia | apply Z.pow_nonneg; lia]. }
  destruct (magnitude m e) as [p q]. cbn [fst snd] in *.
  destruct (ten_power f) as [Ht Hpow].
  destruct (nearest_within p q _ Hp Hq Ht) as [Hn Hb].
  unfold nearestFixed. rewrite Z2N.id by assumption.
  rewrite Hv, Hpow. exact Hb.
Qed.

Lemma below_1e21 (m : positive) (e : Z) :
  inject_Z (Zpos m) * 2 ^ e < (10 # 1) ^ 21 ->
  let '(p, q) := magnitude m e in (10 ^ 21 * q <=? p)%Z = false.
Proof.
  intros H. destruct (magnitude_value m e) as [Hq Hv].
  destruct (magnitude m e) as [p q]. cbn [fst snd] in *.
  apply Z.leb_gt. rewrite Hv in H.
  assert (0 < inject_Z q) as Hq' by (change 0 with (inject_Z 0); now rewrite <- Zlt_Qlt).
  apply Z.lt_nge. intros Hle. rewrite Zle_Qle, inject_Z_mult in Hle.
  apply (Qle_shift_div_l _ _ _ Hq') in Hle.
  change (inject_Z (10 ^ 21)) with ((10 # 1) ^ 21) in Hle.
  apply Qle_not_lt in Hle. now apply Hle.
Qed.

Section ToFixed.

Variable NumberToString : float -> JSString.t.

Lemma toFixed_zero (x : float) (d : N) s :
  (d <= 100)%N -> Prim2SF x = S754_zero s ->
  toFixed NumberToString x d = Some (fixedText 0 (N.to_nat d)).
Proof.
  intros Hd Hx. unfold toFixed. rewrite Hx.
  now replace (100 <? d)%N with false by (symmetry; apply N.ltb_ge; lia).
Qed.

Lemma toFixed_finite (x : float) (d : N) s m e :
  (d <= 100)%N -> Prim2SF x = S754_finite s m e ->
  inject_Z (Zpos m) * 2 ^ e < (10 # 1) ^ 21 ->
  toFixed NumberToString x d
  = Some ((if s then lit "-" else [])
          ++ fixedText (nearestFixed (fst (magnitude m e)) (snd (magnitude m e))
                                     (N.to_nat d)) (N.to_nat d)).
Proof.
  intros Hd Hx Hb. unfold toFixed. rewrite Hx.
  replace (100 <? d)%N with false by (symmetry; apply N.ltb_ge; lia).
  pose proof (below_1e21 m e Hb) as H.
  destruct (magnitude m e) as [p q]. cbn [fst snd]. now rewrite H.
Qed.

Lemma Qabs_value_finite s m e :
  Qabs (value (S754_finite s m e)) == inject_Z (Zpos m) * 2 ^ e.
Proof.
  cbn [value].
  assert (0 <= inject_Z (Zpos m) * 2 ^ e) as Hp.
  { apply Qmult_le_0_compat; [discriminate | apply Qlt_le_weak, pow2_pos]. }
  destruct s.
  - setoid_replace (-1 * (inject_Z (Z.pos m) * 2 ^ e))
      with (- (inject_Z (Z.pos m) * 2 ^ e)) by ring.
    rewrite Qabs_opp. now apply Qabs_pos.
  - rewrite Qmult_1_l. now apply Qabs_pos.
Qed.

Lemma toFixed_within (x : float) (d : N) :
  (d <= 100)%N -> isFinite x = true -> Qabs (valueOf x) < (10 # 1) ^ 21 ->
  exists (text : JSString.t) (q : Q),
    toFixed NumberToString x d = Some text
    /\ Number (num := exact) text = Fin (Q2Qc q)
    /\ Qabs (q - valueOf x) <= (1 # 2) * (10 # 1) ^ (- Z.of_N d).
Proof.
  intros Hd Hf Hb. unfold valueOf in *. rewrite <- (N_nat_Z d).
  set (f := N.to_nat d).
  destruct (ten_power f) as [Ht Hpow].
  assert (0 <= (1 # 2) * (10 # 1) ^ (- Z.of_nat f)) as Hhalf.
  { apply Qmult_le_0_compat; [discriminate|]. apply Qlt_le_weak.
    apply Qpower_0_lt. reflexivity. }
  destruct (finite_cases x Hf) as [(s & Hx) | (s & m & e & Hx)]; rewrite Hx in *.
  - exists (fixedText 0 f), (inject_Z (Z.of_N 0) * (10 # 1) ^ (- Z.of_nat f)).
    split; [now apply (toFixed_zero x d s)|]. split.
    + pose proof (StringToNumber_fixed false 0 f) as Hs. unfold Number.
      change ((if false then lit "-" else []) ++ fixedText 0 f)
        with (fixedText 0 f) in Hs.
      rewrite Hs. reflexivity.
    + cbn [value]. change (inject_Z (Z.of_N 0)) with 0.
      setoid_replace (0 * (10 # 1) ^ (- Z.of_nat f) - 0) with 0 by ring.
      exact Hhalf.
  - rewrite Qabs_value_finite in Hb.
    pose proof (fixed_magnitude m e f) as Hm.
    rewrite (surjective_pairing (magnitude m e)) in Hm. cbv zeta in Hm.
    set (n := nearestFixed (fst (magnitude m e)) (snd (magnitude m e)) f) in *.
    set (q := inject_Z (Z.of_N n) * (10 # 1) ^ (- Z.of_nat f)) in *.
    exists ((if s then lit "-" else []) ++ fixedText n f), (if s then - q else q).
    split; [now apply toFixed_finite|]. split.
    + unfold Number. rewrite (StringToNumber_fixed s n f). reflexivity.
    + cbn [value]. destruct s.
      * setoid_replace (- q - -1 * (inject_Z (Z.pos m) * 2 ^ e))
          with (- (q - inject_Z (Z.pos m) * 2 ^ e)) by ring.
        now rewrite Qabs_opp.
      * now rewrite Qmult_1_l.
Qed.

End ToFixed.

End ToFixedFacts.

(** ** The second component *)

Module AppUSFacts.
Import JSNumberFacts ParsingFacts.
Import AppUS.
Import AppUS.Notations.

Section AnyArithmetic.

Context {num : Type} `{Ordered num}.

Local Open Scope num_scope.

Lemma parsePositiveNumber_same (value : JSString.t) :
  parsePositiveNumber value = App.parsePositiveNumber value.
Proof. reflexivity. Qed.

Lemma gasMpgNum_eq s : gasMpgNum s = parsePositiveNumber (gasMpg s).
Proof.
  unfold gasMpgNum. destruct (trim (gasMpg s)) eqn:E; [|reflexivity].
  symmetry. now apply parsePositiveNumber_trim_empty.
Qed.

Lemma evResults_Some s Ce Me Cg :
  electricityCostNum s = Some Ce -> milesPerKwhNum s = Some Me ->
  gasPriceNum s = Some Cg ->
  evResults s
  = Some {| EvResults.evMpgEquivalent := (literal 1 0 / (Ce / Me)) * Cg;
            EvResults.electricCostPerMile := Ce / Me |}.
Proof. intros H1 H2 H3. unfold evResults. now rewrite H1, H2, H3. Qed.

Lemma evResults_None s :
  evResults s = None <->
  electricityCostNum s = None \/ milesPerKwhNum s = None \/ gasPriceNum s = None.
Proof.
  unfold evResults.
  destruct (electricityCostNum s), (milesPerKwhNum s), (gasPriceNum s);
    split; intros; try discriminate; intuition discriminate.
Qed.

Lemma evResults_inv s r :
  evResults s = Some r ->
  exists Ce Me Cg,
    electricityCostNum s = Some Ce /\ milesPerKwhNum s = Some Me
    /\ gasPriceNum s = Some Cg
    /\ r = {| EvResults.evMpgEquivalent := (literal 1 0 / (Ce / Me)) * Cg;
              EvResults.electricCostPerMile := Ce / Me |}.
Proof.
  unfold evResults.
  destruct (electricityCostNum s) as [Ce|]; [|discriminate].
  destruct (milesPerKwhNum s) as [Me|]; [|discriminate].
  destruct (gasPriceNum s) as [Cg|]; [|discriminate].
  intros E0. injection E0 as <-. now exists Ce, Me, Cg.
Qed.

Lemma comparisonResults_Some s base Mg Cg :
  evResults s = Some base -> gasMpgNum s = Some Mg -> gasPriceNum s = Some Cg ->
  comparisonResults s
  = Some {| ComparisonResults.gasCostPerMile := Cg / Mg;
            ComparisonResults.electricCostPerMile := EvResults.electricCostPerMile base;
            ComparisonResults.savingsPerMile :=
              Cg / Mg - EvResults.electricCostPerMile base;
            ComparisonResults.percentSavings :=
              if literal 0 0 <? Cg / Mg
              then ((Cg / Mg - EvResults.electricCostPerMile base) / (Cg / Mg))
                   * literal 100 0
              else literal 0 0;
            ComparisonResults.efficiencyFactor :=
              EvResults.evMpgEquivalent base / Mg |}.
Proof. intros H1 H2 H3. unfold comparisonResults. now rewrite H1, H2, H3. Qed.

Lemma comparisonResults_None s :
  comparisonResults s = None <-> evResults s = None \/ gasMpgNum s = None.
Proof.
  split.
  - destruct (evResults s) as [base|] eqn:Hr; [|now left].
    destruct (gasMpgNum s) as [i|] eqn:Hi; [|now right].
    destruct (evResults_inv _ _ Hr) as (Ce & E & Cf & _ & _ & HCf & _).
    now rewrite (comparisonResults_Some _ _ _ _ Hr Hi HCf).
  - unfold comparisonResults. intros [-> | Hi]; [reflexivity|].
    rewrite Hi. now destruct (evResults s).
Qed.

Lemma comparisonResults_inv s c :
  comparisonResults s = Some c ->
  exists base Mg Cg,
    evResults s = Some base /\ gasMpgNum s = Some Mg /\ gasPriceNum s = Some Cg
    /\ c = {| ComparisonResults.gasCostPerMile := Cg / Mg;
              ComparisonResults.electricCostPerMile := EvResults.electricCostPerMile base;
              ComparisonResults.savingsPerMile :=
                Cg / Mg - EvResults.electricCostPerMile base;
              ComparisonResults.percentSavings :=
                if literal 0 0 <? Cg / Mg
                then ((Cg / Mg - EvResults.electricCostPerMile base) / (Cg / Mg))
                     * literal 100 0
                else literal 0 0;
              ComparisonResults.efficiencyFactor :=
                EvResults.evMpgEquivalent base / Mg |}.
Proof.
  intros Hc.
  destruct (evResults s) as [base|] eqn:Hr;
    [|rewrite (proj2 (comparisonResults_None s)) in Hc; [discriminate | now left]].
  destruct (gasMpgNum s) as [i|] eqn:Hi;
    [|rewrite (proj2 (comparisonResults_None s)) in Hc; [discriminate | now right]].
  destruct (evResults_inv _ _ Hr) as (Ce & E & Cf & _ & _ & HCf & _).
  rewrite (comparisonResults_Some _ _ _ _ Hr Hi HCf) in Hc. injection Hc as <-.
  now exists base, i, Cf.
Qed.

(** *** The messages under the fields *)

Lemma shown_iff (text : JSString.t) (value : option num) :
  (0 <? List.length (trim text))%nat && isNull value = true
  <-> trim text <> [] /\ value = None.
Proof.
  rewrite andb_true_iff, Nat.ltb_lt. unfold isNull.
  destruct (trim text), value; simpl; split; intros [? ?]; split;
    congruence || lia || discriminate.
Qed.

Lemma absent_field_blank_or_shown (text : JSString.t) :
  parsePositiveNumber text = None ->
  trim text = []
  \/ (0 <? List.length (trim text))%nat && isNull (parsePositiveNumber text) = true.
Proof.
  intros ->. destruct (trim text); [now left | now right].
Qed.

End AnyArithmetic.

End AppUSFacts.

(** ** The second component in binary64: signs *)

Module AppUSBinary64.
Import JSNumberFacts Binary64Facts ParsingFacts AppUSFacts.
Import AppUS AppUS.Notations.
Local Open Scope float_scope.

Lemma SFmul_nonnegative_l x y :
  nonnegative x = true -> finite_above_zero y = true ->
  nonnegative (SFmul prec emax x y) = true.
Proof.
  destruct x as [[]|[]| |[] mx ex]; try discriminate;
    destruct y as [[]|[]| |[] my ey]; try discriminate;
    intros _ _; try reflexivity.
  now apply binary_round_aux_nonnegative.
Qed.

Lemma one_finite_above_zero :
  finite_above_zero (Prim2SF (literal (num := float) 1 0)) = true.
Proof. reflexivity. Qed.

Lemma parsed (value : JSString.t) (n : float) :
  parsePositiveNumber value = Some n -> finite_above_zero (Prim2SF n) = true.
Proof. exact (parsed_finite_above_zero value n). Qed.

Lemma evResults_signs (s : Signals) (r : EvResults.t float) :
  evResults s = Some r ->
  nonnegative (Prim2SF (EvResults.electricCostPerMile r)) = true
  /\ nonnegative (Prim2SF (EvResults.evMpgEquivalent r)) = true.
Proof.
  intros Hr. apply evResults_inv in Hr as (Ce & Me & Cg & H1 & H2 & H3 & ->).
  apply parsed in H1, H2, H3.
  cbn [EvResults.electricCostPerMile EvResults.evMpgEquivalent].
  assert (nonnegative (Prim2SF (div Ce Me)) = true) as Hc.
  { apply div_nonnegative; [| |now left];
      now apply above_zero_nonnegative, finite_above_zero_above. }
  split; [assumption|].
  change (mul ?a ?b) with (PrimFloat.mul a b). rewrite mul_spec.
  apply SFmul_nonnegative_l; [|assumption].
  apply div_nonnegative; [|assumption|left; apply one_finite_above_zero].
  apply above_zero_nonnegative, finite_above_zero_above, one_finite_above_zero.
Qed.

Lemma comparisonResults_signs (s : Signals) (c : ComparisonResults.t float) :
  comparisonResults s = Some c ->
  nonnegative (Prim2SF (ComparisonResults.gasCostPerMile c)) = true
  /\ nonnegative (Prim2SF (ComparisonResults.electricCostPerMile c)) = true
  /\ nonnegative (Prim2SF (ComparisonResults.efficiencyFactor c)) = true.
Proof.
  intros Hc. apply comparisonResults_inv in Hc as (base & Mg & Cg & Hr & Hm & Hg & ->).
  rewrite gasMpgNum_eq in Hm. apply parsed in Hm, Hg.
  destruct (evResults_signs _ _ Hr) as [He Hq].
  cbn [ComparisonResults.gasCostPerMile ComparisonResults.electricCostPerMile
       ComparisonResults.efficiencyFactor].
  split; [|split; [assumption|]].
  - apply div_nonnegative; [| |now left];
      now apply above_zero_nonnegative, finite_above_zero_above.
  - apply div_nonnegative; [assumption| |now right].
    now apply above_zero_nonnegative, finite_above_zero_above.
Qed.

End AppUSBinary64.

(** ** The second component in exact arithmetic *)

Module AppUSExact.
Import JSNumberFacts ExactFacts ParsingFacts AppUSFacts.
Import AppUS AppUS.Notations.
Local Open Scope Qc_scope.

Definition c1 : Qc := Q2Qc 1.

Lemma literal_1 : literal (num := exact) 1 0 = Fin c1.
Proof. unfold literal. simpl. f_equal; try now apply Q2Qc_eq_iff. Qed.

Lemma c1_pos : 0 < c1.
Proof. reflexivity. Qed.

Lemma parse_positive_US value n :
  parsePositiveNumber (num := exact) value = Some n -> positive n.
Proof. exact (parse_positive value n). Qed.

Definition evDerivation (Ce Me Cg : Qc) : EvResults.t exact :=
  {| EvResults.evMpgEquivalent := Fin (c1 / (Ce / Me) * Cg);
     EvResults.electricCostPerMile := Fin (Ce / Me) |}.

Lemma evResults_exact s r :
  evResults (num := exact) s = Some r ->
  exists Ce Me Cg : Qc,
    0 < Ce /\ 0 < Me /\ 0 < Cg
    /\ electricityCostNum s = Some (Fin Ce)
    /\ milesPerKwhNum s = Some (Fin Me)
    /\ gasPriceNum s = Some (Fin Cg)
    /\ r = evDerivation Ce Me Cg.
Proof.
  intros Hr. apply evResults_inv in Hr as (Ce & Me & Cg & H1 & H2 & H3 & ->).
  destruct (parse_positive_US _ _ H1) as (qe & -> & Hqe).
  destruct (parse_positive_US _ _ H2) as (qm & -> & Hqm).
  destruct (parse_positive_US _ _ H3) as (qg & -> & Hqg).
  exists qe, qm, qg. repeat (split; [assumption|]).
  unfold evDerivation. rewrite literal_1.
  rewrite (div_positive qe _ Hqm).
  assert (0 < qe / qm) as Hc by now apply Qc_pos_div.
  now rewrite (div_positive c1 _ Hc).
Qed.

Definition evComparing (Ce Me Cg Mg : Qc) : ComparisonResults.t exact :=
  let gas := Cg / Mg in
  let electric := Ce / Me in
  {| ComparisonResults.gasCostPerMile := Fin gas;
     ComparisonResults.electricCostPerMile := Fin electric;
     ComparisonResults.savingsPerMile := Fin (gas - electric);
     ComparisonResults.percentSavings := Fin (((gas - electric) / gas) * c100);
     ComparisonResults.efficiencyFactor := Fin ((c1 / (Ce / Me) * Cg) / Mg) |}.

Lemma comparisonResults_exact s c :
  comparisonResults (num := exact) s = Some c ->
  exists Ce Me Cg Mg : Qc,
    0 < Ce /\ 0 < Me /\ 0 < Cg /\ 0 < Mg
    /\ evResults s = Some (evDerivation Ce Me Cg)
    /\ gasMpgNum s = Some (Fin Mg)
    /\ gasPriceNum s = Some (Fin Cg)
    /\ c = evComparing Ce Me Cg Mg.
Proof.
  intros Hc.
  apply comparisonResults_inv in Hc as (base & i & Cg' & Hr & Hi & Hg & ->).
  destruct (evResults_exact _ _ Hr) as (Ce & Me & Cg & HCe & HMe & HCg & _ & _ & Hg' & ->).
  rewrite Hg' in Hg. injection Hg as <-.
  pose proof Hi as Hi'. rewrite gasMpgNum_eq in Hi'.
  destruct (parse_positive_US _ _ Hi') as (Mg & -> & HMg).
  exists Ce, Me, Cg, Mg. repeat (split; [assumption|]).
  unfold evComparing. rewrite literal_0, literal_100.
  cbn [evDerivation EvResults.electricCostPerMile EvResults.evMpgEquivalent].
  assert (0 < Cg / Mg) as Hgas by now apply Qc_pos_div.
  rewrite !(div_positive _ _ HMg).
  change (sub (Fin ?a) (Fin ?b)) with (Fin (a - b)).
  rewrite !(div_positive _ _ Hgas).
  replace (ltb (Fin 0) (Fin (Cg / Mg))) with true.
  - reflexivity.
  - symmetry. simpl. apply negb_true_iff.
    destruct (Qle_bool _ _) eqn:Hle; [|reflexivity].
    apply Qle_bool_iff in Hle. now apply Qlt_not_le in Hgas.
Qed.

End AppUSExact.

(** ** The second component in binary64: the round trip, rounded three
    times *)

Module AppUSError.
Import JSNumberFacts Binary64Facts Binary64Error AppUSFacts AppUSBinary64.
Import AppUS AppUS.Notations.
Local Open Scope Q_scope.

Lemma valueOf_one : valueOf (literal (num := float) 1 0) == 1.
Proof. reflexivity. Qed.

Lemma scale_bounds (lo hi x y k : Q) :
  0 < k -> lo * x <= y <= hi * x -> lo * (x * k) <= y * k <= hi * (x * k).
Proof.
  intros Hk [H1 H2]. split.
  - setoid_replace (lo * (x * k)) with ((lo * x) * k) by ring.
    apply Qmult_le_compat_r; [assumption | now apply Qlt_le_weak].
  - setoid_replace (hi * (x * k)) with ((hi * x) * k) by ring.
    apply Qmult_le_compat_r; [assumption | now apply Qlt_le_weak].
Qed.

Lemma evResults_round_trip_error (s : Signals) (r : EvResults.t float) (Cg : float) :
  evResults s = Some r -> gasPriceNum s = Some Cg ->
  isNormal (literal 1 0 / EvResults.electricCostPerMile r)%float = true ->
  isNormal (EvResults.evMpgEquivalent r) = true ->
  isNormal (EvResults.evMpgEquivalent r * EvResults.electricCostPerMile r)%float = true ->
  (1 - eps2) * valueOf Cg
  <= valueOf (EvResults.evMpgEquivalent r * EvResults.electricCostPerMile r)%float
  <= (1 + eps2) * valueOf Cg.
Proof.
  intros Hr Hg N1 N2 N3.
  destruct (evResults_signs s r Hr) as [Hk _].
  apply evResults_inv in Hr as (Ce & Me & Cg' & _ & _ & Hg' & ->).
  rewrite Hg' in Hg. injection Hg as ->.
  apply parsed in Hg'.
  cbn [EvResults.electricCostPerMile EvResults.evMpgEquivalent] in *.
  set (ecpm := div Ce Me) in *.
  change (div ?x ?y) with (x / y)%float in *.
  change (mul ?x ?y) with (x * y)%float in *.
  set (one := literal (num := float) 1 0) in *.
  pose proof (normal_quotient_divisor one ecpm one_finite_above_zero Hk N1) as He.
  pose proof (div_error one ecpm one_finite_above_zero He N1) as H1.
  pose proof (mul_error (one / ecpm)%float Cg
                (isNormal_finite_above_zero _ N1) Hg' N2) as H2.
  pose proof (mul_error (one / ecpm * Cg)%float ecpm
                (isNormal_finite_above_zero _ N2) He N3) as H3.
  pose proof (valueOf_pos Cg Hg') as Hc.
  pose proof (valueOf_pos ecpm He) as Hkpos.
  unfold one in H1. rewrite valueOf_one in H1. fold one in H1.
  apply (scale_bounds _ _ _ _ _ Hc) in H1.
  apply (scale_bounds _ _ _ _ _ Hkpos) in H2.
  set (a := valueOf (one / ecpm)%float) in *.
  set (k := valueOf ecpm) in *. set (c := valueOf Cg) in *.
  set (m := valueOf (one / ecpm * Cg)%float) in *.
  setoid_replace (a * c * k) with (a * k * c) in H2 by ring.
  set (W := a * k * c) in *. set (MK := m * k) in *.
  unfold eps, eps2 in *. lra.
Qed.

End AppUSError.

(** ** The two components on the same texts *)

Module Versions.
Import JSNumberFacts ExactFacts AppUSFacts AppUSExact.
Import AppUS AppUS.Notations.

(** The texts of the first component, as the fields of the second. *)
Definition sameTexts (s : App.Signals) : Signals :=
  {| electricityCost := App.electricityCost s;
     milesPerKwh := App.efficiencyInput s;
     gasPrice := App.fuelPrice s;
     gasMpg := App.iceEfficiency s |}.

Section AnyArithmetic.
Context {num : Type} `{Ordered num}.

Lemma results_present_both (s : App.Signals) :
  App.results s = None <-> evResults (sameTexts s) = None.
Proof. rewrite AppFacts.results_None, evResults_None. reflexivity. Qed.

Lemma comparison_present_both (s : App.Signals) :
  App.comparison s = None <-> comparisonResults (sameTexts s) = None.
Proof.
  rewrite AppFacts.comparison_None, comparisonResults_None, results_present_both.
  reflexivity.
Qed.

Lemma gas_cost_both (s : App.Signals) c c0 :
  App.unitSystem s = App.US ->
  App.comparison s = Some c -> comparisonResults (sameTexts s) = Some c0 ->
  App.gasCostPerDist c = ComparisonResults.gasCostPerMile c0.
Proof.
  intros Hu Hc Hc0.
  apply AppFacts.comparison_inv in Hc as (base & i & Cf & _ & Hi & Hf & ->).
  apply comparisonResults_inv in Hc0 as (base0 & Mg & Cg & _ & Hm & Hg & ->).
  cbn [App.gasCostPerDist ComparisonResults.gasCostPerMile].
  rewrite Hu. unfold AppFacts.gasCost.
  change (gasMpgNum (sameTexts s)) with (App.iceEfficiencyNum s) in Hm.
  change (gasPriceNum (sameTexts s)) with (App.fuelPriceNum s) in Hg.
  congruence.
Qed.

End AnyArithmetic.

Local Open Scope Qc_scope.

Lemma charging_loss_exact (s : App.Signals) (r : App.Results exact) :
  App.results s = Some r ->
  exists r0 : EvResults.t exact,
    evResults (sameTexts s) = Some r0
    /\ App.electricCostPerDist r
       = div (EvResults.electricCostPerMile r0) App.CHARGING_EFFICIENCY
    /\ App.evFuelEquivalent r
       = mul (EvResults.evMpgEquivalent r0) App.CHARGING_EFFICIENCY.
Proof.
  intros Hr.
  destruct (results_exact _ _ Hr) as (Ce & E & Cf & HCe & HE & HCf & H1 & H2 & H3 & ->).
  exists (evDerivation Ce E Cf). split.
  - pose proof (evResults_Some (num := exact) (sameTexts s) _ _ _ H1 H2 H3) as E0.
    rewrite E0. unfold evDerivation. rewrite literal_1.
    rewrite (div_positive Ce _ HE).
    assert (0 < Ce / E) as Hc by now apply Qc_pos_div.
    now rewrite (div_positive c1 _ Hc).
  - unfold derivation, evDerivation.
    cbn [App.electricCostPerDist App.evFuelEquivalent
         EvResults.electricCostPerMile EvResults.evMpgEquivalent].
    rewrite literal_090, (div_positive _ _ c090_pos).
    change (mul (Fin ?a) (Fin ?b)) with (Fin (a * b)).
    assert (E <> 0) by now apply Qc_pos_neq.
    assert (Ce <> 0) by now apply Qc_pos_neq.
    assert (c090 <> 0) by (apply Qc_pos_neq, c090_pos).
    split; f_equal; unfold c1; field; auto.
Qed.

End Versions.

(** ** The metric branch: two routes to the efficiency factor *)

Module MetricFacts.
Import JSNumberFacts App AppFacts Binary64Facts Binary64Error ExactFacts.
Import AppUSError.

Local Open Scope Q_scope.

Lemma valueOf_hundred : valueOf (literal (num := float) 100 0) == 100.
Proof. reflexivity. Qed.

(** Six roundings, three on each route, compared through the exact
    value [c * i] they both approximate once scaled. *)
Lemma three_routes (a b g p1 f p2 c i k h : Q) :
  0 < c -> 0 < i -> 0 < k -> 0 < h ->
  (1 - eps) * (c * i) <= p1 <= (1 + eps) * (c * i) ->
  (1 - eps) * p1 <= g * h <= (1 + eps) * p1 ->
  (1 - eps) * g <= a * k <= (1 + eps) * g ->
  (1 - eps) * c <= f * k <= (1 + eps) * c ->
  (1 - eps) * (f * i) <= p2 <= (1 + eps) * (f * i) ->
  (1 - eps) * p2 <= b * h <= (1 + eps) * p2 ->
  (1 - eps4) * b <= a <= (1 + eps4) * b.
Proof.
  intros Hc Hi Hk Hh A1 A2 A3 B1 B2 B3.
  assert (0 < k * h) as Hkh by now apply Qmult_lt_0_compat.
  assert (0 < c * i) as Hci by now apply Qmult_lt_0_compat.
  apply (scale_bounds _ _ _ _ _ Hh) in A3.
  apply (scale_bounds _ _ _ _ _ Hi) in B1.
  apply (scale_bounds _ _ _ _ _ Hk) in B2.
  apply (scale_bounds _ _ _ _ _ Hk) in B3.
  setoid_replace (a * k * h) with (a * (k * h)) in A3 by ring.
  setoid_replace (b * h * k) with (b * (k * h)) in B3 by ring.
  setoid_replace (f * i * k) with (f * k * i) in B2 by ring.
  set (X := a * (k * h)) in *. set (Y := b * (k * h)) in *.
  set (CI := c * i) in *. set (GH := g * h) in *.
  set (P2K := p2 * k) in *. set (FKI := f * k * i) in *.
  assert ((1 - eps4) * Y <= X <= (1 + eps4) * Y) as [L U]
    by (unfold eps, eps4 in *; split; lra).
  unfold X, Y in L, U. split.
  - apply Qmult_le_r with (k * h); [assumption|].
    now setoid_replace ((1 - eps4) * b * (k * h)) with ((1 - eps4) * (b * (k * h))) by ring.
  - apply Qmult_le_r with (k * h); [assumption|].
    now setoid_replace ((1 + eps4) * b * (k * h)) with ((1 + eps4) * (b * (k * h))) by ring.
Qed.

Lemma metric_factor_error
      (s : Signals) (r : Results float) (c : Comparison float) (Cf ice : float) :
  unitSystem s = METRIC ->
  results s = Some r -> comparison s = Some c ->
  fuelPriceNum s = Some Cf -> iceEfficiencyNum s = Some ice ->
  isNormal (Cf * ice)%float = true ->
  isNormal (gasCostPerDist c) = true ->
  isNormal (efficiencyFactor c) = true ->
  isNormal (evFuelEquivalent r) = true ->
  isNormal (evFuelEquivalent r * ice)%float = true ->
  isNormal (evFuelEquivalent r * ice / 100)%float = true ->
  (1 - eps4) * valueOf (evFuelEquivalent r * ice / 100)%float
  <= valueOf (efficiencyFactor c)
  <= (1 + eps4) * valueOf (evFuelEquivalent r * ice / 100)%float.
Proof.
  intros Hu Hr Hc Hf Hi Np Ng Na Nf Nq Nb.
  destruct (results_signs s r Hr) as (_ & Hk & _).
  apply comparison_inv in Hc as (base & i & Cf' & Hr' & Hi' & Hf' & ->).
  rewrite Hr' in Hr. injection Hr as ->.
  rewrite Hi' in Hi. injection Hi as ->.
  rewrite Hf' in Hf. injection Hf as ->.
  pose proof Hr' as Hr''.
  apply results_inv in Hr'' as (Ce & E & Cf'' & _ & _ & Hf'' & ->).
  rewrite Hf'' in Hf'. injection Hf' as ->.
  apply parsed_finite_above_zero in Hf''.
  apply iceEfficiencyNum_Some, parsed_finite_above_zero in Hi'.
  rewrite Hu in *. unfold gasCost in *.
  cbn [gasCostPerDist efficiencyFactor evFuelEquivalent electricCostPerDist] in *.
  set (ecpd := div Ce (mul E CHARGING_EFFICIENCY)) in *.
  change (div ?x ?y) with (x / y)%float in *.
  change (mul ?x ?y) with (x * y)%float in *.
  change (literal (num := float) 100 0) with 100%float in *.
  pose proof (normal_quotient_divisor Cf ecpd Hf'' Hk Nf) as He.
  assert (finite_above_zero (Prim2SF 100) = true) as Hh by reflexivity.
  apply (three_routes _ _ (valueOf (Cf * ice / 100)%float) (valueOf (Cf * ice)%float)
           (valueOf (Cf / ecpd)%float) (valueOf (Cf / ecpd * ice)%float)
           (valueOf Cf) (valueOf ice) (valueOf ecpd) (valueOf 100%float)).
  - now apply valueOf_pos.
  - now apply valueOf_pos.
  - now apply valueOf_pos.
  - now apply valueOf_pos.
  - now apply mul_error.
  - apply div_error; [now apply isNormal_finite_above_zero | assumption..].
  - apply div_error; [now apply isNormal_finite_above_zero | assumption..].
  - now apply div_error.
  - apply mul_error; [now apply isNormal_finite_above_zero | assumption..].
  - apply div_error; [now apply isNormal_finite_above_zero | assumption..].
Qed.

Local Open Scope Qc_scope.

Lemma metric_factor_exact
      (s : Signals) (r : Results exact) (c : Comparison exact) (ice : exact) :
  unitSystem s = METRIC ->
  results s = Some r -> comparison s = Some c -> iceEfficiencyNum s = Some ice ->
  efficiencyFactor c = div (mul (evFuelEquivalent r) ice) (literal 100 0).
Proof.
  intros Hu Hr Hc Hi.
  destruct (comparison_exact _ _ Hc)
    as (qe & qr & qf & qi & He & Hq & Hqf & Hqi & Hr' & Hi' & _ & ->).
  rewrite Hr' in Hr. injection Hr as <-.
  rewrite Hi' in Hi. injection Hi as <-.
  rewrite Hu. unfold comparing, derivation, gasCostQ.
  cbn [efficiencyFactor evFuelEquivalent].
  rewrite literal_100.
  change (mul (Fin ?a) (Fin ?b)) with (Fin (a * b)).
  rewrite (div_positive _ _ c100_pos). f_equal.
  assert (qe <> 0) by now apply Qc_pos_neq.
  assert (qr <> 0) by now apply Qc_pos_neq.
  assert (c090 <> 0) by (apply Qc_pos_neq, c090_pos).
  assert (c100 <> 0) by (apply Qc_pos_neq, c100_pos).
  field. repeat split; auto.
Qed.

End MetricFacts.

(** ** src/App.tsx: reading the fields, showing the results, the second
    component *)

Module AppProperties.
Import Qabs.
Import JSNumberFacts Binary64Facts Binary64Error ExactFacts.
Import AppDisplay ParsingFacts ParsingBinary64 ToFixedFacts.
Import AppUSFacts AppUSBinary64 AppUSExact AppUSError Versions MetricFacts.
Import AppUS.Notations.

(** The scenario, in the fields of the second component. *)
Definition scenarioUS : AppUS.Signals := sameTexts App.scenario.

(** X9.  The blank test in the memo of the optional field changes
    nothing: the memo is [parsePositiveNumber] of the text, in each of
    the two components. *)
Theorem optional_field_guard :
  forall (s : App.Signals) (s' : AppUS.Signals),
    App.iceEfficiencyNum (num := float) s
    = App.parsePositiveNumber (App.iceEfficiency s)
    /\ AppUS.gasMpgNum (num := float) s'
       = AppUS.parsePositiveNumber (AppUS.gasMpg s').
Proof.
  intros s s'. split; [apply iceEfficiencyNum_eq | apply gasMpgNum_eq].
Qed.

(** X10.  White space and line breaks around a text do not matter to
    [parsePositiveNumber]. *)
Theorem surrounding_white_space_ignored :
  forall before value after : JSString.t,
    forallb isWhiteSpace before = true -> forallb isWhiteSpace after = true ->
    App.parsePositiveNumber (num := float) (before ++ value ++ after)
    = App.parsePositiveNumber value.
Proof.
  intros before value after Hb Ha. unfold App.parsePositiveNumber, Number.
  now rewrite (StringToNumber_surrounded before value after Hb Ha).
Qed.

Lemma surrounding_white_space_ignored_witness :
  App.parsePositiveNumber (num := float) (lit "  " ++ lit "0.12" ++ lit "
")
  = App.parsePositiveNumber (lit "0.12")
  /\ App.parsePositiveNumber (num := float) (lit "0.12") = Some 0.12%float.
Proof.
  split; [|reflexivity].
  exact (surrounding_white_space_ignored (lit "  ") (lit "0.12") (lit "
") eq_refl eq_refl).
Defined.

(** X11.  A text that begins with a minus sign is never accepted,
    whatever follows the sign. *)
Theorem minus_sign_rejected :
  forall value : JSString.t,
    App.parsePositiveNumber (num := float) (lit "-" ++ value) = None.
Proof.
  intros value. change (lit "-" ++ value) with (45%N :: value).
  unfold App.parsePositiveNumber.
  destruct (minus_not_above_zero value) as [H | H]; cbv zeta in H.
  - now rewrite H.
  - change (literal (num := float) 0 0) with 0%float.
    change (@leb float Binary64) with PrimFloat.leb. rewrite H.
    now rewrite orb_true_r.
Qed.

(** X12.  In the results block, the fallback [0] of the two accessors
    is never taken: whenever there is a result, [cf()] is the parsed fuel
    price and [ce()] the parsed electricity cost. *)
Theorem results_block_accessors :
  forall (s : App.Signals) (r : App.Results float),
    App.results s = Some r ->
    App.fuelPriceNum s = Some (cf s) /\ App.electricityCostNum s = Some (ce s).
Proof.
  intros s r Hr.
  apply AppFacts.results_inv in Hr as (Ce & E & Cf & H1 & _ & H3 & _).
  unfold cf, ce. rewrite H1, H3.
  unfold App.fuelPriceNum, App.electricityCostNum in *.
  now rewrite (orZero_parsed _ _ H1), (orZero_parsed _ _ H3).
Qed.

Lemma results_block_accessors_witness :
  App.fuelPriceNum App.scenario = Some (cf App.scenario)
  /\ cf App.scenario = 4%float /\ ce App.scenario = 0.12%float.
Proof.
  split; [|split; reflexivity].
  exact (proj1 (results_block_accessors App.scenario _ eq_refl)).
Defined.

Import AppUS.


Lemma ToBoolean_nonnegative (x : float) :
  nonnegative (Prim2SF x) = true -> ToBoolean x = (0 <? x)%float.
Proof.
  unfold ToBoolean, PrimFloat.is_zero, PrimFloat.is_nan.
  rewrite !FloatAxioms.eqb_spec, FloatAxioms.ltb_spec, Prim2SF_zero.
  change (Prim2SF PrimFloat.zero) with (S754_zero false).
  destruct (Prim2SF x) as [[]|[]| |[] m e]; try discriminate; intros _;
    try reflexivity.
  unfold SFeqb, SFltb, SFcompare. rewrite Z.compare_refl, Pos.compare_cont_refl.
  reflexivity.
Qed.

(** X13.  For a finite Number of magnitude below [1e21] and at most 100
    digits asked for, the three format helpers do not throw;
    [formatNumber] gives a text, [formatCurrency] that text behind [$]
    and [formatPercent] that text before [%]; and the text reads back,
    as a decimal, to within half a unit of its last digit of the
    Number. *)
Theorem formatted_value_reads_back :
  forall (NumberToString : float -> JSString.t) (val : float) (d : N),
    (d <= 100)%N -> isFinite val = true ->
    (Qabs (valueOf val) < (10 # 1) ^ 21)%Q ->
    exists (text : JSString.t) (q : Q),
      formatNumber NumberToString val (Some d) = Some text
      /\ formatCurrency NumberToString val (Some d) = Some (lit "$" ++ text)
      /\ formatPercent NumberToString val (Some d) = Some (text ++ lit "%")
      /\ Number (num := exact) text = Fin (Q2Qc q)
      /\ (Qabs (q - valueOf val) <= (1 # 2) * (10 # 1) ^ (- Z.of_N d))%Q.
Proof.
  intros N val d Hd Hf Hb.
  destruct (toFixed_within N val d Hd Hf Hb) as (text & q & Ht & Hn & Hq).
  exists text, q. unfold formatNumber, formatCurrency, formatPercent.
  rewrite Ht. repeat split; assumption.
Qed.

Lemma formatted_value_reads_back_witness :
  formatNumber (fun _ => []) 105.00000000000001 (Some 1%N) = Some (lit "105.0")
  /\ exists q : Q,
       Number (num := exact) (lit "105.0") = Fin (Q2Qc q)
       /\ (Qabs (q - valueOf 105.00000000000001) <= (1 # 2) * (10 # 1) ^ (-1))%Q.
Proof.
  assert (formatNumber (fun _ => []) 105.00000000000001 (Some 1%N)
          = Some (lit "105.0")) as E by (vm_compute; reflexivity).
  split; [exact E|].
  assert (1 <= 100)%N as H1 by (vm_compute; discriminate).
  assert (isFinite 105.00000000000001%float = true) as H2 by (vm_compute; reflexivity).
  assert (Qabs (valueOf 105.00000000000001) < (10 # 1) ^ 21)%Q as H3
    by (vm_compute; reflexivity).
  destruct (formatted_value_reads_back (fun _ => []) 105.00000000000001 1 H1 H2 H3)
    as (text & q & Ht & _ & _ & Hn & Hq).
  rewrite E in Ht. injection Ht as <-.
  exists q. split; assumption.
Defined.

(** X14.  In binary64, whenever the second component has a result, the
    electric cost per mile and the MPG equivalent are at least zero, and
    so are the gas cost per mile and the efficiency factor of a
    comparison: none is negative, none is NaN.  So the live button shows
    [?] when there is no result or the MPG equivalent is zero, and the
    formatted MPG equivalent otherwise. *)
Theorem second_component_signs :
  forall (NumberToString : float -> JSString.t) (s : Signals),
    (forall r : EvResults.t float,
       evResults s = Some r ->
       (0 <=? EvResults.electricCostPerMile r)%float = true
       /\ (0 <=? EvResults.evMpgEquivalent r)%float = true)
    /\ (forall c : ComparisonResults.t float,
          comparisonResults s = Some c ->
          (0 <=? ComparisonResults.gasCostPerMile c)%float = true
          /\ (0 <=? ComparisonResults.efficiencyFactor c)%float = true)
    /\ liveMpgText NumberToString s
       = match evResults s with
         | Some r =>
             if (0 <? EvResults.evMpgEquivalent r)%float
             then formatNumber NumberToString (EvResults.evMpgEquivalent r) (Some 1%N)
             else Some (lit "?")
         | None => Some (lit "?")
         end.
Proof.
  intros N s. split; [|split].
  - intros r Hr. destruct (evResults_signs s r Hr) as [H1 H2].
    split; now apply leb_zero_nonnegative.
  - intros c Hc. destruct (comparisonResults_signs s c Hc) as (H1 & _ & H3).
    split; now apply leb_zero_nonnegative.
  - unfold liveMpgText. destruct (evResults s) as [r|] eqn:Hr; [|reflexivity].
    destruct (evResults_signs s r Hr) as [_ H2].
    now rewrite (ToBoolean_nonnegative _ H2).
Qed.

(** X15.  In the second component, in exact arithmetic, the MPG
    equivalent times the electric cost per mile is the gas price, and the
    efficiency factor is the gas cost per mile over the electric cost per
    mile.  In binary64, when the miles per dollar, the MPG equivalent and
    the product are normal numbers, the product is within [2 ^ -50] of
    the gas price, relatively. *)
Theorem second_component_round_trip :
  (forall (s : Signals) (r : EvResults.t exact) (Cg : exact),
     evResults s = Some r -> gasPriceNum s = Some Cg ->
     mul (EvResults.evMpgEquivalent r) (EvResults.electricCostPerMile r) = Cg)
  /\ (forall (s : Signals) (r : EvResults.t exact) (c : ComparisonResults.t exact),
        evResults s = Some r -> comparisonResults s = Some c ->
        ComparisonResults.efficiencyFactor c
        = div (ComparisonResults.gasCostPerMile c) (EvResults.electricCostPerMile r))
  /\ (forall (s : Signals) (r : EvResults.t float) (Cg : float),
        evResults s = Some r -> gasPriceNum s = Some Cg ->
        isNormal (literal 1 0 / EvResults.electricCostPerMile r)%float = true ->
        isNormal (EvResults.evMpgEquivalent r) = true ->
        isNormal (EvResults.evMpgEquivalent r * EvResults.electricCostPerMile r)%float
        = true ->
        ((1 - eps2) * valueOf Cg
         <= valueOf (EvResults.evMpgEquivalent r * EvResults.electricCostPerMile r)%float
         <= (1 + eps2) * valueOf Cg)%Q).
Proof.
  split; [|split].
  - intros s r Cg Hr Hg.
    destruct (evResults_exact _ _ Hr) as (Ce & Me & Cg' & HCe & HMe & HCg & _ & _ & Hg' & ->).
    rewrite Hg' in Hg. injection Hg as <-.
    unfold evDerivation.
    cbn [EvResults.evMpgEquivalent EvResults.electricCostPerMile].
    change (mul (Fin ?a) (Fin ?b)) with (Fin (a * b)%Qc).
    f_equal. unfold c1.
    assert (Ce <> 0%Qc) by now apply Qc_pos_neq.
    assert (Me <> 0%Qc) by now apply Qc_pos_neq.
    field; auto.
  - intros s r c Hr Hc.
    destruct (comparisonResults_exact _ _ Hc)
      as (Ce & Me & Cg & Mg & HCe & HMe & HCg & HMg & Hr' & _ & _ & ->).
    rewrite Hr' in Hr. injection Hr as <-.
    unfold evComparing, evDerivation.
    cbn [ComparisonResults.efficiencyFactor ComparisonResults.gasCostPerMile
         EvResults.electricCostPerMile].
    assert (0 < Ce / Me)%Qc as Hel by now apply Qc_pos_div.
    rewrite (div_positive _ _ Hel). f_equal. unfold c1.
    assert (Ce <> 0%Qc) by now apply Qc_pos_neq.
    assert (Me <> 0%Qc) by now apply Qc_pos_neq.
    assert (Mg <> 0%Qc) by now apply Qc_pos_neq.
    field; auto.
  - exact evResults_round_trip_error.
Qed.

Lemma second_component_round_trip_witness :
  exists r : EvResults.t float,
    evResults scenarioUS = Some r
    /\ ((1 - eps2) * valueOf 4
        <= valueOf (EvResults.evMpgEquivalent r * EvResults.electricCostPerMile r)%float
        <= (1 + eps2) * valueOf 4)%Q.
Proof.
  eexists. split; [reflexivity|].
  exact (proj2 (proj2 second_component_round_trip) scenarioUS _ 4%float
           eq_refl eq_refl eq_refl eq_refl eq_refl).
Defined.

(** X16.  In the second component, a missing result is never silent:
    one of the three required fields is blank, or a message is shown
    under one of them.  A message under a required field means there is
    no result; a message under the gas-car field means there is no
    comparison; and a blank gas-car field shows no message and gives no
    comparison. *)
Theorem field_errors :
  forall s : Signals,
    (evResults (num := float) s = None ->
       trim (electricityCost s) = [] \/ trim (milesPerKwh s) = []
       \/ trim (gasPrice s) = []
       \/ showElectricityError (num := float) s = true
       \/ showMilesError (num := float) s = true
       \/ showGasError (num := float) s = true)
    /\ (showElectricityError (num := float) s = true
        \/ showMilesError (num := float) s = true
        \/ showGasError (num := float) s = true ->
        evResults (num := float) s = None)
    /\ (showGasMpgError (num := float) s = true ->
        comparisonResults (num := float) s = None)
    /\ (trim (gasMpg s) = [] ->
        showGasMpgError (num := float) s = false
        /\ comparisonResults (num := float) s = None).
Proof.
  intros s. split; [|split; [|split]].
  - intros Hr. apply evResults_None in Hr.
    unfold showElectricityError, showMilesError, showGasError.
    unfold electricityCostNum, milesPerKwhNum, gasPriceNum in *.
    destruct Hr as [Hr | [Hr | Hr]];
      destruct (absent_field_blank_or_shown _ Hr) as [Hb | Hs]; tauto.
  - unfold showElectricityError, showMilesError, showGasError.
    rewrite !shown_iff, evResults_None. tauto.
  - unfold showGasMpgError. rewrite shown_iff, comparisonResults_None. tauto.
  - intros Hb. split.
    + unfold showGasMpgError. now rewrite Hb.
    + apply comparisonResults_None. right. unfold gasMpgNum. now rewrite Hb.
Qed.

(** X17.  On the same four texts the two components have a result
    together and a comparison together; in the US system they compute the
    same gas cost per distance; and, in exact arithmetic, the first
    component's electric cost per distance is the second's over the
    charging efficiency, and its fuel-equivalent efficiency the second's
    times the charging efficiency. *)
Theorem charging_loss_between_versions :
  forall s : App.Signals,
    (App.results (num := float) s = None
     <-> evResults (num := float) (sameTexts s) = None)
    /\ (App.comparison (num := float) s = None
        <-> comparisonResults (num := float) (sameTexts s) = None)
    /\ (forall (c : App.Comparison float) (c0 : ComparisonResults.t float),
          App.unitSystem s = App.US ->
          App.comparison s = Some c -> comparisonResults (sameTexts s) = Some c0 ->
          App.gasCostPerDist c = ComparisonResults.gasCostPerMile c0)
    /\ (forall r : App.Results exact,
          App.results s = Some r ->
          exists r0 : EvResults.t exact,
            evResults (sameTexts s) = Some r0
            /\ App.electricCostPerDist r
               = div (EvResults.electricCostPerMile r0) App.CHARGING_EFFICIENCY
            /\ App.evFuelEquivalent r
               = mul (EvResults.evMpgEquivalent r0) App.CHARGING_EFFICIENCY).
Proof.
  intros s. split; [apply results_present_both|].
  split; [apply comparison_present_both|].
  split; [apply gas_cost_both | apply charging_loss_exact].
Qed.

(** Metric inputs: 0.12 per kWh, 5.6 km per kWh and 1.50 per liter,
    against a car that takes 7.8 L per 100 km. *)
Definition metricScenario : App.Signals :=
  {| App.unitSystem := App.METRIC;
     App.electricityCost := lit "0.12";
     App.efficiencyInput := lit "5.6";
     App.fuelPrice := lit "1.50";
     App.iceEfficiency := lit "7.8" |}.

(** X18.  In the metric system the efficiency factor of the comparison
    is the fuel-equivalent efficiency of the derivation times the liters
    per 100 km, over 100: exactly so in exact arithmetic; in binary64,
    when the six products and quotients involved are normal numbers, the
    two are within [2 ^ -49] of each other, relatively. *)
Theorem metric_efficiency_factor :
  (forall (s : App.Signals) (r : App.Results exact) (c : App.Comparison exact)
          (ice : exact),
     App.unitSystem s = App.METRIC ->
     App.results s = Some r -> App.comparison s = Some c ->
     App.iceEfficiencyNum s = Some ice ->
     App.efficiencyFactor c
     = div (mul (App.evFuelEquivalent r) ice) (literal 100 0))
  /\ (forall (s : App.Signals) (r : App.Results float) (c : App.Comparison float)
             (Cf ice : float),
        App.unitSystem s = App.METRIC ->
        App.results s = Some r -> App.comparison s = Some c ->
        App.fuelPriceNum s = Some Cf -> App.iceEfficiencyNum s = Some ice ->
        isNormal (Cf * ice)%float = true ->
        isNormal (App.gasCostPerDist c) = true ->
        isNormal (App.efficiencyFactor c) = true ->
        isNormal (App.evFuelEquivalent r) = true ->
        isNormal (App.evFuelEquivalent r * ice)%float = true ->
        isNormal (App.evFuelEquivalent r * ice / 100)%float = true ->
        ((1 - eps4) * valueOf (App.evFuelEquivalent r * ice / 100)%float
         <= valueOf (App.efficiencyFactor c)
         <= (1 + eps4) * valueOf (App.evFuelEquivalent r * ice / 100)%float)%Q).
Proof.
  split.
  - intros s r c ice Hu Hr Hc Hi. now apply (metric_factor_exact s r c ice).
  - intros s r c Cf ice Hu Hr Hc Hf Hi N1 N2 N3 N4 N5 N6.
    now apply (metric_factor_error s r c Cf ice).
Qed.

Lemma metric_efficiency_factor_witness :
  exists (r : App.Results float) (c : App.Comparison float),
    App.results metricScenario = Some r /\ App.comparison metricScenario = Some c
    /\ ((1 - eps4) * valueOf (App.evFuelEquivalent r * 7.8 / 100)%float
        <= valueOf (App.efficiencyFactor c)
        <= (1 + eps4) * valueOf (App.evFuelEquivalent r * 7.8 / 100)%float)%Q.
Proof.
  eexists. eexists. split; [reflexivity|]. split; [reflexivity|].
  exact (proj2 metric_efficiency_factor metricScenario _ _ 1.5%float 7.8%float
           eq_refl eq_refl eq_refl eq_refl eq_refl
           eq_refl eq_refl eq_refl eq_refl eq_refl eq_refl).
Defined.

End AppProperties.
